(** * FilmWhisper (Bitmagnet Stremio addon): torrent-candidate resolution
      and stream synthesis.

    A shallow embedding of [lib/torrent.ts] ([parseMagnetUri],
    [findBestFileIndex], [formatBytes]), [lib/premiumize/premiumize_cachestatus.ts]
    ([checkPremiumizeCacheBulk]) and [lib/stremio_helpers.ts]
    ([parseStremioId], [fetchAndSearchTorrents], [processPremiumizeCandidate],
    [createStreamsFromTorrents]), with the properties of the design document
    stated and settled against them.  Further sections embed the code
    around them: the escaping of the configuration page, the backend search
    ([parseGraphQLResults], [bitmagnetSearch]), the tracker list, the choice
    of a direct link ([getPremiumizeDirectDownloadLink]), the stream handler
    with its cache, and the configuration tokens.

    Conventions of the embedding.
    - A JavaScript string is a Rocq [string]: the byte sequence of its UTF-8
      encoding.  Every literal and every character class the code uses is
      ASCII, so searching, splitting and comparing on bytes agree with the
      same operations on code units.
    - A JavaScript number that the code treats as an integer (season,
      episode, seeders, sizes, file indexes) is a [Z]; [undefined] and
      [null] are [None].
    - The outside world (HTTP answers, their arrival order) is an explicit
      argument of the function that consults it. *)

From Stdlib Require Import ZArith String Ascii List Lia DecimalString DecimalPos.
From stdpp Require Import base option list strings gmap.

Local Open Scope string_scope.

(** ** The JavaScript primitives the sources rely on *)

Module JS.

Definition code (c : ascii) : N := N_of_ascii c.

Definition inRange (lo hi : N) (c : ascii) : bool :=
  ((lo <=? code c) && (code c <=? hi))%N.

Definition isDigit (c : ascii) : bool := inRange 48 57 c.
Definition isUpper (c : ascii) : bool := inRange 65 90 c.
Definition isLower (c : ascii) : bool := inRange 97 122 c.

(** [\w] of a regular expression without the [u] flag. *)
Definition isWordChar (c : ascii) : bool :=
  isDigit c || isUpper c || isLower c || (c =? "_")%char.

(** [[a-fA-F0-9]]. *)
Definition isHexDigit (c : ascii) : bool :=
  isDigit c || inRange 65 70 c || inRange 97 102 c.

Definition lowerChar (c : ascii) : ascii :=
  if isUpper c then ascii_of_N (code c + 32) else c.

Definition upperChar (c : ascii) : ascii :=
  if isLower c then ascii_of_N (code c - 32) else c.

Fixpoint drop (n : nat) (s : string) : string :=
  match n, s with
  | S n', String _ rest => drop n' rest
  | _, _ => s
  end.

Definition bytes (n : nat) (s : string) : list N :=
  map code (take n (list_ascii_of_string s)).

(** Length in bytes of a leading [WhiteSpace] or [LineTerminator]
    character (the class [\s], also what [parseInt] and [trim] skip):
    TAB, LF, VT, FF, CR, SP, U+00A0, U+1680, U+2000..U+200A, U+2028,
    U+2029, U+202F, U+205F, U+3000 and U+FEFF. *)
Definition whiteSpaceLen (s : string) : option nat :=
  match bytes 3 s with
  | 9%N :: _ | 10%N :: _ | 11%N :: _ | 12%N :: _ | 13%N :: _ | 32%N :: _ => Some 1%nat
  | 194%N :: 160%N :: _ => Some 2%nat
  | 225%N :: 154%N :: 128%N :: _ => Some 3%nat
  | 226%N :: 128%N :: b :: _ =>
      if ((128 <=? b) && (b <=? 138) || (b =? 168) || (b =? 169) || (b =? 175))%N
      then Some 3%nat else None
  | 226%N :: 129%N :: 159%N :: _ => Some 3%nat
  | 227%N :: 128%N :: 128%N :: _ => Some 3%nat
  | 239%N :: 187%N :: 191%N :: _ => Some 3%nat
  | _ => None
  end.

Fixpoint trimStartFuel (fuel : nat) (s : string) : string :=
  match fuel with
  | O => s
  | S fuel' =>
      match whiteSpaceLen s with
      | Some k => trimStartFuel fuel' (drop k s)
      | None => s
      end
  end.

(** Leading white space removed; every step consumes at least one byte,
    so the length of the string is enough fuel. *)
Definition trimStart (s : string) : string := trimStartFuel (String.length s) s.

Definition digitValue (c : ascii) : Z := Z.of_N (code c) - 48.

(** Value of the longest prefix of decimal digits, continuing [acc]. *)
Fixpoint leadingDigits (acc : Z) (s : string) : Z :=
  match s with
  | String c rest =>
      if isDigit c then leadingDigits (10 * acc + digitValue c) rest else acc
  | EmptyString => acc
  end.

(** [parseInt(s, 10)]; [None] is [NaN].  The value is the mathematical
    integer (a double keeps it exactly up to 2^53). *)
Definition parseInt (s : string) : option Z :=
  let t := trimStart s in
  let '(sign, u) :=
    match t with
    | String "-" rest => ((-1)%Z, rest)
    | String "+" rest => (1%Z, rest)
    | _ => (1%Z, t)
    end in
  match u with
  | String c _ => if isDigit c then Some (sign * leadingDigits 0 u)%Z else None
  | EmptyString => None
  end.

(** [String(n)] for an integer below 10^21 in magnitude. *)
Definition numberToString (n : Z) : string := NilZero.string_of_int (Z.to_int n).

Fixpoint repeatChar (n : nat) (c : ascii) : string :=
  match n with
  | O => EmptyString
  | S n' => String c (repeatChar n' c)
  end.

(** [s.padStart(n, c)] for a one-character filler. *)
Definition padStart (n : nat) (c : ascii) (s : string) : string :=
  repeatChar (n - String.length s) c +:+ s.

(** [s.startsWith(p)]. *)
Definition startsWith (s p : string) : bool := String.prefix p s.

(** [s.includes(c)] for a one-character needle. *)
Fixpoint includes (s : string) (c : ascii) : bool :=
  match s with
  | EmptyString => false
  | String d rest => (d =? c)%char || includes rest c
  end.

Fixpoint splitOn (sep : ascii) (s : string) : string * list string :=
  match s with
  | EmptyString => (EmptyString, [])
  | String c rest =>
      let '(piece, pieces) := splitOn sep rest in
      if (c =? sep)%char then (EmptyString, piece :: pieces)
      else (String c piece, pieces)
  end.

(** [s.split(sep)] for a one-character separator: never empty. *)
Definition split (s : string) (sep : ascii) : list string :=
  let '(piece, pieces) := splitOn sep s in piece :: pieces.

(** Truthiness of a string. *)
Definition truthy (s : string) : bool :=
  match s with EmptyString => false | _ => true end.

End JS.

(** ** Identifier parser ([parseStremioId]) *)

Inductive SearchType := movie | series.

Record ParsedId := mkParsedId {
  imdbId : string;
  season : option Z;
  episode : option Z;
  searchType : SearchType
}.

Record StremioArgs := mkArgs { arg_type : string; arg_id : string }.

Definition searchTypeOf (type : string) : option SearchType :=
  if String.eqb type "movie" then Some movie
  else if String.eqb type "series" then Some series
  else None.

Definition isSeries (t : SearchType) : bool :=
  match t with series => true | movie => false end.

Definition parseStremioId (args : StremioArgs) : option ParsedId :=
  match searchTypeOf (arg_type args) with
  | None => None
  | Some searchType =>
      if isSeries searchType && JS.includes (arg_id args) ":" then
        match JS.split (arg_id args) ":" with
        | [p0; p1; p2] =>
            if JS.startsWith p0 "tt" then
              match JS.parseInt p1, JS.parseInt p2 with
              | Some season, Some episode =>
                  Some (mkParsedId p0 (Some season) (Some episode) searchType)
              | _, _ => None
              end
            else None
        | _ => None
        end
      else if negb (JS.startsWith (arg_id args) "tt") then None
      else Some (mkParsedId (arg_id args) None None searchType)
  end.

(** ** Torrent utilities ([lib/torrent.ts]) *)

Module JSRegExp.
Import JS.

(** The episode patterns are all of the shape
    [(?:[._\-\s]|\b)LITERAL(?:[._\-\s]|\b)] with the flag [i], where
    LITERAL is made of the letters [S], [E], [x] and of the decimal text of
    two integers (digits and a minus sign, none of them special in a
    regular expression).  A pattern is represented by its LITERAL. *)

(** Length in bytes of a leading character of the class [[._\-\s]]. *)
Definition separatorLen (s : string) : option nat :=
  match s with
  | String c _ =>
      if ((c =? ".") || (c =? "_") || (c =? "-"))%char then Some 1%nat
      else whiteSpaceLen s
  | EmptyString => None
  end.

(** [\b] between the character [prev] (none at the start) and [s]. *)
Definition wordBoundary (prev : option ascii) (s : string) : bool :=
  xorb (match prev with Some c => isWordChar c | None => false end)
       (match s with String c _ => isWordChar c | EmptyString => false end).

(** Consume [k] bytes, remembering the last one consumed. *)
Fixpoint advance (k : nat) (prev : option ascii) (s : string) : option ascii * string :=
  match k, s with
  | S k', String c rest => advance k' (Some c) rest
  | _, _ => (prev, s)
  end.

(** LITERAL at the start of [s], letters compared without case (only
    ASCII letters fold onto ASCII letters when the [u] flag is absent). *)
Fixpoint matchLiteral (literal : string) (prev : option ascii) (s : string)
  : option (option ascii * string) :=
  match literal with
  | EmptyString => Some (prev, s)
  | String l literal' =>
      match s with
      | String c rest =>
          if (upperChar c =? upperChar l)%char
          then matchLiteral literal' (Some c) rest
          else None
      | EmptyString => None
      end
  end.

(** LITERAL then the closing [(?:[._\-\s]|\b)]. *)
Definition matchTail (literal : string) (at_ : option ascii * string) : bool :=
  match matchLiteral literal (fst at_) (snd at_) with
  | Some (prev', rest) => bool_decide (is_Some (separatorLen rest)) || wordBoundary prev' rest
  | None => false
  end.

(** A match that starts exactly here: either alternative of the opening
    group, then the rest. *)
Definition matchHere (literal : string) (prev : option ascii) (s : string) : bool :=
  match separatorLen s with
  | Some k => matchTail literal (advance k prev s)
  | None => false
  end
  || (wordBoundary prev s && matchTail literal (prev, s)).

Fixpoint testFrom (literal : string) (prev : option ascii) (s : string) : bool :=
  matchHere literal prev s
  || match s with
     | String c rest => testFrom literal (Some c) rest
     | EmptyString => false
     end.

(** [regex.test(s)]: a match starting at some position of [s]. *)
Definition test (literal : string) (s : string) : bool := testFrom literal None s.

End JSRegExp.

Record TorrentFile := mkFile {
  file_path : string;
  file_size : Z;
  file_index : Z
}.

Definition videoExtensions : list string :=
  [".mkv"; ".mp4"; ".avi"; ".mov"; ".wmv"; ".flv"].

(** [s.lastIndexOf(c)], [-1] when absent. *)
Fixpoint lastIndexOf (s : string) (c : ascii) : Z :=
  match s with
  | EmptyString => (-1)%Z
  | String d rest =>
      let i := lastIndexOf rest c in
      if (0 <=? i)%Z then (i + 1)%Z
      else if (d =? c)%char then 0%Z else (-1)%Z
  end.

(** [s.substring(start)]: a negative start counts as 0. *)
Definition substring (s : string) (start : Z) : string := JS.drop (Z.to_nat start) s.

(** [s.toLowerCase()].  Besides the ASCII capitals, the Kelvin sign U+212A
    (bytes E2 84 AA) is the only character whose lower case is an ASCII
    text; the other characters are left as they are, which changes no
    comparison with an ASCII literal. *)
Fixpoint toLowerCase (s : string) : string :=
  match s with
  | EmptyString => EmptyString
  | String c rest =>
      match rest with
      | String d (String e rest') =>
          if ((JS.code c =? 226) && (JS.code d =? 132) && (JS.code e =? 170))%N
          then String "k" (toLowerCase rest')
          else String (JS.lowerChar c) (toLowerCase rest)
      | _ => String (JS.lowerChar c) (toLowerCase rest)
      end
  end.

Definition extensionOf (path : string) : string :=
  toLowerCase (substring path (lastIndexOf path ".")).

Definition isVideoFile (file : TorrentFile) : bool :=
  bool_decide (extensionOf (file_path file) ∈ videoExtensions).

(** The six patterns built when season and episode are both given. *)
Definition episodePatterns (season episode : Z) : list string :=
  let seasonPad := JS.padStart 2 "0" (JS.numberToString season) in
  let episodePad := JS.padStart 2 "0" (JS.numberToString episode) in
  let seasonNoPad := JS.numberToString season in
  let episodeNoPad := JS.numberToString episode in
  [ "S" +:+ seasonPad +:+ "E" +:+ episodePad;
    "S" +:+ seasonNoPad +:+ "E" +:+ episodePad;
    "S" +:+ seasonPad +:+ "E" +:+ episodeNoPad;
    "S" +:+ seasonNoPad +:+ "E" +:+ episodeNoPad;
    seasonNoPad +:+ "x" +:+ episodePad;
    seasonNoPad +:+ "x" +:+ episodeNoPad ].

Definition regexPatternsFor (season episode : option Z) : option (list string) :=
  match season, episode with
  | Some s, Some e => Some (episodePatterns s e)
  | _, _ => None
  end.

(** [regexPatterns && regexPatterns.some(regex => regex.test(file.path))]. *)
Definition matchesEpisode (regexPatterns : option (list string)) (file : TorrentFile) : bool :=
  match regexPatterns with
  | Some patterns => existsb (fun literal => JSRegExp.test literal (file_path file)) patterns
  | None => false
  end.

(** [!best || file.size > best.size]. *)
Definition replaces (best : option TorrentFile) (file : TorrentFile) : bool :=
  match best with
  | None => true
  | Some b => (file_size b <? file_size file)%Z
  end.

(** The two variables the loop maintains. *)
Record Selection := mkSelection {
  largestVideoFile : option TorrentFile;
  specificEpisodeFile : option TorrentFile
}.

(** One iteration of [for (const file of files)]. *)
Definition visitFile (regexPatterns : option (list string)) (sel : Selection)
    (file : TorrentFile) : Selection :=
  if isVideoFile file then
    let specific :=
      if matchesEpisode regexPatterns file && replaces (specificEpisodeFile sel) file
      then Some file else specificEpisodeFile sel in
    let largest :=
      if replaces (largestVideoFile sel) file then Some file else largestVideoFile sel in
    mkSelection largest specific
  else sel.

Definition scanFiles (regexPatterns : option (list string)) (files : list TorrentFile)
    : Selection :=
  foldl (visitFile regexPatterns) (mkSelection None None) files.

(** Written from the design document: [f] is the largest file of [files]
    among those satisfying [P], the first one seen in case of a tie. *)
Definition firstLargest (P : TorrentFile -> bool) (files : list TorrentFile)
    (f : TorrentFile) : Prop :=
  exists before after,
    files = (before ++ f :: after)%list /\ P f = true /\
    (forall g, g ∈ before -> P g = true -> (file_size g < file_size f)%Z) /\
    (forall g, g ∈ after -> P g = true -> (file_size g <= file_size f)%Z).

(** A video file whose path one of the six patterns matches. *)
Definition isEpisodeFile (season episode : option Z) (file : TorrentFile) : bool :=
  isVideoFile file && matchesEpisode (regexPatternsFor season episode) file.

(** The way one of the two loop variables evolves, on its own. *)
Definition pick (P : TorrentFile -> bool) (best : option TorrentFile) (file : TorrentFile)
    : option TorrentFile :=
  if P file && replaces best file then Some file else best.

Definition findBestFileIndex (files : option (list TorrentFile))
    (season episode : option Z) : option Z :=
  match files with
  | None | Some [] => None
  | Some fs =>
      let sel := scanFiles (regexPatternsFor season episode) fs in
      match specificEpisodeFile sel with
      | Some f => Some (file_index f)
      | None =>
          match largestVideoFile sel with
          | Some f => Some (file_index f)
          | None =>
              match fs with
              | [f] => Some (file_index f)
              | _ => None
              end
          end
      end
  end.

(** *** [formatBytes] *)

Definition sizes : list string :=
  ["Bytes"; "KB"; "MB"; "GB"; "TB"; "PB"; "EB"; "ZB"; "YB"].

(** [sizes[i]] inside a string concatenation: the text "undefined" when
    [i] is not an index of the array. *)
Definition unitName (i : Z) : string :=
  if (i <? 0)%Z then "undefined" else default "undefined" (sizes !! Z.to_nat i).

(** [x.toFixed(2)] for the exact quotient [x = num / den >= 0], as the
    number of hundredths: the integer [n] with [n / 100] nearest to [x],
    the larger one on a tie. *)
Definition toFixed2 (num den : Z) : Z := ((200 * num + den) / (2 * den))%Z.

(** [parseFloat] of the fixed-point text converted back to a string: the
    hundredths printed without trailing zeros. *)
Definition hundredthsToString (n : Z) : string :=
  let whole := JS.numberToString (n / 100) in
  let frac := (n mod 100)%Z in
  if (frac =? 0)%Z then whole
  else if (frac mod 10 =? 0)%Z then whole +:+ "." +:+ JS.numberToString (frac / 10)
  else whole +:+ "." +:+ JS.padStart 2 "0" (JS.numberToString frac).

(** [bytes / Math.pow(k, i)] as an exact fraction: dividing a double that
    holds an integer by a power of two is exact. *)
Definition scaled (bytes i : Z) : Z * Z :=
  if (0 <=? i)%Z then (bytes, 1024 ^ i)%Z else (bytes * 1024 ^ (- i), 1)%Z.

Section Platform.

(** [Math.floor(Math.log(bytes) / Math.log(k))] for [k = 1024] and a
    positive [bytes]: the one floating-point computation of the program
    whose rounding the language leaves to the platform. *)
Variable mathFloorLog : Z -> Z.

(** [formatBytes(bytes)], always called with the default [decimals = 2].
    A negative [bytes] makes [Math.log] return [NaN], which prints as
    0 followed by the missing unit. *)
Definition formatBytes (bytes : Z) : string :=
  if (bytes =? 0)%Z then "0 Bytes"
  else if (bytes <? 0)%Z then "0 undefined"
  else
    let i := mathFloorLog bytes in
    let '(num, den) := scaled bytes i in
    hundredthsToString (toFixed2 num den) +:+ " " +:+ unitName i.

End Platform.

(** The exact integer logarithm: [floor (log_1024 bytes)]. *)
Definition exactFloorLog (bytes : Z) : Z := (Z.log2 bytes / 10)%Z.

(** Written from the design document: [u] is the largest unit of the
    table in which [bytes] is at least 1. *)
Definition largestUnitAtLeastOne (bytes : Z) (u : nat) : Prop :=
  (u < length sizes)%nat /\ (1024 ^ Z.of_nat u <= bytes)%Z /\
  forall v, (v < length sizes)%nat -> (1024 ^ Z.of_nat v <= bytes)%Z -> (v <= u)%nat.

(** Written from the design document: [hundredths / 100] is [bytes]
    counted in the unit [u] and rounded to two decimal places. *)
Definition roundedToTwoDecimals (bytes : Z) (u : nat) (hundredths : Z) : Prop :=
  (2 * Z.abs (100 * bytes - hundredths * 1024 ^ Z.of_nat u) <= 1024 ^ Z.of_nat u)%Z.

(** *** [parseMagnetUri] *)

Module URLSearchParams.
Import JS.

Definition hexValue (c : ascii) : N :=
  if isDigit c then code c - 48
  else if isUpper c then code c - 55
  else code c - 87.

(** Percent-decoding of a byte sequence: [%XY] with two hexadecimal
    digits is one byte, any other [%] stays. *)
Fixpoint percentDecode (s : string) : string :=
  match s with
  | EmptyString => EmptyString
  | String c tail =>
      match tail with
      | String h (String l rest) =>
          if (c =? "%")%char && isHexDigit h && isHexDigit l
          then String (ascii_of_N (16 * hexValue h + hexValue l)) (percentDecode rest)
          else String c (percentDecode tail)
      | _ => String c (percentDecode tail)
      end
  end.

Fixpoint plusToSpace (s : string) : string :=
  match s with
  | EmptyString => EmptyString
  | String c rest => String (if (c =? "+")%char then " "%char else c) (plusToSpace rest)
  end.

(** The UTF-8 decoder of the Encoding standard, run on bytes and
    re-encoded: well-formed sequences pass, every error becomes U+FFFD. *)
Record Utf8State := mkUtf8 {
  needed : nat;
  lower : N;
  upper : N;
  pending : string
}.

Definition utf8Idle : Utf8State := mkUtf8 0 128 191 EmptyString.

Definition replacement : string :=
  String (ascii_of_N 239) (String (ascii_of_N 191) (String (ascii_of_N 189) EmptyString)).

Definition one (b : ascii) : string := String b EmptyString.

Definition utf8Lead (b : ascii) : string * Utf8State :=
  let n := code b in
  if (n <=? 127)%N then (one b, utf8Idle)
  else if ((194 <=? n) && (n <=? 223))%N then (EmptyString, mkUtf8 1 128 191 (one b))
  else if ((224 <=? n) && (n <=? 239))%N then
    (EmptyString,
     mkUtf8 2 (if (n =? 224)%N then 160 else 128) (if (n =? 237)%N then 159 else 191) (one b))
  else if ((240 <=? n) && (n <=? 244))%N then
    (EmptyString,
     mkUtf8 3 (if (n =? 240)%N then 144 else 128) (if (n =? 244)%N then 143 else 191) (one b))
  else (replacement, utf8Idle).

Definition utf8Step (st : Utf8State) (b : ascii) : string * Utf8State :=
  match needed st with
  | O => utf8Lead b
  | S k =>
      if ((lower st <=? code b) && (code b <=? upper st))%N then
        match k with
        | O => (pending st +:+ one b, utf8Idle)
        | S _ => (EmptyString, mkUtf8 k 128 191 (pending st +:+ one b))
        end
      else
        let '(out, st') := utf8Lead b in (replacement +:+ out, st')
  end.

Fixpoint utf8DecodeFrom (st : Utf8State) (s : string) : string :=
  match s with
  | EmptyString => match needed st with O => EmptyString | S _ => replacement end
  | String b rest =>
      let '(out, st') := utf8Step st b in out +:+ utf8DecodeFrom st' rest
  end.

Definition utf8Decode (s : string) : string := utf8DecodeFrom utf8Idle s.

Definition decodeComponent (s : string) : string :=
  utf8Decode (percentDecode (plusToSpace s)).

(** Name and value of one [name=value] piece, cut at the first [=]. *)
Fixpoint cutAtEquals (s : string) : string * string :=
  match s with
  | EmptyString => (EmptyString, EmptyString)
  | String c rest =>
      if (c =? "=")%char then (EmptyString, rest)
      else let '(name, value) := cutAtEquals rest in (String c name, value)
  end.

Definition parsePiece (piece : string) : option (string * string) :=
  if truthy piece then
    let '(name, value) := cutAtEquals piece in
    Some (decodeComponent name, decodeComponent value)
  else None.

(** [new URLSearchParams(init)] for a string: one leading [?] is
    dropped, then the [application/x-www-form-urlencoded] parser runs. *)
Definition create (init : string) : list (string * string) :=
  let input := match init with String "?" rest => rest | _ => init end in
  omap parsePiece (split input "&").

(** [params.get(name)]. *)
Definition get (params : list (string * string)) (name : string) : option string :=
  snd <$> List.find (fun p => String.eqb (fst p) name) params.

(** [params.getAll(name)]. *)
Definition getAll (params : list (string * string)) (name : string) : list string :=
  map snd (List.filter (fun p => String.eqb (fst p) name) params).

End URLSearchParams.

Fixpoint takeChars (n : nat) (s : string) : string :=
  match n, s with
  | S n', String c rest => String c (takeChars n' rest)
  | _, _ => EmptyString
  end.

Fixpoint allChars (p : ascii -> bool) (s : string) : bool :=
  match s with
  | EmptyString => true
  | String c rest => p c && allChars p rest
  end.

(** Forty hexadecimal digits at the start of [s]. *)
Definition hex40 (s : string) : option string :=
  let h := takeChars 40 s in
  if (String.length h =? 40)%nat && allChars JS.isHexDigit h then Some h else None.

(** [s.match(/urn:btih:([a-fA-F0-9]{40})/)?.[1]]: the capture of the
    leftmost match. *)
Fixpoint matchBtih (s : string) : option string :=
  match (if JS.startsWith s "urn:btih:" then hex40 (JS.drop 9 s) else None) with
  | Some h => Some h
  | None =>
      match s with
      | String _ rest => matchBtih rest
      | EmptyString => None
      end
  end.

(** [s.indexOf(c)], [-1] when absent. *)
Fixpoint indexOf (s : string) (c : ascii) : Z :=
  match s with
  | EmptyString => (-1)%Z
  | String d rest =>
      if (d =? c)%char then 0%Z
      else let i := indexOf rest c in if (0 <=? i)%Z then (i + 1)%Z else (-1)%Z
  end.

Record ParsedMagnetUri := mkParsedMagnet {
  infoHash : option string;
  sources : list string
}.

Definition parseMagnetUri (magnetUri : option string) : option ParsedMagnetUri :=
  match magnetUri with
  | None => None
  | Some uri =>
      if negb (JS.truthy uri) || negb (JS.startsWith uri "magnet:?") then None
      else
        let params := URLSearchParams.create (substring uri (indexOf uri "?" + 1)) in
        match URLSearchParams.get params "xt" ≫= matchBtih with
        | None => None
        | Some hash =>
            Some (mkParsedMagnet (Some (toLowerCase hash))
                    (List.filter JS.truthy (URLSearchParams.getAll params "tr")))
        end
  end.

(** ** Search results and configuration *)

Module TorrentInfo.
Record t := mk {
  title : string;
  magnetUrl : option string;
  size : option Z;
  resolution : string;
  seeders : Z;
  peers : Z;
  videoCodec : option string;
  videoSource : option string;
  languages : list string;
  files : option (list TorrentFile)
}.
End TorrentInfo.

Record Config := mkConfig {
  bitmagnetUrl : string;
  tmdbApiKey : option string;
  premiumizeApiKey : option string;
  bitmagnetTimeout : Z;
  bitmagnetSortField : string;
  bitmagnetSortDescending : bool;
  bitmagnetSearchLimit : Z
}.

(** An optional string that is present and not empty. *)
Definition present (s : option string) : option string :=
  match s with
  | Some v => if JS.truthy v then Some v else None
  | None => None
  end.

(** [a || b] on strings. *)
Definition orElse (a : option string) (b : string) : string :=
  match present a with Some v => v | None => b end.

Definition pad2 (n : Z) : string := JS.padStart 2 "0" (JS.numberToString n).

(** ** Query builder ([fetchAndSearchTorrents]) *)

Record TmdbDetails := mkTmdb { tmdb_title : string; tmdb_year : option Z }.

Record SearchResult := mkSearchResult {
  torrents : list TorrentInfo.t;
  found_title : option string
}.

(** What an awaited call does: it returns a value or throws. *)
Inductive Outcome (A : Type) : Type :=
| Returns (a : A)
| Throws.
Arguments Returns {A} a.
Arguments Throws {A}.

(** The two services the query builder consults.  [getTmdbDetails] catches
    its own failures and answers [null]; [bitmagnetSearch] may throw, and
    its answer may change from one call (counted from 0) to the next. *)
Record SearchWorld := mkSearchWorld {
  getTmdbDetails : string -> string -> SearchType -> option TmdbDetails;
  bitmagnetSearch : nat -> string -> SearchType -> Outcome (list TorrentInfo.t)
}.

(** A run of the query builder: the queries sent, in order, and how the
    function ends. *)
Record SearchRun := mkSearchRun {
  queries : list string;
  outcome : Outcome (option SearchResult)
}.

(** [`${title}${year ? ` ${year}` : ''}`]. *)
Definition baseQueryOf (title : string) (year : option Z) : string :=
  title +:+ match year with
            | Some y => if (y =? 0)%Z then "" else " " +:+ JS.numberToString y
            | None => ""
            end.

(** The tail of the function, from the last search answer on. *)
Definition finishSearch (searchResults : list TorrentInfo.t) (title : option string)
    : Outcome (option SearchResult) :=
  match searchResults with
  | [] => Returns None
  | _ => Returns (Some (mkSearchResult searchResults title))
  end.

Definition fetchAndSearchTorrents (world : SearchWorld) (parsedId : ParsedId)
    (config : Config) : SearchRun :=
  let details :=
    match present (tmdbApiKey config) with
    | Some key => getTmdbDetails world (imdbId parsedId) key (searchType parsedId)
    | None => None
    end in
  let title := tmdb_title <$> details in
  let year := details ≫= tmdb_year in
  let searchQuery :=
    match details with
    | Some d =>
        let baseQuery := baseQueryOf (tmdb_title d) (tmdb_year d) in
        match isSeries (searchType parsedId), season parsedId, episode parsedId with
        | true, Some s, Some e => baseQuery +:+ " S" +:+ pad2 s +:+ "E" +:+ pad2 e
        | _, _, _ => baseQuery
        end
    | None => imdbId parsedId
    end in
  match bitmagnetSearch world 0 searchQuery (searchType parsedId) with
  | Throws => mkSearchRun [searchQuery] Throws
  | Returns searchResults =>
      match searchResults, isSeries (searchType parsedId), season parsedId, present title with
      | [], true, Some s, Some t =>
          let seasonQuery := baseQueryOf t year +:+ " S" +:+ pad2 s in
          match bitmagnetSearch world 1 seasonQuery (searchType parsedId) with
          | Throws => mkSearchRun [searchQuery; seasonQuery] Throws
          | Returns again => mkSearchRun [searchQuery; seasonQuery] (finishSearch again title)
          end
      | _, _, _, _ => mkSearchRun [searchQuery] (finishSearch searchResults title)
      end
  end.

(** Written from the design document: the episode query has a space
    between the season and the episode marker. *)
Definition specEpisodeQuery (title : string) (year : option Z) (s e : Z) : string :=
  baseQueryOf title year +:+ " S" +:+ pad2 s +:+ " E" +:+ pad2 e.

(** ** Bulk cache status ([checkPremiumizeCacheBulk]) *)

(** A parsed JSON text (numbers restricted to integers). *)
#[local] Set Warnings "-register-all".
Inductive json : Type :=
| JNull
| JBool (b : bool)
| JNumber (n : Z)
| JString (s : string)
| JArray (items : list json)
| JObject (members : list (string * json)).

Definition jsonTruthy (j : json) : bool :=
  match j with
  | JNull => false
  | JBool b => b
  | JNumber n => negb (n =? 0)%Z
  | JString s => JS.truthy s
  | JArray _ | JObject _ => true
  end.

(** The value inside a template literal. *)
Fixpoint jsonToString (j : json) : string :=
  match j with
  | JNull => "null"
  | JBool b => if b then "true" else "false"
  | JNumber n => JS.numberToString n
  | JString s => s
  | JArray items =>
      (fix joinItems (l : list json) : string :=
         match l with
         | [] => ""
         | x :: rest =>
             let text := match x with JNull => "" | _ => jsonToString x end in
             match rest with
             | [] => text
             | _ => text +:+ "," +:+ joinItems rest
             end
         end) items
  | JObject _ => "[object Object]"
  end.

(** [data.name] on a parsed object: [None] is [undefined]. *)
Definition member (members : list (string * json)) (name : string) : option json :=
  snd <$> List.find (fun p => String.eqb (fst p) name) members.

Record PremiumizeCacheStatus := mkStatus {
  isCached : bool;
  filename : json
}.

(** How [response.text()] followed by [JSON.parse] ends. *)
Inductive Body :=
| BodyUnreadable
| BodyNotJson
| BodyJson (data : json).

(** How [fetch(apiUrl)] ends. *)
Inductive FetchOutcome :=
| FetchRejects
| Responds (ok : bool) (body : Body).

Definition notCached : PremiumizeCacheStatus := mkStatus false JNull.

(** One iteration of the loop over the indexes of [infoHashes]. *)
Definition recordStatus (response : list json) (filenames : option json)
    (results : gmap string PremiumizeCacheStatus) (entry : nat * string)
    : gmap string PremiumizeCacheStatus :=
  let '(i, hash) := entry in
  let cached := match response !! i with Some (JBool true) => true | _ => false end in
  let name :=
    match filenames with
    | Some (JArray names) =>
        match names !! i with
        | Some n => if jsonTruthy n then n else JNull
        | None => JNull
        end
    | _ => JNull
    end in
  <[hash := mkStatus cached name]> results.

Definition checkPremiumizeCacheBulk (apiKey : string) (infoHashes : list string)
    (answer : FetchOutcome)
    : gmap string PremiumizeCacheStatus :=
  match infoHashes with
  | [] => ∅
  | _ =>
      let results := foldl (fun r hash => <[hash := notCached]> r) ∅ infoHashes in
      match answer with
      | Responds true (BodyJson (JObject data)) =>
          match member data "status", member data "response" with
          | Some (JString status), Some (JArray response) =>
              if String.eqb status "success" && (length response =? length infoHashes)%nat
              then foldl (recordStatus response (member data "filename")) results
                         (imap pair infoHashes)
              else results
          | _, _ => results
          end
      | _ => results
      end
  end.

(** Written from the design document: the lookup "fails entirely" on a
    network error, a non-success status, or a malformed or mismatched
    body. *)
Inductive lookupFailed (infoHashes : list string) : FetchOutcome -> Prop :=
| network_error : lookupFailed infoHashes FetchRejects
| non_success_status body : lookupFailed infoHashes (Responds false body)
| unreadable_body : lookupFailed infoHashes (Responds true BodyUnreadable)
| malformed_text : lookupFailed infoHashes (Responds true BodyNotJson)
| not_an_object data :
    (forall members, data <> JObject members) ->
    lookupFailed infoHashes (Responds true (BodyJson data))
| status_not_success members :
    member members "status" <> Some (JString "success") ->
    lookupFailed infoHashes (Responds true (BodyJson (JObject members)))
| response_not_an_array members :
    (forall items, member members "response" <> Some (JArray items)) ->
    lookupFailed infoHashes (Responds true (BodyJson (JObject members)))
| response_length_mismatch members items :
    member members "response" = Some (JArray items) ->
    length items <> length infoHashes ->
    lookupFailed infoHashes (Responds true (BodyJson (JObject members))).

(** ** Stream synthesis ([createStreamsFromTorrents]) *)

Module Stream.
(** The fields of the addon SDK's [Stream] that the code sets;
    [bingeGroup] is [behaviorHints.bingeGroup]. *)
Record t := mk {
  name : string;
  title : string;
  url : option string;
  infoHash : option string;
  fileIdx : option Z;
  sources : option (list string);
  bingeGroup : option string
}.
End Stream.

#[global] Instance TorrentFile_eq_dec : EqDecision TorrentFile.
Proof. solve_decision. Defined.

#[global] Instance TorrentInfo_eq_dec : EqDecision TorrentInfo.t.
Proof. solve_decision. Defined.

#[global] Instance Stream_eq_dec : EqDecision Stream.t.
Proof. solve_decision. Defined.

(** What awaiting [getPremiumizeDirectDownloadLink] gives: the link (or
    [null]) and the instant at which the answer arrives. *)
Record DirectAnswer := mkAnswer {
  link : option string;
  arrival : nat
}.

(** The services stream synthesis consults: the memoised tracker list, the
    end of the cache-check request for a given key and list of hashes, and
    the direct-link service, asked for the k-th candidate with a key, a
    magnet link and a search hint. *)
Record StreamWorld := mkStreamWorld {
  getTrackers : list string;
  cacheCheck : string -> list string -> FetchOutcome;
  directDownload : nat -> string -> string -> string -> DirectAnswer
}.

(** [getPremiumizeDirectDownloadLink]: nothing is requested without a key;
    the request and the choice of a file in its answer are the service's. *)
Definition getPremiumizeDirectDownloadLink (world : StreamWorld) (k : nat)
    (apiKey : option string) (magnetUrl searchQuery : string) : DirectAnswer :=
  match present apiKey with
  | None => mkAnswer None 0
  | Some key => directDownload world k key magnetUrl searchQuery
  end.

(** [torrentUtils.parseMagnetUri(torrent.magnetUrl)?.infoHash]. *)
Definition infoHashOf (torrent : TorrentInfo.t) : option string :=
  parseMagnetUri (TorrentInfo.magnetUrl torrent) ≫= infoHash.

(** [array.filter(Boolean).join(sep)] on optional strings. *)
Definition joinPresent (sep : string) (parts : list (option string)) : string :=
  String.concat sep (omap present parts).

Definition withLabel (label : string) (value : option string) : option string :=
  (fun v => label +:+ v) <$> present value.

Definition languagesPart (languages : list string) : option string :=
  match languages with
  | [] => None
  | _ => Some ("🗣️ " +:+ String.concat ", " languages)
  end.

Section Synthesis.

Variable mathFloorLog : Z -> Z.

(** The details line; [second] is the seeders field of a torrent stream
    and the Premiumize mark of a direct one. *)
Definition detailsOf (torrent : TorrentInfo.t) (second : string) : string :=
  joinPresent " | "
    [ Some ("💾 " +:+ formatBytes mathFloorLog (default 0%Z (TorrentInfo.size torrent)));
      Some second;
      Some ("📺 " +:+ orElse (Some (TorrentInfo.resolution torrent)) "N/A");
      withLabel "🎬 " (TorrentInfo.videoCodec torrent);
      withLabel "💿 " (TorrentInfo.videoSource torrent);
      languagesPart (TorrentInfo.languages torrent) ].

(** [processPremiumizeCandidate] for the k-th candidate: the instant at
    which its promise settles (0 when nothing is awaited) and its value. *)
Definition processPremiumizeCandidate (world : StreamWorld) (k : nat) (config : Config)
    (torrent : TorrentInfo.t) (cacheStatus : PremiumizeCacheStatus)
    (parsedId : ParsedId) (tmdbTitle : option string) : nat * option Stream.t :=
  match present (infoHashOf torrent), present (TorrentInfo.magnetUrl torrent) with
  | Some hash, Some magnetUrl =>
      let localSearchQuery :=
        orElse tmdbTitle (TorrentInfo.title torrent)
        +:+ match isSeries (searchType parsedId), season parsedId, episode parsedId with
            | true, Some s, Some e => " S" +:+ pad2 s +:+ "E" +:+ pad2 e
            | _, _, _ => ""
            end in
      let answer :=
        getPremiumizeDirectDownloadLink world k (premiumizeApiKey config)
          magnetUrl localSearchQuery in
      (S (arrival answer),
       match present (link answer) with
       | Some directLink =>
           Some (Stream.mk "[PM] FW Bitmagnet"
                   (jsonToString (filename cacheStatus) +:+ String "010" ""
                    +:+ detailsOf torrent "⚡ Premiumize")
                   (Some directLink) None None None
                   (Some ("premiumize-" +:+ hash)))
       | None => None
       end)
  | _, _ => (0%nat, None)
  end.

(** An insertion-ordered [Set] of strings. *)
Definition setAdd (s : list string) (x : string) : list string :=
  if bool_decide (x ∈ s) then s else (s ++ [x])%list.

Definition newSet (items : list string) : list string := foldl setAdd [] items.

(** The body of [fallbackTorrents.map(...)]. *)
Definition fallbackStream (world : StreamWorld) (parsedId : ParsedId)
    (torrent : TorrentInfo.t) : option Stream.t :=
  let parsed :=
    match present (TorrentInfo.magnetUrl torrent) with
    | Some magnetUrl => Some (parseMagnetUri (Some magnetUrl))
    | None => None
    end in
  match parsed with
  | Some None => None
  | _ =>
      let parsedMagnet := parsed ≫= id in
      let hash := parsedMagnet ≫= infoHash in
      if negb (JS.truthy (TorrentInfo.title torrent)) && negb (bool_decide (is_Some (present hash)))
      then None
      else
        let fileIndex :=
          findBestFileIndex (TorrentInfo.files torrent) (season parsedId) (episode parsedId) in
        let details :=
          detailsOf torrent ("👤 " +:+ JS.numberToString (TorrentInfo.seeders torrent)) in
        let streamTitle :=
          orElse (Some (TorrentInfo.title torrent)) (default "undefined" hash)
          +:+ String "010" "" +:+ details in
        let existingTrackers :=
          map (fun s => "tracker:" +:+ s) (default [] (sources <$> parsedMagnet)) in
        let fetchedTrackers := map (fun t => "tracker:" +:+ t) (getTrackers world) in
        let allTrackers := newSet (existingTrackers ++ fetchedTrackers)%list in
        Some (Stream.mk "[TORRENT] FW Bitmagnet" streamTitle None (present hash) fileIndex
                (match allTrackers with [] => None | _ => Some allTrackers end)
                None)
  end.

(** An insertion-ordered [Map]: [set] overwrites the value of a key that
    is present and appends a new key at the end. *)
Fixpoint mapSet {K V : Type} `{EqDecision K} (m : list (K * V)) (k : K) (v : V)
    : list (K * V) :=
  match m with
  | [] => [(k, v)]
  | (k', v') :: m' =>
      if decide (k = k') then (k, v) :: m' else (k', v') :: mapSet m' k v
  end.

Definition newMap {K V : Type} `{EqDecision K} (entries : list (K * V)) : list (K * V) :=
  foldl (fun m e => mapSet m (fst e) (snd e)) [] entries.

(** [[...new Map(streams.map(s => [s.infoHash, s])).values()]]. *)
Definition uniqueByInfoHash (streams : list Stream.t) : list Stream.t :=
  map snd (newMap (map (fun s => (Stream.infoHash s, s)) streams)).

(** The predicate of the final [filter]. *)
Definition keepStream (stream : Stream.t) : bool :=
  bool_decide (is_Some (present (Stream.url stream)))
  || (String.eqb (Stream.name stream) "[TORRENT] FW Bitmagnet"
      && bool_decide (is_Some (present (Stream.infoHash stream)))
      && JS.truthy (Stream.title stream)).

(** The cache-status map the function works with. *)
Definition premiumizeResults (world : StreamWorld) (config : Config)
    (searchResults : list TorrentInfo.t) : gmap string PremiumizeCacheStatus :=
  match present (premiumizeApiKey config) with
  | Some key =>
      let infoHashesToCheck := omap (fun t => present (infoHashOf t)) searchResults in
      match infoHashesToCheck with
      | [] => ∅
      | _ =>
          checkPremiumizeCacheBulk key infoHashesToCheck
            (cacheCheck world key infoHashesToCheck)
      end
  | None => ∅
  end.

Record Partition := mkPartition {
  premiumizeCandidates : list (TorrentInfo.t * PremiumizeCacheStatus);
  fallbackTorrents : list TorrentInfo.t
}.

(** One iteration of [for (const torrent of searchResults)]. *)
Definition classify (config : Config) (results : gmap string PremiumizeCacheStatus)
    (p : Partition) (torrent : TorrentInfo.t) : Partition :=
  match present (premiumizeApiKey config), present (infoHashOf torrent) with
  | Some _, Some hash =>
      match results !! hash with
      | Some cacheStatus =>
          if isCached cacheStatus && jsonTruthy (filename cacheStatus)
          then mkPartition (premiumizeCandidates p ++ [(torrent, cacheStatus)])%list
                           (fallbackTorrents p)
          else mkPartition (premiumizeCandidates p) (fallbackTorrents p ++ [torrent])%list
      | None => mkPartition (premiumizeCandidates p) (fallbackTorrents p ++ [torrent])%list
      end
  | _, _ => mkPartition (premiumizeCandidates p) (fallbackTorrents p ++ [torrent])%list
  end.

Definition partitionTorrents (config : Config) (results : gmap string PremiumizeCacheStatus)
    (searchResults : list TorrentInfo.t) : Partition :=
  foldl (classify config results) (mkPartition [] []) searchResults.

(** Stable insertion by instant: the continuations of promises that
    settle at the same instant run in the order the promises were made. *)
Fixpoint insertByArrival {A : Type} (x : nat * A) (l : list (nat * A)) : list (nat * A) :=
  match l with
  | [] => [x]
  | y :: l' => if (fst x <=? fst y)%nat then x :: y :: l' else y :: insertByArrival x l'
  end.

Definition inArrivalOrder {A : Type} (l : list (nat * A)) : list (nat * A) :=
  foldr insertByArrival [] l.

(** Every stage of the function, so that statements can name them. *)
Record Synthesis := mkSynthesis {
  partition : Partition;
  premiumizeStreams : list Stream.t;
  allFallbackTorrents : list TorrentInfo.t;
  fallbackStreams : list Stream.t;
  uniqueFallbackStreams : list Stream.t;
  allStreams : list Stream.t
}.

Definition synthesize (world : StreamWorld) (searchResults : list TorrentInfo.t)
    (parsedId : ParsedId) (tmdbTitle : option string) (config : Config) : Synthesis :=
  let results := premiumizeResults world config searchResults in
  let parts := partitionTorrents config results searchResults in
  (* the promises, in the order of the candidates *)
  let settled :=
    imap (fun k c =>
            let r := processPremiumizeCandidate world k config (fst c) (snd c)
                       parsedId tmdbTitle in
            (fst r, (fst c, snd r)))
         (premiumizeCandidates parts) in
  (* each continuation pushes its torrent when it got no stream *)
  let pushed :=
    omap (fun r => match snd (snd r) with
                   | None => Some (fst (snd r))
                   | Some _ => None
                   end)
         (inArrivalOrder settled) in
  let fallback := (fallbackTorrents parts ++ pushed)%list in
  (* Promise.all keeps the order of the promises *)
  let direct := omap (fun r => snd (snd r)) settled in
  let built := omap (fallbackStream world parsedId) fallback in
  let unique := uniqueByInfoHash built in
  mkSynthesis parts direct fallback built unique (direct ++ unique)%list.

Definition createStreamsFromTorrents (world : StreamWorld)
    (searchResults : list TorrentInfo.t) (parsedId : ParsedId)
    (tmdbTitle : option string) (config : Config) : list Stream.t :=
  List.filter keepStream (allStreams (synthesize world searchResults parsedId tmdbTitle config)).

End Synthesis.

(** Written from the design document: deduplication that keeps the first
    stream of every info hash and discards the later ones. *)
Fixpoint keepFirstByInfoHash (seen : list (option string)) (streams : list Stream.t)
    : list Stream.t :=
  match streams with
  | [] => []
  | s :: rest =>
      if bool_decide (Stream.infoHash s ∈ seen) then keepFirstByInfoHash seen rest
      else s :: keepFirstByInfoHash (Stream.infoHash s :: seen) rest
  end.


(** Written from the design document: a magnet link built from an info
    hash and trackers, each tracker in a [tr] parameter of its own. *)
Definition buildMagnetUri (hash : string) (trackers : list string) : string :=
  "magnet:?xt=urn:btih:" +:+ hash
  +:+ foldr (fun t rest => "&tr=" +:+ t +:+ rest) "" trackers.

(** A tracker that can stand in a link as it is: none of the characters
    [&], [+] and [%], which the query syntax reserves, and well-formed
    UTF-8. *)
Definition unreserved (c : ascii) : bool :=
  negb ((c =? "&") || (c =? "+") || (c =? "%"))%char.

Definition plainComponent (s : string) : Prop :=
  allChars unreserved s = true /\ URLSearchParams.utf8Decode s = s.

(** The xt value holds [urn:btih:] followed by forty hexadecimal digits. *)
Definition holdsBtih (xt h : string) : Prop :=
  exists pre post,
    xt = pre +:+ "urn:btih:" +:+ h +:+ post /\
    String.length h = 40%nat /\ allChars JS.isHexDigit h = true.

(** [h] is what the pattern captures at the leftmost place of the xt
    value where [urn:btih:] is followed by forty hexadecimal digits: no such
    place begins earlier. *)
Definition leftmostBtih (xt h : string) : Prop :=
  exists pre post,
    xt = pre +:+ "urn:btih:" +:+ h +:+ post /\
    String.length h = 40%nat /\ allChars JS.isHexDigit h = true /\
    forall pre' h' post',
      xt = pre' +:+ "urn:btih:" +:+ h' +:+ post' ->
      String.length h' = 40%nat -> allChars JS.isHexDigit h' = true ->
      (String.length pre <= String.length pre')%nat.

Definition isAscii (c : ascii) : bool := (JS.code c <=? 127)%N.

Definition noAmpersand (s : string) : bool := allChars (fun c => negb (c =? "&")%char) s.

(** The keys of a list in the order of their first occurrence. *)
Fixpoint firstOccurrencesFrom {K : Type} `{EqDecision K} (seen l : list K) : list K :=
  match l with
  | [] => []
  | x :: rest =>
      if bool_decide (x ∈ seen) then firstOccurrencesFrom seen rest
      else x :: firstOccurrencesFrom (x :: seen) rest
  end.

Definition firstOccurrences {K : Type} `{EqDecision K} (l : list K) : list K :=
  firstOccurrencesFrom [] l.

(** [v] is the value of the last entry of [entries] with the key [k]. *)
Definition lastEntry {K V : Type} (entries : list (K * V)) (k : K) (v : V) : Prop :=
  exists before after,
    entries = (before ++ (k, v) :: after)%list /\ k ∉ map fst after.

(** Sample data for the scenarios. *)
Definition sampleHash1 : string := "0123456789abcdef0123456789abcdef01234567".
Definition sampleHash2 : string := "aaaaaaaaaaaaaaaaaaaaaaaaaaaaaaaaaaaaaaaa".
Definition sampleHash3 : string := "bbbbbbbbbbbbbbbbbbbbbbbbbbbbbbbbbbbbbbbb".

Definition sampleTorrent (title hash : string) : TorrentInfo.t :=
  TorrentInfo.mk title (Some ("magnet:?xt=urn:btih:" +:+ hash)) (Some 1536%Z) "1080p"
    10 2 None None [] None.

Definition sampleConfig (tmdbKey premiumizeKey : option string) : Config :=
  mkConfig "http://bitmagnet" tmdbKey premiumizeKey 0 "seeders" true 20.

Definition movieRequest : ParsedId := mkParsedId "tt0111161" None None movie.

Definition episodeRequest : ParsedId := mkParsedId "tt0111161" (Some 1%Z) (Some 5%Z) series.

(** A world in which the cache check meets a network error and no direct
    link is ever given. *)
Definition offlineWorld : StreamWorld :=
  mkStreamWorld [] (fun _ _ => FetchRejects) (fun _ _ _ _ => mkAnswer None 0).

(** Title X of 2020; nothing for the episode query, one candidate, named
    after the query, for any later one. *)
Definition seasonOnlyWorld : SearchWorld :=
  mkSearchWorld (fun _ _ _ => Some (mkTmdb "X" (Some 2020%Z)))
    (fun k q _ => match k with
                  | O => Returns []
                  | S _ => Returns [sampleTorrent q sampleHash1]
                  end).

Definition emptyWorld : SearchWorld :=
  mkSearchWorld (fun _ _ _ => Some (mkTmdb "X" (Some 2020%Z))) (fun _ _ _ => Returns []).

(** The map prepared before the request: every hash not cached. *)
Definition allNotCached (infoHashes : list string) : gmap string PremiumizeCacheStatus :=
  foldl (fun r hash => <[hash := notCached]> r) ∅ infoHashes.


(** Two search results with the same info hash around a third one, and
    two of them alone; no debrid key. *)
Definition repeatedHashRun : Synthesis :=
  synthesize exactFloorLog offlineWorld
    [sampleTorrent "first" sampleHash1; sampleTorrent "other" sampleHash2;
     sampleTorrent "second" sampleHash1]
    movieRequest None (sampleConfig None None).

Definition twinRun : Synthesis :=
  synthesize exactFloorLog offlineWorld
    [sampleTorrent "first" sampleHash1; sampleTorrent "second" sampleHash1]
    movieRequest None (sampleConfig None None).

(** The torrent stream the code builds for a sample torrent. *)
Definition sampleStream (title hash : string) : Stream.t :=
  Stream.mk "[TORRENT] FW Bitmagnet"
    (title +:+ String "010" "" +:+ "💾 1.5 KB | 👤 10 | 📺 1080p")
    None (Some hash) None None None.

Definition hasInfoHash (h : string) (s : Stream.t) : bool :=
  bool_decide (Stream.infoHash s = Some h).

Definition infoHashEntries (streams : list Stream.t) : list (option string * Stream.t) :=
  map (fun s => (Stream.infoHash s, s)) streams.

(** ** Further definitions for the properties of the surrounding code *)

(** A string without the character [c]. *)
Definition noChar (c : ascii) (s : string) : bool :=
  allChars (fun x => negb (x =? c)%char) s.

(** The integers of which [parseInt] and [String] treat the double as
    the integer itself: those of magnitude below 2^53, which a double holds
    exactly and [String] writes as plain decimals. *)
Definition safeInteger (n : Z) : bool := (Z.abs n <? 2 ^ 53)%Z.

(** The characters [String(n)] is made of. *)
Definition isNumberChar (c : ascii) : bool := JS.isDigit c || (c =? "-")%char.

(** A lower-case hexadecimal digit. *)
Definition isLowerHexDigit (c : ascii) : bool := JS.isDigit c || JS.inRange 97 102 c.

(** ** Stages of stream synthesis, named *)

(** The promises of the candidates and what their continuations push. *)
Definition settledOf (mathFloorLog : Z -> Z) (world : StreamWorld) (config : Config)
    (parsedId : ParsedId) (tmdbTitle : option string)
    (candidates : list (TorrentInfo.t * PremiumizeCacheStatus))
    : list (nat * (TorrentInfo.t * option Stream.t)) :=
  imap (fun k c =>
          (fst (processPremiumizeCandidate mathFloorLog world k config (fst c) (snd c)
                  parsedId tmdbTitle),
           (fst c,
            snd (processPremiumizeCandidate mathFloorLog world k config (fst c) (snd c)
                   parsedId tmdbTitle))))
       candidates.

(** What the continuation of a settled promise pushes on the fallback list. *)
Definition pushedTorrent (r : nat * (TorrentInfo.t * option Stream.t))
    : option TorrentInfo.t :=
  match snd (snd r) with
  | None => Some (fst (snd r))
  | Some _ => None
  end.

(** ** Escaping for the configuration page ([escapeHtml], [escapeJsString]) *)

(** [s.replace(/c/g, by)] for a pattern that is the single character [c]
    (none of the replacement texts below holds a [$]). *)
Fixpoint replaceAll (c : ascii) (replacement s : string) : string :=
  match s with
  | EmptyString => EmptyString
  | String x rest =>
      (if (x =? c)%char then replacement else String x EmptyString)
      +:+ replaceAll c replacement rest
  end.

(** The double quote and the backslash, by code. *)
Definition doubleQuote : ascii := "034"%char.
Definition backslash : ascii := "092"%char.
Definition lineFeed : ascii := "010"%char.
Definition carriageReturn : ascii := "013"%char.

Definition escapeHtml (unsafe : string) : string :=
  replaceAll "'" "&#039;"
    (replaceAll doubleQuote "&quot;"
       (replaceAll ">" "&gt;"
          (replaceAll "<" "&lt;"
             (replaceAll "&" "&amp;" unsafe)))).

Definition escapeJsString (unsafe : string) : string :=
  replaceAll carriageReturn (String backslash "r")
    (replaceAll lineFeed (String backslash "n")
       (replaceAll doubleQuote (String backslash (String doubleQuote ""))
          (replaceAll "'" (String backslash "'")
             (replaceAll backslash (String backslash (String backslash "")) unsafe)))).

(** One pass over the characters, each replaced by a text. *)
Fixpoint mapChars (f : ascii -> string) (s : string) : string :=
  match s with
  | EmptyString => EmptyString
  | String x rest => f x +:+ mapChars f rest
  end.

(** What the five passes of [escapeHtml] make of one character. *)
Definition htmlEntity (c : ascii) : string :=
  if (c =? "&")%char then "&amp;"
  else if (c =? "<")%char then "&lt;"
  else if (c =? ">")%char then "&gt;"
  else if (c =? doubleQuote)%char then "&quot;"
  else if (c =? "'")%char then "&#039;"
  else String c EmptyString.

(** What the five passes of [escapeJsString] make of one character. *)
Definition jsEscape (c : ascii) : string :=
  if (c =? backslash)%char then String backslash (String backslash "")
  else if (c =? "'")%char then String backslash "'"
  else if (c =? doubleQuote)%char then String backslash (String doubleQuote "")
  else if (c =? lineFeed)%char then String backslash "n"
  else if (c =? carriageReturn)%char then String backslash "r"
  else String c EmptyString.

(** ** Backend search ([parseGraphQLResults], [bitmagnetSearch]) *)

(** The answer of the GraphQL backend, as its interfaces declare it; an
    absent or [null] member is [None]. *)
Module GraphQL.
Record File := mkFile {
  path : string;
  fileSize : Z;
  index : Z;
  fileTypename : option string
}.

Record Torrent := mkTorrent {
  magnetUri : option string;
  size : option Z;
  seeders : option Z;
  leechers : option Z;
  files : option (list File)
}.

Record Language := mkLanguage { name : string; languageTypename : option string }.

Record Item := mkItem {
  title : string;
  torrent : option Torrent;
  videoResolution : option string;
  videoCodec : option string;
  videoSource : option string;
  languages : option (list Language)
}.

Record Search := mkSearch { items : option (list Item) }.
Record TorrentContent := mkTorrentContent { search : option Search }.
Record Data := mkData { torrentContent : option TorrentContent }.

(** [errors] holds the messages. *)
Record Response := mkResponse {
  data : option Data;
  errors : option (list string)
}.
End GraphQL.

(** [data?.data?.torrentContent?.search?.items || []]. *)
Definition itemsOf (data : option GraphQL.Response) : list GraphQL.Item :=
  default []
    ((((data ≫= GraphQL.data) ≫= GraphQL.torrentContent) ≫= GraphQL.search)
     ≫= GraphQL.items).

(** [item.torrent?.seeders ?? 0]. *)
Definition seedersOf (item : GraphQL.Item) : Z :=
  default 0%Z (GraphQL.torrent item ≫= GraphQL.seeders).

(** [s.replace(/^V/, '')]. *)
Definition stripLeadingV (s : string) : string :=
  match s with
  | String "V" rest => rest
  | _ => s
  end.

(** The body of [.map((item): TorrentInfo => ...)]; it runs on items that
    passed the filter, whose seeders are a number. *)
Definition toTorrentInfo (item : GraphQL.Item) : TorrentInfo.t :=
  TorrentInfo.mk
    (GraphQL.title item)
    (GraphQL.torrent item ≫= GraphQL.magnetUri)
    (GraphQL.torrent item ≫= GraphQL.size)
    (match present (GraphQL.videoResolution item) with
     | Some v => stripLeadingV v
     | None => "Unknown"
     end)
    (seedersOf item)
    (default 0%Z (GraphQL.torrent item ≫= GraphQL.leechers))
    (GraphQL.videoCodec item)
    (GraphQL.videoSource item)
    (default [] (map GraphQL.name <$> GraphQL.languages item))
    (map (fun f => mkFile (GraphQL.path f) (GraphQL.fileSize f) (GraphQL.index f))
       <$> (GraphQL.torrent item ≫= GraphQL.files)).

Definition hasSeeders (item : GraphQL.Item) : bool := (0 <? seedersOf item)%Z.

Definition parseGraphQLResults (data : option GraphQL.Response) : list TorrentInfo.t :=
  map toTorrentInfo (List.filter hasSeeders (itemsOf data)).

(** [enum TorrentContentOrderBy]. *)
Definition torrentContentOrderBy : list string :=
  ["Relevance"; "PublishedAt"; "UpdatedAt"; "Size"; "Files"; "Seeders"; "Leechers";
   "Name"; "InfoHash"].

(** [validTypes]. *)
Definition contentTypeOf (type : SearchType) : string :=
  match type with
  | movie => "movie"
  | series => "tv_show"
  end.

(** The [input] variable of the search query. *)
Record SearchInput := mkSearchInput {
  queryString : string;
  limit : Z;
  offset : Z;
  cached : bool;
  contentTypeFilter : list string;
  orderBy : list (string * bool)
}.

Definition searchInput (query : string) (type : SearchType) (config : Config) : SearchInput :=
  let sortFieldInput := orElse (Some (bitmagnetSortField config)) "Seeders" in
  let sortField :=
    if bool_decide (sortFieldInput ∈ torrentContentOrderBy) then sortFieldInput
    else "Seeders" in
  mkSearchInput query (bitmagnetSearchLimit config) 0 true [contentTypeOf type]
    [(sortField, bitmagnetSortDescending config)].

(** How the request ends: the fetch rejects or loses against the timer,
    or a response comes with its [ok] flag and its body, [None] when the body
    is not JSON or is [null]. *)
Inductive GraphQLFetch :=
| GraphQLFails
| GraphQLResponds (ok : bool) (body : option GraphQL.Response).

(** [_bitmagnetSearch] from the answer on; every error is thrown again. *)
Definition bitmagnetSearchFrom (config : Config) (answer : GraphQLFetch)
    : Outcome (list TorrentInfo.t) :=
  if negb (JS.truthy (bitmagnetUrl config)) then Throws
  else
    match answer with
    | GraphQLFails => Throws
    | GraphQLResponds false _ => Throws
    | GraphQLResponds true None => Throws
    | GraphQLResponds true (Some responseData) =>
        match GraphQL.errors responseData with
        | Some (_ :: _) => Throws
        | _ => Returns (parseGraphQLResults (Some responseData))
        end
    end.

(** The search service of the query builder, made of a title service and
    a GraphQL backend that answers the k-th request. *)
Definition backendWorld (tmdb : string -> string -> SearchType -> option TmdbDetails)
    (backend : nat -> SearchInput -> GraphQLFetch) (config : Config) : SearchWorld :=
  mkSearchWorld tmdb
    (fun k query type => bitmagnetSearchFrom config (backend k (searchInput query type config))).

(** ** Tracker list ([fetchAndCacheTrackers], [getTrackers]) *)

(** Whether [s] is white space only, [skip] bytes of a character being
    still to pass. *)
Fixpoint allWhiteSpaceFrom (skip : nat) (s : string) : bool :=
  match s with
  | EmptyString => match skip with O => true | S _ => false end
  | String _ rest =>
      match skip with
      | S k => allWhiteSpaceFrom k rest
      | O =>
          match JS.whiteSpaceLen s with
          | Some (S k) => allWhiteSpaceFrom k rest
          | _ => false
          end
      end
  end.

Definition allWhiteSpace (s : string) : bool := allWhiteSpaceFrom 0 s.

(** [s.trimEnd()]: what stands before the longest trailing run of white
    space. *)
Fixpoint trimEnd (s : string) : string :=
  match s with
  | EmptyString => EmptyString
  | String c rest => if allWhiteSpace s then EmptyString else String c (trimEnd rest)
  end.

(** [s.trim()]. *)
Definition trim (s : string) : string := trimEnd (JS.trimStart s).

(** The predicate of the filter on the lines of the list. *)
Definition isTrackerLine (line : string) : bool :=
  negb (String.length line =? 0)%nat
  && (JS.startsWith line "udp://" || JS.startsWith line "http://"
      || JS.startsWith line "https://").

(** [text.split('\n').map(line => line.trim()).filter(...)]. *)
Definition parseTrackerList (text : string) : list string :=
  List.filter isTrackerLine (map trim (JS.split text lineFeed)).

Module Trackers.

(** How the request for the list ends: it fails (the fetch rejects, the
    response is not ok, or its text cannot be read), or gives a text. *)
Inductive Fetched :=
| Fails
| Text (text : string).

(** The module's variables; promises are numbered in the order of their
    creation, [promises] counting those made so far. *)
Record State := mkState {
  cachedTrackers : option (list string);
  isFetching : bool;
  fetchPromise : option nat;
  promises : nat
}.

(** The state when the module is loaded. *)
Definition initial : State := mkState None false None 0.

(** What a call returns: the promise of a fetch, or a promise already
    resolved with the cached list. *)
Inductive Returned :=
| FetchPromise (promise : nat)
| Resolved (trackers : list string).

(** [fetchAndCacheTrackers()], up to the point where it returns; a new
    fetch sets the two flags and makes a promise. *)
Definition fetchAndCacheTrackers (st : State) : State * Returned :=
  match isFetching st, fetchPromise st with
  | true, Some promise => (st, FetchPromise promise)
  | _, _ =>
      match cachedTrackers st with
      | Some trackers => (st, Resolved trackers)
      | None =>
          (mkState None true (Some (promises st)) (S (promises st)),
           FetchPromise (promises st))
      end
  end.

(** What the promise of a fetch resolves to. *)
Definition fetchedTrackers (answer : Fetched) : option (list string) :=
  match answer with
  | Fails => None
  | Text text =>
      match parseTrackerList text with
      | [] => None
      | trackers => Some trackers
      end
  end.

(** The end of the fetch in flight: the list is cached when there is one,
    and [finally] lowers the flag. *)
Definition settle (st : State) (answer : Fetched) : State :=
  mkState
    (match fetchedTrackers answer with
     | Some trackers => Some trackers
     | None => cachedTrackers st
     end)
    false (fetchPromise st) (promises st).

(** What happens to the module: a call, or the end of the fetch in
    flight (which can only happen while one is in flight). *)
Inductive Event :=
| Call
| Settles (answer : Fetched).

Definition step (st : State) (e : Event) : State :=
  match e with
  | Call => fst (fetchAndCacheTrackers st)
  | Settles answer => if isFetching st then settle st answer else st
  end.

Definition run (events : list Event) : State := foldl step initial events.

(** The number of fetches that ended in a run. *)
Fixpoint settled (st : State) (events : list Event) : nat :=
  match events with
  | [] => O
  | e :: rest =>
      (match e with
       | Settles _ => if isFetching st then 1 else 0
       | Call => 0
       end + settled (step st e) rest)%nat
  end.

(** [getTrackers()] once the promise it awaits has resolved to [value]. *)
Definition getTrackers (value : option (list string)) : list string := default [] value.

End Trackers.

(** ** Direct link ([getPremiumizeDirectDownloadLink]) *)

Module DirectLink.
Import JS.

(** An entry of [data.content], with the members the code reads. *)
Record ContentItem := mkItem {
  path : option string;
  stream_link : option string;
  size : option Z
}.

(** How the request ends: it fails (the fetch rejects, or the body is not
    a JSON object), or gives [data], of which the code reads whether
    [data.status === 'success'] and [data.content] when it is an array. *)
Inductive Fetched :=
| Fails
| Data (success : bool) (content : option (list ContentItem)).

(** [\d{1,2}E] with the flag [i] at the start of [s]: the digits and what
    follows the letter.  Two digits are tried first; one digit is all that is
    left to try when the second character is not a digit. *)
Definition digitsThenE (s : string) : option (string * string) :=
  match s with
  | String d1 (String d2 rest) =>
      if isDigit d1 && isDigit d2 then
        match rest with
        | String l rest' =>
            if (upperChar l =? "E")%char then Some (String d1 (String d2 ""), rest')
            else None
        | EmptyString => None
        end
      else if isDigit d1 && (upperChar d2 =? "E")%char then Some (String d1 "", rest)
      else None
  | _ => None
  end.

(** [\d{1,2}] at the start of [s], as many digits as there are. *)
Definition digits12 (s : string) : option string :=
  match s with
  | String d1 rest =>
      if isDigit d1 then
        match rest with
        | String d2 _ => if isDigit d2 then Some (String d1 (String d2 "")) else Some (String d1 "")
        | EmptyString => Some (String d1 "")
        end
      else None
  | EmptyString => None
  end.

(** [/S(\d{1,2})E(\d{1,2})/i] matched exactly here: the two groups. *)
Definition seasonEpisodeHere (s : string) : option (string * string) :=
  match s with
  | String c rest =>
      if (upperChar c =? "S")%char then
        match digitsThenE rest with
        | Some (seasonDigits, afterE) =>
            match digits12 afterE with
            | Some episodeDigits => Some (seasonDigits, episodeDigits)
            | None => None
            end
        | None => None
        end
      else None
  | EmptyString => None
  end.

(** [searchQuery.match(/S(\d{1,2})E(\d{1,2})/i)]: the leftmost match. *)
Fixpoint seasonEpisodeMatch (s : string) : option (string * string) :=
  match seasonEpisodeHere s with
  | Some groups => Some groups
  | None =>
      match s with
      | String _ rest => seasonEpisodeMatch rest
      | EmptyString => None
      end
  end.

(** [literal] somewhere in [s], letters compared without case. *)
Fixpoint occurs (literal s : string) : bool :=
  bool_decide (is_Some (JSRegExp.matchLiteral literal None s))
  || match s with
     | String _ rest => occurs literal rest
     | EmptyString => false
     end.

(** The texts [S(0?n)E(0?m)] and [nx(0?m)] stand for, [n] and [m] being
    the decimal texts of two numbers. *)
Definition episodeLiterals (seasonNum episodeNum : Z) : list string :=
  let n := numberToString seasonNum in
  let m := numberToString episodeNum in
  [ "S0" +:+ n +:+ "E0" +:+ m; "S0" +:+ n +:+ "E" +:+ m;
    "S" +:+ n +:+ "E0" +:+ m; "S" +:+ n +:+ "E" +:+ m;
    n +:+ "x0" +:+ m; n +:+ "x" +:+ m ].

(** [episodePattern.test(path) || episodePatternAlt.test(path)]. *)
Definition episodeTest (seasonNum episodeNum : Z) (path : string) : bool :=
  existsb (fun literal => occurs literal path) (episodeLiterals seasonNum episodeNum).

(** The numbers read from the query, when it names an episode. *)
Definition episodeOf (searchQuery : option string) : option (Z * Z) :=
  match present searchQuery with
  | Some query =>
      match seasonEpisodeMatch query with
      | Some (seasonDigits, episodeDigits) =>
          match parseInt seasonDigits, parseInt episodeDigits with
          | Some seasonNum, Some episodeNum => Some (seasonNum, episodeNum)
          | _, _ => None
          end
      | None => None
      end
  | None => None
  end.

Definition hasLink (item : ContentItem) : bool :=
  bool_decide (is_Some (present (stream_link item))).

(** The condition of the loop over the content. *)
Definition isEpisodeItem (seasonNum episodeNum : Z) (item : ContentItem) : bool :=
  hasLink item
  && match present (path item) with
     | Some p => episodeTest seasonNum episodeNum p
     | None => false
     end.

(** [item.size || 0]. *)
Definition sizeOf (item : ContentItem) : Z := default 0%Z (size item).

(** [sort((a, b) => (b.size || 0) - (a.size || 0))]: a stable sort, larger
    sizes first. *)
Fixpoint insertBySize (x : ContentItem) (l : list ContentItem) : list ContentItem :=
  match l with
  | [] => [x]
  | y :: l' => if (sizeOf y <=? sizeOf x)%Z then x :: y :: l' else y :: insertBySize x l'
  end.

Definition sortBySize (l : list ContentItem) : list ContentItem := foldr insertBySize [] l.

(** The choice of an entry among a non-empty content. *)
Definition bestMatch (searchQuery : option string) (content : list ContentItem)
    : option ContentItem :=
  let specific :=
    match episodeOf searchQuery with
    | Some (seasonNum, episodeNum) =>
        List.find (isEpisodeItem seasonNum episodeNum) content
    | None => None
    end in
  match specific with
  | Some item => Some item
  | None => head (sortBySize (List.filter hasLink content))
  end.

(** [getPremiumizeDirectDownloadLink] from the answer of the service on. *)
Definition directLink (apiKey : option string) (searchQuery : option string)
    (answer : Fetched) : option string :=
  match present apiKey with
  | None => None
  | Some _ =>
      match answer with
      | Data true (Some (item :: items)) =>
          bestMatch searchQuery (item :: items) ≫= (fun best => present (stream_link best))
      | _ => None
      end
  end.

End DirectLink.

(** ** Stream requests ([handleStreamRequest]) *)

Module StreamHandler.

(** A part of a key of the key-value store: a string or a number.  The
    store orders and compares number parts as doubles: [KNumber n] is the
    double of the integer [n], exact for the safe integers; of the two zeros
    of a double, which the store tells apart, it is the positive one. *)
Inductive KeyPart :=
| KString (s : string)
| KNumber (n : Z).

#[global] Instance KeyPart_eq_dec : EqDecision KeyPart.
Proof. solve_decision. Defined.

(** [[CACHE_PREFIX_STREAM + parsedId.imdbId, parsedId.season ?? "nosn",
    parsedId.episode ?? "noep"]]. *)
Definition cacheKey (parsedId : ParsedId) : list KeyPart :=
  [ KString ("stream_" +:+ imdbId parsedId);
    match season parsedId with Some s => KNumber s | None => KString "nosn" end;
    match episode parsedId with Some e => KNumber e | None => KString "noep" end ].

(** The season and the episode of a request, where it has them, are
    safe integers. *)
Definition safeNumbers (parsedId : ParsedId) : bool :=
  from_option safeInteger true (season parsedId)
  && from_option safeInteger true (episode parsedId).

(** Neither is zero: [parseInt] reads a zero with a minus sign as the
    negative zero, which makes another key than the positive one. *)
Definition nonZeroNumbers (parsedId : ParsedId) : bool :=
  from_option (fun n => negb (n =? 0)%Z) true (season parsedId)
  && from_option (fun n => negb (n =? 0)%Z) true (episode parsedId).

Definition CACHE_TTL_STREAM_SECONDS : Z := 60 * 60.
Definition CACHE_TTL_EMPTY_SECONDS : Z := 5 * 60.

(** A response: its status and either a plain text or the JSON text of
    [{ streams }]. *)
Inductive Body :=
| Message (text : string)
| StreamsJson (streams : list Stream.t).

Record Response := mkResponse { status : Z; body : Body }.

(** A call of [kv.set]. *)
Record Write := mkWrite {
  writeKey : list KeyPart;
  writeValue : list Stream.t;
  expireIn : Z
}.

(** What the handler meets: the state of the secret key, the decryption
    of the token, [decodeURIComponent] (which throws on a malformed text), the
    environment variable, the store (opening it, reading and writing may each
    fail) and the services behind the search and the stream synthesis. *)
Record World := mkWorld {
  isKeyInitialized : bool;
  decryptConfig : string -> option Config;
  decodeURIComponent : string -> Outcome string;
  bitmagnetUrlFromEnv : option string;
  getKv : bool;
  kvGet : list KeyPart -> Outcome (option (list Stream.t));
  kvSet : Write -> bool;
  searchWorld : SearchWorld;
  streamWorld : StreamWorld
}.

(** A run of the handler: how it ends, the queries sent to the backend
    and the calls of [kv.set], in order. *)
Record Handled := mkHandled {
  response : Outcome Response;
  sent : list string;
  writes : list Write
}.

Definition respond (status : Z) (body : Body) : Handled :=
  mkHandled (Returns (mkResponse status body)) [] [].

(** [config.bitmagnetUrl = bitmagnetUrlFromEnv] when the variable is set. *)
Definition withEnvUrl (config : Config) (fromEnv : option string) : Config :=
  match present fromEnv with
  | Some url =>
      mkConfig url (tmdbApiKey config) (premiumizeApiKey config) (bitmagnetTimeout config)
        (bitmagnetSortField config) (bitmagnetSortDescending config)
        (bitmagnetSearchLimit config)
  | None => config
  end.

Section Handler.

Variable mathFloorLog : Z -> Z.

(** The body of the [try] block once the store gave no cached value. *)
Definition onCacheMiss (w : World) (parsedId : ParsedId) (config : Config) : Handled :=
  let run := fetchAndSearchTorrents (searchWorld w) parsedId config in
  match outcome run with
  | Throws =>
      mkHandled
        (Returns (mkResponse 500 (Message "Internal server error during stream processing.")))
        (queries run) []
  | Returns searchResult =>
      let found :=
        match searchResult with
        | Some result =>
            match torrents result with
            | [] => None
            | _ => Some result
            end
        | None => None
        end in
      let streams :=
        match found with
        | Some result =>
            createStreamsFromTorrents mathFloorLog (streamWorld w) (torrents result)
              parsedId (found_title result) config
        | None => []
        end in
      let write :=
        match found with
        | Some _ => mkWrite (cacheKey parsedId) streams (CACHE_TTL_STREAM_SECONDS * 1000)
        | None => mkWrite (cacheKey parsedId) [] (CACHE_TTL_EMPTY_SECONDS * 1000)
        end in
      if kvSet w write
      then mkHandled (Returns (mkResponse 200 (StreamsJson streams))) (queries run) [write]
      else
        mkHandled
          (Returns (mkResponse 500 (Message "Internal server error during stream processing.")))
          (queries run) [write]
  end.

Definition handleStreamRequest (w : World) (jwe type rawId : string) : Handled :=
  if negb (isKeyInitialized w)
  then respond 500 (Message "Server configuration error: Key not initialized.")
  else
    match decryptConfig w jwe with
    | None => respond 400 (Message "Invalid or expired configuration token.")
    | Some decrypted =>
        match decodeURIComponent w rawId with
        | Throws => mkHandled Throws [] []
        | Returns id =>
            match parseStremioId (mkArgs type id) with
            | None => respond 400 (Message "Invalid stream ID format.")
            | Some parsedId =>
                let config := withEnvUrl decrypted (bitmagnetUrlFromEnv w) in
                if negb (getKv w)
                then respond 500 (Message "Internal server error during stream processing.")
                else
                  match kvGet w (cacheKey parsedId) with
                  | Throws =>
                      respond 500 (Message "Internal server error during stream processing.")
                  | Returns (Some cached) => respond 200 (StreamsJson cached)
                  | Returns None => onCacheMiss w parsedId config
                  end
            end
        end
    end.

End Handler.

End StreamHandler.

(** ** Configuration tokens ([decryptConfig], [handleGenerateTokenRequest]) *)

Module ConfigToken.

(** The payload of a token.  The members [decryptConfig] tests with
    [typeof] are any JSON value, [None] when absent; the two API keys are
    taken as declared, a string when present. *)
Record Payload := mkPayload {
  p_bitmagnetUrl : option json;
  p_tmdbApiKey : option string;
  p_premiumizeApiKey : option string;
  p_bitmagnetTimeout : option json;
  p_bitmagnetSortField : option json;
  p_bitmagnetSortDescending : option json;
  p_bitmagnetSearchLimit : option json
}.

(** [typeof v === 'number' ? v : d]. *)
Definition numberOr (v : option json) (d : Z) : Z :=
  match v with
  | Some (JNumber n) => n
  | _ => d
  end.

(** [decryptConfig] from the decrypted payload on; [None] is the [null]
    returned when the check of the URL throws. *)
Definition finalConfig (parsed : Payload) : option Config :=
  match p_bitmagnetUrl parsed with
  | Some (JString url) =>
      if JS.truthy url then
        let timeout := numberOr (p_bitmagnetTimeout parsed) 30 in
        let limit := numberOr (p_bitmagnetSearchLimit parsed) 30 in
        Some (mkConfig url
                (present (p_tmdbApiKey parsed))
                (present (p_premiumizeApiKey parsed))
                (if (timeout <? 5)%Z then 30%Z else timeout)
                (match p_bitmagnetSortField parsed with
                 | Some (JString field) => field
                 | _ => "Seeders"
                 end)
                (match p_bitmagnetSortDescending parsed with
                 | Some (JBool b) => b
                 | _ => true
                 end)
                (if ((limit <? 1) || (100 <? limit))%Z then 30%Z else limit))
      else None
  | _ => None
  end.

(** [decryptConfig]: nothing without the secret key, nothing when the
    token does not decrypt ([decrypted] is [None]). *)
Definition decryptConfig (keyInitialized : bool) (decrypted : option Payload)
    : option Config :=
  if keyInitialized then decrypted ≫= finalConfig else None.

(** The payload [encryptConfig] makes of a configuration: its members,
    the absent keys left out. *)
Definition payloadOf (config : Config) : Payload :=
  mkPayload (Some (JString (bitmagnetUrl config)))
    (tmdbApiKey config) (premiumizeApiKey config)
    (Some (JNumber (bitmagnetTimeout config)))
    (Some (JString (bitmagnetSortField config)))
    (Some (JBool (bitmagnetSortDescending config)))
    (Some (JNumber (bitmagnetSearchLimit config))).

(** An entry of [manifest.config], with the members the handler reads. *)
Record ManifestConfigItem := mkManifestItem {
  key : string;
  default_ : option string
}.

(** [manifest.config?.find(c => c.key === key)?.default || fallback]. *)
Definition getConfigDefault (manifestConfig : option (list ManifestConfigItem))
    (name fallback : string) : string :=
  orElse
    ((manifestConfig ≫= List.find (fun c => String.eqb (key c) name)) ≫= default_)
    fallback.

(** [isNaN(n) || n < low || n > high ? 30 : n], [None] being [NaN]. *)
Definition clamp (n : option Z) (low : Z) (high : option Z) : Z :=
  match n with
  | Some v =>
      if ((v <? low) || match high with Some h => (h <? v) | None => false end)%Z
      then 30%Z else v
  | None => 30%Z
  end.

(** The configuration [handleGenerateTokenRequest] encrypts; [None] is
    the answer 400 for a missing or invalid URL.  [form name] is
    [formData.get(name)?.toString()]. *)
Definition tokenConfig (bitmagnetUrlFromEnv : option string)
    (form : string -> option string)
    (manifestConfig : option (list ManifestConfigItem)) : option Config :=
  let url := orElse bitmagnetUrlFromEnv (orElse (form "bitmagnetUrl") "") in
  let timeout :=
    JS.parseInt (orElse (form "bitmagnetTimeout")
                   (getConfigDefault manifestConfig "bitmagnetTimeout" "30")) in
  let sortField :=
    orElse (form "bitmagnetSortField")
      (getConfigDefault manifestConfig "bitmagnetSortField" "Seeders") in
  let sortDescending :=
    bool_decide (form "bitmagnetSortDescending" = Some "on") in
  let limit :=
    JS.parseInt (orElse (form "bitmagnetSearchLimit")
                   (getConfigDefault manifestConfig "bitmagnetSearchLimit" "30")) in
  if negb (JS.truthy url) || negb (JS.startsWith url "http") then None
  else
    Some (mkConfig url (present (form "tmdbApiKey")) (present (form "premiumizeApiKey"))
            (clamp timeout 5 None) sortField sortDescending (clamp limit 1 (Some 100%Z))).

End ConfigToken.
(** * Properties *)

(** ** Identifier parser *)

Lemma searchTypeOf_series : searchTypeOf "series" = Some series.
Proof. reflexivity. Qed.

(** With a colon in the identifier, a series request succeeds exactly
    when the identifier splits in three, the first part starts with [tt] and
    [parseInt] reads a number at the start of the two other parts. *)
Lemma parseStremioId_colon_iff (id : string) (r : ParsedId) :
  JS.includes id ":" = true ->
  parseStremioId (mkArgs "series" id) = Some r <->
  exists p0 p1 p2 s e,
    JS.split id ":" = [p0; p1; p2] /\ JS.startsWith p0 "tt" = true /\
    JS.parseInt p1 = Some s /\ JS.parseInt p2 = Some e /\
    r = mkParsedId p0 (Some s) (Some e) series.
Proof.
  intros Hcolon. unfold parseStremioId. cbn [arg_type arg_id].
  rewrite searchTypeOf_series. cbn [isSeries andb]. rewrite Hcolon.
  split.
  - destruct (JS.split id ":") as [|p0 [|p1 [|p2 [|p3 ps]]]]; try discriminate.
    destruct (JS.startsWith p0 "tt") eqn:Htt; try discriminate.
    destruct (JS.parseInt p1) as [s|] eqn:Hs; try discriminate.
    destruct (JS.parseInt p2) as [e|] eqn:He; try discriminate.
    intros [= <-]. exists p0, p1, p2, s, e. repeat split; assumption.
  - intros (p0 & p1 & p2 & s & e & -> & -> & -> & -> & ->). reflexivity.
Qed.

(** What [parseInt] accepts: white space, an optional sign, then a digit. *)
Lemma parseInt_is_Some (s : string) :
  is_Some (JS.parseInt s) <->
  exists c rest,
    JS.isDigit c = true /\
    (JS.trimStart s = String c rest \/
     JS.trimStart s = String "-" (String c rest) \/
     JS.trimStart s = String "+" (String c rest)).
Proof.
  unfold JS.parseInt. split.
  - intros [v Hv]. destruct (JS.trimStart s) as [|a t] eqn:Ht; [discriminate|].
    destruct (Ascii.eqb a "-") eqn:Hm; [apply Ascii.eqb_eq in Hm; subst a|].
    { destruct t as [|c rest]; [discriminate|].
      destruct (JS.isDigit c) eqn:Hd; [|discriminate]. exists c, rest. auto. }
    destruct (Ascii.eqb a "+") eqn:Hp; [apply Ascii.eqb_eq in Hp; subst a|].
    { destruct t as [|c rest]; [discriminate|].
      destruct (JS.isDigit c) eqn:Hd; [|discriminate]. exists c, rest. auto. }
    assert (Hd : JS.isDigit a = true).
    { destruct a as [[] [] [] [] [] [] [] []]; try discriminate Hm; try discriminate Hp;
        cbn in Hv |- *; try discriminate Hv; reflexivity. }
    exists a, t. auto.
  - intros (c & rest & Hd & [-> | [-> | ->]]).
    + destruct c as [[] [] [] [] [] [] [] []]; try discriminate Hd; cbn; eauto.
    + rewrite Hd. eauto.
    + rewrite Hd. eauto.
Qed.

(** C4 (as amended): a series identifier with a colon is accepted only in
    three parts, the first starting with [tt], the second and third read by
    [parseInt] (a number at their start, possibly negative, whatever follows
    it); in every other case the answer is [null], and an accepted
    identifier always carries both season and episode. *)
Theorem parseStremioId_series_with_colon (id : string) :
  JS.includes id ":" = true ->
  (forall r, parseStremioId (mkArgs "series" id) = Some r ->
     exists p0 p1 p2 s e,
       JS.split id ":" = [p0; p1; p2] /\ JS.startsWith p0 "tt" = true /\
       JS.parseInt p1 = Some s /\ JS.parseInt p2 = Some e /\
       imdbId r = p0 /\ season r = Some s /\ episode r = Some e /\
       searchType r = series) /\
  (length (JS.split id ":") <> 3%nat -> parseStremioId (mkArgs "series" id) = None) /\
  (forall p0 p1 p2, JS.split id ":" = [p0; p1; p2] ->
     JS.startsWith p0 "tt" = false \/ JS.parseInt p1 = None \/ JS.parseInt p2 = None ->
     parseStremioId (mkArgs "series" id) = None).
Proof.
  intros Hcolon. split; [|split].
  - intros r Hr. apply (parseStremioId_colon_iff id r Hcolon) in Hr.
    destruct Hr as (p0 & p1 & p2 & s & e & H1 & H2 & H3 & H4 & ->).
    exists p0, p1, p2, s, e. repeat split; assumption.
  - intros Hlen. destruct (parseStremioId (mkArgs "series" id)) as [r|] eqn:Hr; [|reflexivity].
    apply (parseStremioId_colon_iff id r Hcolon) in Hr.
    destruct Hr as (p0 & p1 & p2 & s & e & H1 & _). rewrite H1 in Hlen. contradiction Hlen.
    reflexivity.
  - intros p0 p1 p2 Hsplit Hbad.
    destruct (parseStremioId (mkArgs "series" id)) as [r|] eqn:Hr; [|reflexivity].
    apply (parseStremioId_colon_iff id r Hcolon) in Hr.
    destruct Hr as (q0 & q1 & q2 & s & e & H1 & H2 & H3 & H4 & _).
    rewrite Hsplit in H1. injection H1 as <- <- <-.
    destruct Hbad as [Hb | [Hb | Hb]]; congruence.
Qed.

Lemma parseStremioId_series_with_colon_witness :
  (exists p0 p1 p2 s e,
     JS.split "tt7654321:5:12" ":" = [p0; p1; p2] /\ JS.startsWith p0 "tt" = true /\
     JS.parseInt p1 = Some s /\ JS.parseInt p2 = Some e /\
     imdbId (mkParsedId "tt7654321" (Some 5%Z) (Some 12%Z) series) = p0 /\
     season (mkParsedId "tt7654321" (Some 5%Z) (Some 12%Z) series) = Some s /\
     episode (mkParsedId "tt7654321" (Some 5%Z) (Some 12%Z) series) = Some e /\
     searchType (mkParsedId "tt7654321" (Some 5%Z) (Some 12%Z) series) = series).
Proof.
  apply (proj1 (parseStremioId_series_with_colon "tt7654321:5:12" eq_refl)).
  reflexivity.
Defined.

(** The request the design document excludes: a negative season is read and
    accepted. *)
Lemma parseStremioId_negative_season :
  parseStremioId (mkArgs "series" "tt1:-1:2")
  = Some (mkParsedId "tt1" (Some (-1)%Z) (Some 2%Z) series)
  /\ ~ (0 <= -1)%Z.
Proof. split; [reflexivity | lia]. Qed.

(** C9: a series identifier that starts with [tt] and has no colon is
    accepted, with neither season nor episode. *)
Theorem parseStremioId_series_without_colon (id : string) :
  JS.startsWith id "tt" = true ->
  JS.includes id ":" = false ->
  parseStremioId (mkArgs "series" id) = Some (mkParsedId id None None series).
Proof.
  intros Htt Hcolon. unfold parseStremioId. cbn [arg_type arg_id].
  rewrite searchTypeOf_series. cbn [isSeries andb]. rewrite Hcolon, Htt. reflexivity.
Qed.

Lemma parseStremioId_series_without_colon_witness :
  parseStremioId (mkArgs "series" "tt7654321")
  = Some (mkParsedId "tt7654321" None None series).
Proof. apply parseStremioId_series_without_colon; reflexivity. Defined.
(** ** Best-file selector *)

Lemma scanFiles_pick (regexPatterns : option (list string)) (files : list TorrentFile)
    (sel : Selection) :
  foldl (visitFile regexPatterns) sel files
  = mkSelection
      (foldl (pick isVideoFile) (largestVideoFile sel) files)
      (foldl (pick (fun f => isVideoFile f && matchesEpisode regexPatterns f))
             (specificEpisodeFile sel) files).
Proof.
  revert sel. induction files as [|file files IH]; intros sel.
  - destruct sel; reflexivity.
  - cbn [foldl]. rewrite IH. unfold visitFile, pick.
    destruct (isVideoFile file); cbn [andb largestVideoFile specificEpisodeFile].
    + destruct (matchesEpisode regexPatterns file); reflexivity.
    + reflexivity.
Qed.

(** The loop variable holds the first largest file seen so far. *)
Lemma pick_firstLargest (P : TorrentFile -> bool) (files : list TorrentFile) :
  match foldl (pick P) None files with
  | Some f => firstLargest P files f
  | None => forall g, g ∈ files -> P g = false
  end.
Proof.
  induction files as [|x files IH] using rev_ind.
  - cbn. intros g Hg. apply elem_of_nil in Hg. contradiction.
  - rewrite foldl_snoc. unfold pick at 1.
    destruct (foldl (pick P) None files) as [b|] eqn:Hb.
    + destruct IH as (before & after & -> & HPb & Hlt & Hle).
      destruct (P x) eqn:HPx; cbn [andb replaces].
      * destruct (file_size b <? file_size x)%Z eqn:Hcmp.
        -- apply Z.ltb_lt in Hcmp. exists (before ++ b :: after)%list, [].
           repeat split; try assumption.
           ++ intros g Hg HPg. apply elem_of_app in Hg as [Hg|Hg].
              ** specialize (Hlt g Hg HPg). lia.
              ** apply elem_of_cons in Hg as [->|Hg]; [assumption|].
                 specialize (Hle g Hg HPg). lia.
           ++ intros g Hg. apply elem_of_nil in Hg. contradiction.
        -- apply Z.ltb_ge in Hcmp. exists before, (after ++ [x])%list.
           repeat split; try assumption.
           ++ rewrite <- app_assoc. reflexivity.
           ++ intros g Hg HPg. apply elem_of_app in Hg as [Hg|Hg]; [auto|].
              apply list_elem_of_singleton in Hg. subst g. assumption.
      * exists before, (after ++ [x])%list. repeat split; try assumption.
        -- rewrite <- app_assoc. reflexivity.
        -- intros g Hg HPg. apply elem_of_app in Hg as [Hg|Hg]; [auto|].
           apply list_elem_of_singleton in Hg. subst g. congruence.
    + destruct (P x) eqn:HPx; cbn [andb replaces].
      * exists files, []. repeat split; try assumption.
        -- intros g Hg HPg. rewrite (IH g Hg) in HPg. discriminate.
        -- intros g Hg. apply elem_of_nil in Hg. contradiction.
      * intros g Hg. apply elem_of_app in Hg as [Hg|Hg]; [auto|].
        apply list_elem_of_singleton in Hg. subst g. assumption.
Qed.

Lemma firstLargest_elem (P : TorrentFile -> bool) (files : list TorrentFile) (f : TorrentFile) :
  firstLargest P files f -> f ∈ files /\ P f = true.
Proof.
  intros (before & after & -> & HP & _). split; [|assumption].
  apply elem_of_app. right. apply list_elem_of_here.
Qed.

(** The first largest file is determined by the listing. *)
Lemma firstLargest_unique (P : TorrentFile -> bool) (files : list TorrentFile)
    (f f' : TorrentFile) :
  firstLargest P files f -> firstLargest P files f' -> f = f'.
Proof.
  intros (b1 & a1 & E1 & HP1 & Hlt1 & Hle1) (b2 & a2 & E2 & HP2 & Hlt2 & Hle2).
  subst files. revert b2 E2 Hlt2. induction b1 as [|x b1 IH]; intros b2 E2 Hlt2.
  - destruct b2 as [|y b2]; cbn in E2.
    + congruence.
    + injection E2 as <- E2.
      assert (Hin : f' ∈ a1) by (rewrite E2; apply elem_of_app; right; apply list_elem_of_here).
      specialize (Hle1 f' Hin HP2).
      specialize (Hlt2 f (list_elem_of_here _ _) HP1). lia.
  - destruct b2 as [|y b2]; cbn in E2.
    + injection E2 as -> E2.
      assert (Hin : f ∈ a2) by (rewrite <- E2; apply elem_of_app; right; apply list_elem_of_here).
      specialize (Hle2 f Hin HP1).
      specialize (Hlt1 f' (list_elem_of_here _ _) HP2). lia.
    + injection E2 as -> E2. apply (IH (fun g Hg => Hlt1 g (list_elem_of_further _ _ _ Hg)) b2 E2).
      intros g Hg. apply Hlt2. apply list_elem_of_further. assumption.
Qed.

Lemma findBestFileIndex_unfold (file : TorrentFile) (files : list TorrentFile)
    (season episode : option Z) :
  findBestFileIndex (Some (file :: files)) season episode
  = match foldl (pick (isEpisodeFile season episode)) None (file :: files) with
    | Some f => Some (file_index f)
    | None =>
        match foldl (pick isVideoFile) None (file :: files) with
        | Some f => Some (file_index f)
        | None => match files with [] => Some (file_index file) | _ => None end
        end
    end.
Proof.
  unfold findBestFileIndex, scanFiles. rewrite scanFiles_pick.
  cbn [largestVideoFile specificEpisodeFile]. reflexivity.
Qed.

(** C6: the index returned is that of the first largest video file that
    matches one of the six patterns, if there is one; else that of the first
    largest video file; else that of the only file of a one-file listing;
    else nothing.  On the two-file listing of the design document the
    matching file wins over the larger one. *)
Theorem findBestFileIndex_priority (files : list TorrentFile) (season episode : option Z) :
  ((exists g, g ∈ files /\ isEpisodeFile season episode g = true) ->
   exists f, firstLargest (isEpisodeFile season episode) files f /\
             findBestFileIndex (Some files) season episode = Some (file_index f)) /\
  ((forall g, g ∈ files -> isEpisodeFile season episode g = false) ->
   (exists g, g ∈ files /\ isVideoFile g = true) ->
   exists f, firstLargest isVideoFile files f /\
             findBestFileIndex (Some files) season episode = Some (file_index f)) /\
  ((forall g, g ∈ files -> isVideoFile g = false) ->
   forall f, files = [f] ->
             findBestFileIndex (Some files) season episode = Some (file_index f)) /\
  ((forall g, g ∈ files -> isVideoFile g = false) ->
   length files <> 1%nat ->
   findBestFileIndex (Some files) season episode = None) /\
  findBestFileIndex None season episode = None /\
  (forall i0 i1,
     findBestFileIndex (Some [mkFile "S01E02.mkv" 500 i0; mkFile "S01E01.mkv" 900 i1])
                       (Some 1%Z) (Some 2%Z) = Some i0).
Proof.
  assert (Hvideo : (forall g, g ∈ files -> isVideoFile g = false) ->
                   forall g, g ∈ files -> isEpisodeFile season episode g = false).
  { intros H g Hg. unfold isEpisodeFile. rewrite (H g Hg). reflexivity. }
  assert (Hnone : forall P, (forall g, g ∈ files -> P g = false) ->
                            foldl (pick P) None files = None).
  { intros P H. pose proof (pick_firstLargest P files) as Hp.
    destruct (foldl (pick P) None files) as [f|]; [|reflexivity].
    apply firstLargest_elem in Hp as [Hin HP]. rewrite (H f Hin) in HP. discriminate. }
  assert (Hsome : forall P, (exists g, g ∈ files /\ P g = true) ->
                            exists f, firstLargest P files f /\
                                      foldl (pick P) None files = Some f).
  { intros P (g & Hg & HPg). pose proof (pick_firstLargest P files) as Hp.
    destruct (foldl (pick P) None files) as [f|]; [eauto|].
    rewrite (Hp g Hg) in HPg. discriminate. }
  split; [|split; [|split; [|split; [|split]]]].
  - intros Hex. destruct (Hsome _ Hex) as (f & Hf & Hfold). exists f. split; [assumption|].
    destruct files as [|file files']; [destruct Hex as (g & Hg & _); inversion Hg|].
    rewrite findBestFileIndex_unfold, Hfold. reflexivity.
  - intros Hno Hex. destruct (Hsome _ Hex) as (f & Hf & Hfold). exists f. split; [assumption|].
    destruct files as [|file files']; [destruct Hex as (g & Hg & _); inversion Hg|].
    rewrite findBestFileIndex_unfold, (Hnone _ Hno), Hfold. reflexivity.
  - intros Hno f ->.
    rewrite findBestFileIndex_unfold, (Hnone _ (Hvideo Hno)), (Hnone _ Hno). reflexivity.
  - intros Hno Hlen. destruct files as [|file files']; [reflexivity|].
    rewrite findBestFileIndex_unfold, (Hnone _ (Hvideo Hno)), (Hnone _ Hno).
    destruct files'; [contradiction Hlen; reflexivity | reflexivity].
  - reflexivity.
  - intros i0 i1. vm_compute. reflexivity.
Qed.

Lemma findBestFileIndex_priority_witness :
  exists f,
    firstLargest (isEpisodeFile (Some 1%Z) (Some 2%Z))
      [mkFile "S01E02.mkv" 500 0; mkFile "S01E01.mkv" 900 1] f /\
    findBestFileIndex (Some [mkFile "S01E02.mkv" 500 0; mkFile "S01E01.mkv" 900 1])
      (Some 1%Z) (Some 2%Z) = Some (file_index f).
Proof.
  apply (proj1 (findBestFileIndex_priority _ (Some 1%Z) (Some 2%Z))).
  exists (mkFile "S01E02.mkv" 500 0). split; [apply list_elem_of_here | vm_compute; reflexivity].
Defined.

(** C10: an index that is returned is the [index] field of a file of the
    listing. *)
Theorem findBestFileIndex_from_listing (files : option (list TorrentFile))
    (season episode : option Z) (i : Z) :
  findBestFileIndex files season episode = Some i ->
  exists fs f, files = Some fs /\ f ∈ fs /\ file_index f = i.
Proof.
  destruct files as [[|file files]|]; try discriminate.
  rewrite findBestFileIndex_unfold. intros H. exists (file :: files).
  pose proof (pick_firstLargest (isEpisodeFile season episode) (file :: files)) as He.
  pose proof (pick_firstLargest isVideoFile (file :: files)) as Hv.
  destruct (foldl (pick (isEpisodeFile season episode)) None (file :: files)) as [f|].
  { injection H as <-. exists f. apply firstLargest_elem in He as [Hin _]. auto. }
  destruct (foldl (pick isVideoFile) None (file :: files)) as [f|].
  { injection H as <-. exists f. apply firstLargest_elem in Hv as [Hin _]. auto. }
  destruct files; [|discriminate]. injection H as <-.
  exists file. split; [reflexivity|]. split; [apply list_elem_of_here | reflexivity].
Qed.

Lemma findBestFileIndex_from_listing_witness :
  exists fs f,
    Some [mkFile "a.mkv" 10 4; mkFile "b.mkv" 30 7] = Some fs /\ f ∈ fs /\ file_index f = 7%Z.
Proof.
  apply (findBestFileIndex_from_listing _ None None). vm_compute. reflexivity.
Defined.
(** ** Byte formatting *)

Lemma exactFloorLog_spec (bytes : Z) :
  (0 < bytes)%Z ->
  (0 <= exactFloorLog bytes /\
   1024 ^ exactFloorLog bytes <= bytes < 1024 ^ (exactFloorLog bytes + 1))%Z.
Proof.
  intros Hpos. unfold exactFloorLog.
  pose proof (Z.log2_spec bytes Hpos) as [Hlo Hhi].
  pose proof (Z.log2_nonneg bytes) as Hnn.
  set (l := Z.log2 bytes) in *. set (k := (l / 10)%Z).
  assert (Hk : (10 * k <= l < 10 * k + 10)%Z).
  { unfold k. pose proof (Z.div_mod l 10 ltac:(lia)).
    pose proof (Z.mod_pos_bound l 10 ltac:(lia)). lia. }
  assert (Hk0 : (0 <= k)%Z) by (unfold k; apply Z.div_pos; lia).
  change 1024%Z with (2 ^ 10)%Z. rewrite <- !Z.pow_mul_r by lia.
  split; [assumption|]. split.
  - etransitivity; [|exact Hlo]. apply Z.pow_le_mono_r; lia.
  - eapply Z.lt_le_trans; [exact Hhi|]. apply Z.pow_le_mono_r; lia.
Qed.

(** [toFixed2] rounds to the nearest hundredth, upwards on a tie. *)
Lemma toFixed2_nearest (num den : Z) :
  (0 < den)%Z ->
  (2 * den * toFixed2 num den <= 200 * num + den < 2 * den * (toFixed2 num den + 1))%Z.
Proof.
  intros Hden. unfold toFixed2.
  pose proof (Z.div_mod (200 * num + den) (2 * den) ltac:(lia)) as Hdm.
  pose proof (Z.mod_pos_bound (200 * num + den) (2 * den) ltac:(lia)) as Hb.
  nia.
Qed.

(** C7: the unit is [sizes[i]] for the index [i] the floating-point
    logarithm gives, neither kept inside the table nor checked against the
    byte count.  At 2 * 1024^9 bytes, where the index is 9, the text has no
    unit of the table, the largest unit in which the count is at least 1
    being YB; at 2^50 - 1 bytes, a platform whose logarithm gives the index 5
    prints 1 PB, a unit in which the count is below 1, the largest unit in
    which it is at least 1 being TB.  The two examples of the design document
    hold: 0 gives "0 Bytes", and 1536 gives "1.5 KB" where the index is 1. *)
Theorem formatBytes_unit_slips (mathFloorLog : Z -> Z) :
  (mathFloorLog (2 * 1024 ^ 9)%Z = 9%Z ->
   formatBytes mathFloorLog (2 * 1024 ^ 9) = "2 undefined") /\
  (largestUnitAtLeastOne (2 * 1024 ^ 9) 8 /\ sizes !! 8%nat = Some "YB" /\
   roundedToTwoDecimals (2 * 1024 ^ 9) 8 204800 /\ "undefined" ∉ sizes) /\
  (mathFloorLog (2 ^ 50 - 1)%Z = 5%Z ->
   formatBytes mathFloorLog (2 ^ 50 - 1) = "1 PB") /\
  (largestUnitAtLeastOne (2 ^ 50 - 1) 4 /\ sizes !! 4%nat = Some "TB" /\
   sizes !! 5%nat = Some "PB" /\ roundedToTwoDecimals (2 ^ 50 - 1) 4 102400 /\
   (2 ^ 50 - 1 < 1024 ^ 5)%Z) /\
  formatBytes mathFloorLog 0 = "0 Bytes" /\
  (mathFloorLog 1536%Z = 1%Z -> formatBytes mathFloorLog 1536 = "1.5 KB").
Proof.
  assert (Hlargest : forall bytes (u : nat),
            (u < length sizes)%nat ->
            (1024 ^ Z.of_nat u <= bytes < 1024 ^ Z.of_nat (S u) \/
             1024 ^ Z.of_nat u <= bytes /\ S u = length sizes)%Z ->
            largestUnitAtLeastOne bytes u).
  { intros bytes u Hu Hrange. split; [exact Hu|]. split; [destruct Hrange; lia|].
    intros v Hv Hle. destruct Hrange as [[_ Hlt]|[_ Hlast]]; [|lia].
    destruct (Nat.le_gt_cases v u) as [|Hgt]; [assumption|]. exfalso.
    assert (1024 ^ Z.of_nat (S u) <= 1024 ^ Z.of_nat v)%Z
      by (apply Z.pow_le_mono_r; lia).
    lia. }
  split; [|split; [|split; [|split; [|split]]]].
  - intros Hlog. unfold formatBytes. rewrite Hlog. vm_compute. reflexivity.
  - split; [|split; [reflexivity|split]].
    + apply Hlargest; [cbn; lia|]. right. split; [|reflexivity]. vm_compute. discriminate.
    + unfold roundedToTwoDecimals. vm_compute. discriminate.
    + unfold sizes. intros Hin.
      repeat (apply elem_of_cons in Hin as [Hin|Hin]; [discriminate|]). inversion Hin.
  - intros Hlog. unfold formatBytes. rewrite Hlog. vm_compute. reflexivity.
  - split; [|split; [reflexivity|split; [reflexivity|split]]].
    + apply Hlargest; [cbn; lia|]. left. split; vm_compute; [discriminate | reflexivity].
    + unfold roundedToTwoDecimals. vm_compute. discriminate.
    + vm_compute. reflexivity.
  - reflexivity.
  - intros Hlog. unfold formatBytes. rewrite Hlog. vm_compute. reflexivity.
Qed.

(** The exact logarithm of 2 * 1024^9 to the base 1024 is 9.1: its floor
    is 9, far from any rounding doubt. *)
Lemma formatBytes_unit_slips_witness :
  formatBytes exactFloorLog (2 * 1024 ^ 9) = "2 undefined".
Proof.
  apply (proj1 (formatBytes_unit_slips exactFloorLog)). vm_compute. reflexivity.
Defined.
(** ** Magnet parser *)

Lemma append_cons (x : ascii) (a b : string) : String x a +:+ b = String x (a +:+ b).
Proof. reflexivity. Qed.

Lemma append_nil_l (b : string) : "" +:+ b = b.
Proof. reflexivity. Qed.

Ltac push_append := rewrite ?append_cons, ?append_nil_l.

Lemma append_assoc (a b c : string) : (a +:+ b) +:+ c = a +:+ (b +:+ c).
Proof. induction a as [|x a IH]; push_append; [reflexivity | rewrite IH; reflexivity]. Qed.

Lemma append_nil_r (a : string) : a +:+ "" = a.
Proof. induction a as [|x a IH]; push_append; [reflexivity | rewrite IH; reflexivity]. Qed.

Lemma prefix_append (p s : string) :
  String.prefix p s = true <-> exists r, s = p +:+ r.
Proof.
  revert s. induction p as [|x p IH]; intros [|y s]; cbn [String.prefix].
  - split; [intros _; exists ""; reflexivity | reflexivity].
  - split; [intros _; exists (String y s); reflexivity | reflexivity].
  - split; [discriminate | intros [r Hr]; discriminate].
  - destruct (ascii_dec x y) as [->|Hne].
    + rewrite IH. split; intros [r Hr]; exists r; revert Hr; push_append; congruence.
    + split; [discriminate | intros [r Hr]; revert Hr; push_append; congruence].
Qed.

Lemma drop_append (p r : string) : JS.drop (String.length p) (p +:+ r) = r.
Proof.
  induction p as [|x p IH]; push_append; cbn [String.length JS.drop];
    [destruct r; reflexivity | exact IH].
Qed.

Lemma take_drop (n : nat) (s : string) : takeChars n s +:+ JS.drop n s = s.
Proof.
  revert s. induction n as [|n IH]; intros [|c s]; cbn [takeChars JS.drop]; push_append;
    try reflexivity.
  rewrite IH. reflexivity.
Qed.

Lemma takeChars_append (h r : string) : takeChars (String.length h) (h +:+ r) = h.
Proof.
  induction h as [|c h IH]; push_append; cbn [String.length takeChars];
    [destruct r; reflexivity | rewrite IH; reflexivity].
Qed.

Lemma hex40_Some (s h : string) :
  hex40 s = Some h <->
  String.length h = 40%nat /\ allChars JS.isHexDigit h = true /\ exists r, s = h +:+ r.
Proof.
  unfold hex40. generalize 40%nat. intros n. split.
  - destruct (String.length (takeChars n s) =? n)%nat eqn:Hlen; [|discriminate].
    destruct (allChars JS.isHexDigit (takeChars n s)) eqn:Hhex; [|discriminate].
    cbn [andb]. intros [= <-]. apply Nat.eqb_eq in Hlen.
    repeat split; try assumption. exists (JS.drop n s). symmetry. apply take_drop.
  - intros (Hlen & Hhex & r & ->).
    rewrite <- Hlen, takeChars_append, Hhex, Nat.eqb_refl. reflexivity.
Qed.

(** The capture of the regular expression is sound and complete. *)
Lemma matchBtih_sound (s h : string) : matchBtih s = Some h -> holdsBtih s h.
Proof.
  induction s as [|c s IH].
  - cbn. discriminate.
  - cbn [matchBtih].
    destruct (if JS.startsWith (String c s) "urn:btih:" then hex40 (JS.drop 9 (String c s)) else None)
      as [h'|] eqn:Hhere.
    + intros [= ->].
      destruct (JS.startsWith (String c s) "urn:btih:") eqn:Hp; [|discriminate].
      apply prefix_append in Hp as [r Hr]. rewrite Hr in Hhere.
      change 9%nat with (String.length "urn:btih:") in Hhere. rewrite drop_append in Hhere.
      apply hex40_Some in Hhere as (Hlen & Hhex & post & ->).
      exists "", post. rewrite Hr. push_append. auto.
    + intros Hrest. destruct (IH Hrest) as (pre & post & -> & Hlen & Hhex).
      exists (String c pre), post. push_append. auto.
Qed.

Lemma matchBtih_complete (s h : string) : holdsBtih s h -> is_Some (matchBtih s).
Proof.
  intros (pre & post & -> & Hlen & Hhex). induction pre as [|c pre IH]; push_append.
  - assert (Hhere : hex40 (JS.drop 9 ("urn:btih:" +:+ h +:+ post)) = Some h).
    { change 9%nat with (String.length "urn:btih:"). rewrite drop_append.
      apply hex40_Some. eauto. }
    assert (Hp : JS.startsWith ("urn:btih:" +:+ h +:+ post) "urn:btih:" = true).
    { apply prefix_append. eauto. }
    revert Hhere Hp. push_append. intros Hhere Hp.
    cbn [matchBtih]. rewrite Hp, Hhere. eauto.
  - cbn [matchBtih].
    destruct (if JS.startsWith _ "urn:btih:" then _ else None); eauto.
Qed.

(** Forty digits at the start of [urn:btih:...] are found on the spot. *)
Lemma matchBtih_at_start (h post : string) :
  String.length h = 40%nat -> allChars JS.isHexDigit h = true ->
  (if JS.startsWith ("urn:btih:" +:+ h +:+ post) "urn:btih:"
   then hex40 (JS.drop 9 ("urn:btih:" +:+ h +:+ post)) else None) = Some h.
Proof.
  intros Hlen Hhex.
  assert (Hhere : hex40 (JS.drop 9 ("urn:btih:" +:+ h +:+ post)) = Some h).
  { change 9%nat with (String.length "urn:btih:"). rewrite drop_append.
    apply hex40_Some. eauto. }
  assert (Hp : JS.startsWith ("urn:btih:" +:+ h +:+ post) "urn:btih:" = true).
  { apply prefix_append. eauto. }
  rewrite Hp. exact Hhere.
Qed.

(** The capture is that of the leftmost match. *)
Lemma matchBtih_leftmost (s h : string) : matchBtih s = Some h -> leftmostBtih s h.
Proof.
  revert h. induction s as [|c s IH]; intros h.
  - cbn. discriminate.
  - cbn [matchBtih].
    destruct (if JS.startsWith (String c s) "urn:btih:" then hex40 (JS.drop 9 (String c s)) else None)
      as [h0|] eqn:Hhere.
    + intros [= ->].
      destruct (JS.startsWith (String c s) "urn:btih:") eqn:Hp; [|discriminate].
      apply prefix_append in Hp as [r Hr]. rewrite Hr in Hhere.
      change 9%nat with (String.length "urn:btih:") in Hhere. rewrite drop_append in Hhere.
      apply hex40_Some in Hhere as (Hlen & Hhex & post & ->).
      exists "", post. rewrite Hr. push_append.
      split; [reflexivity|]. split; [exact Hlen|]. split; [exact Hhex|].
      intros pre' h' post' _ _ _. cbn [String.length]. lia.
    + intros Hrest. destruct (IH h Hrest) as (pre & post & Hs & Hlen & Hhex & Hleast).
      exists (String c pre), post. push_append.
      split; [rewrite Hs; reflexivity|]. split; [exact Hlen|]. split; [exact Hhex|].
      intros pre' h' post' Hs' Hlen' Hhex'. destruct pre' as [|c' pre'].
      * exfalso. rewrite append_nil_l in Hs'. rewrite Hs' in Hhere.
        rewrite (matchBtih_at_start h' post' Hlen' Hhex') in Hhere. discriminate.
      * rewrite append_cons in Hs'. injection Hs' as _ Hs'. cbn [String.length].
        specialize (Hleast pre' h' post' Hs' Hlen' Hhex'). lia.
Qed.

Lemma append_length (a b : string) :
  String.length (a +:+ b) = (String.length a + String.length b)%nat.
Proof. induction a as [|x a IH]; push_append; cbn [String.length]; [|rewrite IH]; reflexivity. Qed.

Lemma append_same_length (a a' b b' : string) :
  a +:+ b = a' +:+ b' -> String.length a = String.length a' -> a = a' /\ b = b'.
Proof.
  revert a'. induction a as [|x a IH]; intros [|x' a']; push_append; cbn [String.length];
    try discriminate; [auto|].
  intros [= -> H] [= Hlen]. destruct (IH a' H Hlen) as [-> ->]. auto.
Qed.

(** There is one leftmost capture. *)
Lemma leftmostBtih_unique (xt h h' : string) :
  leftmostBtih xt h -> leftmostBtih xt h' -> h = h'.
Proof.
  intros (pre & post & Hxt & Hlen & Hhex & Hleast) (pre' & post' & Hxt' & Hlen' & Hhex' & Hleast').
  pose proof (Hleast pre' h' post' Hxt' Hlen' Hhex') as H1.
  pose proof (Hleast' pre h post Hxt Hlen Hhex) as H2.
  rewrite Hxt in Hxt'.
  apply append_same_length in Hxt' as [_ Hrest]; [|lia].
  apply append_same_length in Hrest as [_ Hrest]; [|reflexivity].
  apply append_same_length in Hrest as [Hh _]; [exact Hh | lia].
Qed.

Lemma leftmostBtih_holds (xt h : string) : leftmostBtih xt h -> holdsBtih xt h.
Proof. intros (pre & post & Hxt & Hlen & Hhex & _). exists pre, post. auto. Qed.

(** After the test on the scheme, the parameters are read from what
    follows [magnet:?]. *)
Lemma parseMagnetUri_body (body : string) :
  parseMagnetUri (Some ("magnet:?" +:+ body))
  = match URLSearchParams.get (URLSearchParams.create body) "xt" ≫= matchBtih with
    | None => None
    | Some hash =>
        Some (mkParsedMagnet (Some (toLowerCase hash))
                (List.filter JS.truthy
                   (URLSearchParams.getAll (URLSearchParams.create body) "tr")))
    end.
Proof.
  unfold parseMagnetUri. push_append.
  assert (Hp : JS.startsWith ("magnet:?" +:+ body) "magnet:?" = true)
    by (apply prefix_append; eauto).
  revert Hp. push_append. intros ->. cbn [JS.truthy negb orb].
  assert (Hs : substring ("magnet:?" +:+ body)
                 (indexOf ("magnet:?" +:+ body) "?" + 1) = body).
  { push_append. cbn [indexOf]. cbn -[JS.drop]. change (Pos.to_nat 8) with 8%nat.
    cbn [JS.drop]. destruct body; reflexivity. }
  revert Hs. push_append. intros ->. reflexivity.
Qed.

Lemma plusToSpace_plain (s : string) :
  allChars unreserved s = true -> URLSearchParams.plusToSpace s = s.
Proof.
  induction s as [|c s IH]; cbn [allChars URLSearchParams.plusToSpace]; [reflexivity|].
  intros [Hc Hs]%andb_prop. rewrite (IH Hs).
  destruct (Ascii.eqb_spec c "+") as [->|_]; [discriminate Hc | reflexivity].
Qed.

Lemma percentDecode_plain (s : string) :
  allChars unreserved s = true -> URLSearchParams.percentDecode s = s.
Proof.
  induction s as [|c s IH]; cbn [allChars URLSearchParams.percentDecode]; [reflexivity|].
  intros [Hc Hs]%andb_prop. specialize (IH Hs).
  assert (Hne : (c =? "%")%char = false).
  { destruct (Ascii.eqb_spec c "%") as [->|_]; [discriminate Hc | reflexivity]. }
  rewrite Hne. cbn [andb]. destruct s as [|h [|l rest]]; rewrite IH; reflexivity.
Qed.

Lemma decodeComponent_plain (s : string) :
  plainComponent s -> URLSearchParams.decodeComponent s = s.
Proof.
  intros [Hplain Hutf]. unfold URLSearchParams.decodeComponent.
  rewrite (plusToSpace_plain s Hplain), (percentDecode_plain s Hplain). exact Hutf.
Qed.

Lemma utf8Decode_ascii (s : string) :
  allChars isAscii s = true -> URLSearchParams.utf8Decode s = s.
Proof.
  unfold URLSearchParams.utf8Decode.
  induction s as [|c s IH]; cbn [allChars URLSearchParams.utf8DecodeFrom]; [reflexivity|].
  intros [Hc Hs]%andb_prop. unfold isAscii in Hc.
  cbn [URLSearchParams.utf8Step URLSearchParams.utf8Idle URLSearchParams.needed].
  unfold URLSearchParams.utf8Lead. rewrite Hc. unfold URLSearchParams.one. push_append.
  rewrite (IH Hs). reflexivity.
Qed.

Lemma allChars_impl (p q : ascii -> bool) (s : string) :
  (forall c, p c = true -> q c = true) -> allChars p s = true -> allChars q s = true.
Proof.
  intros Hpq. induction s as [|c s IH]; cbn [allChars]; [reflexivity|].
  intros [Hc Hs]%andb_prop. rewrite (Hpq c Hc), (IH Hs). reflexivity.
Qed.

Lemma hex_is_plain (c : ascii) : JS.isHexDigit c = true -> unreserved c && isAscii c = true.
Proof.
  destruct c as [[] [] [] [] [] [] [] []]; intros H; vm_compute in H |- *; congruence.
Qed.

Lemma plain_hex (h : string) : allChars JS.isHexDigit h = true -> plainComponent h.
Proof.
  intros Hhex. split.
  - apply (allChars_impl _ _ h (fun c Hc => proj1 (andb_prop _ _ (hex_is_plain c Hc))) Hhex).
  - apply utf8Decode_ascii.
    apply (allChars_impl _ _ h (fun c Hc => proj2 (andb_prop _ _ (hex_is_plain c Hc))) Hhex).
Qed.

Lemma allChars_append (p : ascii -> bool) (a b : string) :
  allChars p (a +:+ b) = allChars p a && allChars p b.
Proof.
  induction a as [|c a IH]; push_append; cbn [allChars]; [reflexivity|].
  rewrite IH, andb_assoc. reflexivity.
Qed.

(** Splitting where the pieces hold no separator. *)
Lemma splitOn_piece (a : string) :
  noAmpersand a = true -> JS.splitOn "&" a = (a, []).
Proof.
  unfold noAmpersand. induction a as [|c a IH]; cbn [allChars JS.splitOn]; [reflexivity|].
  intros [Hc Hs]%andb_prop. rewrite (IH Hs).
  destruct (c =? "&")%char; [discriminate Hc | reflexivity].
Qed.

Lemma splitOn_append (a b : string) :
  noAmpersand a = true ->
  JS.splitOn "&" (a +:+ String "&" b) = (a, JS.split b "&").
Proof.
  unfold noAmpersand, JS.split.
  induction a as [|c a IH]; push_append; cbn [allChars JS.splitOn].
  - intros _. rewrite Ascii.eqb_refl. destruct (JS.splitOn "&" b). reflexivity.
  - intros [Hc Hs]%andb_prop. rewrite (IH Hs).
    destruct (c =? "&")%char; [discriminate Hc | reflexivity].
Qed.

Lemma unreserved_noAmpersand (s : string) :
  allChars unreserved s = true -> noAmpersand s = true.
Proof.
  apply allChars_impl. intros c. unfold unreserved.
  destruct (c =? "&")%char; [discriminate | reflexivity].
Qed.

Lemma split_parameters (first : string) (trackers : list string) :
  noAmpersand first = true ->
  Forall plainComponent trackers ->
  JS.split (first +:+ foldr (fun t rest => "&tr=" +:+ t +:+ rest) "" trackers) "&"
  = first :: map (fun t => "tr=" +:+ t) trackers.
Proof.
  intros Hfirst Hall. revert first Hfirst.
  induction Hall as [|t trackers [Ht _] _ IH]; intros first Hfirst; cbn [foldr map].
  - rewrite append_nil_r. unfold JS.split. rewrite (splitOn_piece first Hfirst). reflexivity.
  - unfold JS.split at 1. push_append. rewrite (splitOn_append first _ Hfirst).
    change (String "t" (String "r" (String "=" (t +:+ ?rest))))
      with (("tr=" +:+ t) +:+ rest).
    rewrite IH; [reflexivity|].
    unfold noAmpersand. push_append. cbn [allChars]. apply unreserved_noAmpersand in Ht.
    exact Ht.
Qed.

Lemma matchBtih_here (h post : string) :
  String.length h = 40%nat -> allChars JS.isHexDigit h = true ->
  matchBtih ("urn:btih:" +:+ h +:+ post) = Some h.
Proof.
  intros Hlen Hhex.
  assert (Hhere : hex40 (JS.drop 9 ("urn:btih:" +:+ h +:+ post)) = Some h).
  { change 9%nat with (String.length "urn:btih:"). rewrite drop_append.
    apply hex40_Some. eauto. }
  assert (Hp : JS.startsWith ("urn:btih:" +:+ h +:+ post) "urn:btih:" = true)
    by (apply prefix_append; eauto).
  revert Hhere Hp. push_append. intros Hhere Hp. cbn [matchBtih]. rewrite Hp, Hhere.
  reflexivity.
Qed.

Lemma parsePiece_tr (t : string) :
  plainComponent t -> URLSearchParams.parsePiece ("tr=" +:+ t) = Some ("tr", t).
Proof.
  intros Ht. unfold URLSearchParams.parsePiece. push_append.
  cbn [JS.truthy URLSearchParams.cutAtEquals]. cbn -[URLSearchParams.decodeComponent].
  rewrite (decodeComponent_plain t Ht). reflexivity.
Qed.

Lemma parsePiece_xt (v : string) :
  plainComponent v -> URLSearchParams.parsePiece ("xt=" +:+ v) = Some ("xt", v).
Proof.
  intros Hv. unfold URLSearchParams.parsePiece. push_append.
  cbn [JS.truthy URLSearchParams.cutAtEquals]. cbn -[URLSearchParams.decodeComponent].
  rewrite (decodeComponent_plain v Hv). reflexivity.
Qed.

Lemma plain_append (a b : string) :
  allChars (fun c => unreserved c && isAscii c) a = true ->
  plainComponent b -> allChars isAscii b = true -> plainComponent (a +:+ b).
Proof.
  intros Ha [Hb _] Hb'. split.
  - rewrite allChars_append, Hb, andb_true_r.
    apply (allChars_impl _ _ a (fun c Hc => proj1 (andb_prop _ _ Hc)) Ha).
  - apply utf8Decode_ascii. rewrite allChars_append, Hb', andb_true_r.
    apply (allChars_impl _ _ a (fun c Hc => proj2 (andb_prop _ _ Hc)) Ha).
Qed.

Lemma create_built (h : string) (trackers : list string) :
  allChars JS.isHexDigit h = true ->
  Forall plainComponent trackers ->
  URLSearchParams.create
    (("xt=urn:btih:" +:+ h) +:+ foldr (fun t rest => "&tr=" +:+ t +:+ rest) "" trackers)
  = ("xt", "urn:btih:" +:+ h) :: map (fun t => ("tr", t)) trackers.
Proof.
  intros Hhex Hall.
  transitivity
    (omap URLSearchParams.parsePiece
       (JS.split (("xt=urn:btih:" +:+ h)
                  +:+ foldr (fun t rest => "&tr=" +:+ t +:+ rest) "" trackers) "&"));
    [reflexivity|].
  assert (Hascii : allChars (fun c => unreserved c && isAscii c) h = true)
    by (apply (allChars_impl _ _ h hex_is_plain Hhex)).
  rewrite split_parameters; [| |assumption].
  - cbn [omap list_omap].
    change ("xt=urn:btih:" +:+ h) with ("xt=" +:+ ("urn:btih:" +:+ h)).
    rewrite parsePiece_xt.
    + f_equal. induction Hall as [|t ts Ht _ IH]; cbn [map omap list_omap]; [reflexivity|].
      rewrite (parsePiece_tr t Ht), IH. reflexivity.
    + apply plain_append; [reflexivity | apply plain_hex; assumption |].
      apply (allChars_impl _ _ h (fun c Hc => proj2 (andb_prop _ _ Hc)) Hascii).
  - unfold noAmpersand. rewrite allChars_append. apply andb_true_intro. split; [reflexivity|].
    apply unreserved_noAmpersand.
    apply (allChars_impl _ _ h (fun c Hc => proj1 (andb_prop _ _ Hc)) Hascii).
Qed.

(** A link built from a hash and plain trackers is read back. *)
Lemma parseMagnetUri_roundtrip (h : string) (trackers : list string) :
  String.length h = 40%nat -> allChars JS.isHexDigit h = true ->
  Forall plainComponent trackers ->
  parseMagnetUri (Some (buildMagnetUri h trackers))
  = Some (mkParsedMagnet (Some (toLowerCase h)) (List.filter JS.truthy trackers)).
Proof.
  intros Hlen Hhex Hall. unfold buildMagnetUri.
  change ("magnet:?xt=urn:btih:" +:+ h
          +:+ foldr (fun t rest => "&tr=" +:+ t +:+ rest) "" trackers)
    with ("magnet:?" +:+ (("xt=urn:btih:" +:+ h)
                          +:+ foldr (fun t rest => "&tr=" +:+ t +:+ rest) "" trackers)).
  rewrite parseMagnetUri_body, (create_built h trackers Hhex Hall).
  cbn [URLSearchParams.get List.find fst snd fmap option_fmap option_map mbind option_bind].
  change (String.eqb "xt" "xt") with true. cbn iota.
  cbn [fmap option_fmap option_map mbind option_bind snd].
  rewrite <- (append_nil_r h) at 1. rewrite (matchBtih_here h "" Hlen Hhex).
  do 3 f_equal. unfold URLSearchParams.getAll. cbn [List.filter fst].
  change (String.eqb "xt" "tr") with false. cbn iota.
  clear. induction trackers as [|t ts IH]; cbn [map List.filter fst snd]; [reflexivity|].
  change (String.eqb "tr" "tr") with true. cbn iota. cbn [map snd]. rewrite IH. reflexivity.
Qed.

(** C5 (as amended): the parser answers [null] for an absent input, for
    one that does not start with [magnet:?], and exactly when the first [xt]
    parameter is missing or holds no [urn:btih:] followed by forty
    hexadecimal digits; otherwise it gives the forty digits that follow the
    leftmost such [urn:btih:], and no others, in lower case, with every
    non-empty [tr] value in order, duplicates included; a link built from a
    hash H and trackers T1..Tn is read back as H in lower case and the
    non-empty ones among T1..Tn. *)
Theorem parseMagnetUri_contract :
  parseMagnetUri None = None /\
  (forall uri, JS.startsWith uri "magnet:?" = false -> parseMagnetUri (Some uri) = None) /\
  (forall body,
     parseMagnetUri (Some ("magnet:?" +:+ body)) = None <->
     forall xt h, URLSearchParams.get (URLSearchParams.create body) "xt" = Some xt ->
                  ~ holdsBtih xt h) /\
  (forall body r,
     parseMagnetUri (Some ("magnet:?" +:+ body)) = Some r ->
     exists xt h,
       URLSearchParams.get (URLSearchParams.create body) "xt" = Some xt /\
       leftmostBtih xt h /\
       (forall h', leftmostBtih xt h' -> h' = h) /\
       infoHash r = Some (toLowerCase h) /\
       sources r = List.filter JS.truthy
                     (URLSearchParams.getAll (URLSearchParams.create body) "tr")) /\
  (forall h trackers,
     String.length h = 40%nat -> allChars JS.isHexDigit h = true ->
     Forall plainComponent trackers ->
     parseMagnetUri (Some (buildMagnetUri h trackers))
     = Some (mkParsedMagnet (Some (toLowerCase h)) (List.filter JS.truthy trackers))).
Proof.
  split; [reflexivity|]. split; [|split; [|split]].
  - intros uri Hp. unfold parseMagnetUri. rewrite Hp, orb_true_r. reflexivity.
  - intros body. rewrite parseMagnetUri_body.
    destruct (URLSearchParams.get (URLSearchParams.create body) "xt") as [xt|]; cbn [mbind option_bind].
    + destruct (matchBtih xt) as [h|] eqn:Hm.
      * split; [discriminate|]. intros H. exfalso.
        apply (H xt h eq_refl). apply matchBtih_sound. assumption.
      * split; [|reflexivity]. intros _ xt' h [= <-] Hholds.
        destruct (matchBtih_complete xt h Hholds) as [h' Hh']. congruence.
    + split; [|reflexivity]. intros _ xt h. discriminate.
  - intros body r. rewrite parseMagnetUri_body.
    destruct (URLSearchParams.get (URLSearchParams.create body) "xt") as [xt|];
      cbn [mbind option_bind]; [|discriminate].
    destruct (matchBtih xt) as [h|] eqn:Hm; [|discriminate].
    intros [= <-]. exists xt, h. apply matchBtih_leftmost in Hm.
    split; [reflexivity|]. split; [exact Hm|]. split; [|split; reflexivity].
    intros h' Hh'. apply (leftmostBtih_unique xt h' h Hh' Hm).
  - apply parseMagnetUri_roundtrip.
Qed.

Lemma parseMagnetUri_contract_witness :
  parseMagnetUri (Some "x-magnet:?xt=urn:btih:0123456789abcdef0123456789abcdef01234567") = None
  /\ parseMagnetUri
       (Some (buildMagnetUri "0123456789ABCDEF0123456789abcdef01234567" ["udp://a"; ""; "b"]))
     = Some (mkParsedMagnet (Some "0123456789abcdef0123456789abcdef01234567") ["udp://a"; "b"]).
Proof.
  split.
  - apply (proj1 (proj2 parseMagnetUri_contract)). reflexivity.
  - apply (proj2 (proj2 (proj2 (proj2 parseMagnetUri_contract)))
             "0123456789ABCDEF0123456789abcdef01234567" ["udp://a"; ""; "b"]).
    + reflexivity.
    + reflexivity.
    + repeat constructor.
Defined.

(** A tracker given twice comes out twice. *)
Lemma parseMagnetUri_keeps_duplicates :
  parseMagnetUri
    (Some "magnet:?xt=urn:btih:0123456789abcdef0123456789abcdef01234567&tr=udp://a&tr=udp://a")
  = Some (mkParsedMagnet (Some "0123456789abcdef0123456789abcdef01234567")
            ["udp://a"; "udp://a"])
  /\ ~ NoDup ["udp://a"; "udp://a"].
Proof.
  split; [vm_compute; reflexivity|].
  intros H. inversion H as [|x l Hnotin _]; subst. apply Hnotin. apply list_elem_of_here.
Qed.
(** ** Query builder *)

(** Two digits at least: one digit gets a leading zero. *)
Lemma pad2_examples :
  pad2 1 = "01" /\ pad2 5 = "05" /\ pad2 12 = "12" /\ pad2 123 = "123" /\ pad2 0 = "00".
Proof. repeat split; reflexivity. Qed.

(** C8 (as amended): with a title from the lookup, a series request with
    season and episode is searched as "{baseQuery} S{season:02}E{episode:02}"
    (no space before the E), baseQuery being the title followed by the year
    when there is one; if that search returns nothing and the title is not
    empty, the backend is asked once more, with "{baseQuery} S{season:02}",
    and that answer is final, even when empty; otherwise it is asked only
    once. *)
Theorem fetchAndSearchTorrents_series_episode
    (world : SearchWorld) (config : Config) (key id : string) (d : TmdbDetails) (s e : Z) :
  present (tmdbApiKey config) = Some key ->
  getTmdbDetails world id key series = Some d ->
  let parsedId := mkParsedId id (Some s) (Some e) series in
  let baseQuery := baseQueryOf (tmdb_title d) (tmdb_year d) in
  let episodeQuery := baseQuery +:+ " S" +:+ pad2 s +:+ "E" +:+ pad2 e in
  let seasonQuery := baseQuery +:+ " S" +:+ pad2 s in
  let run := fetchAndSearchTorrents world parsedId config in
  head (queries run) = Some episodeQuery /\
  (bitmagnetSearch world 0 episodeQuery series = Returns [] ->
   JS.truthy (tmdb_title d) = true ->
   queries run = [episodeQuery; seasonQuery] /\
   outcome run =
     match bitmagnetSearch world 1 seasonQuery series with
     | Returns [] => Returns None
     | Returns again => Returns (Some (mkSearchResult again (Some (tmdb_title d))))
     | Throws => Throws
     end) /\
  (forall found, bitmagnetSearch world 0 episodeQuery series = Returns found ->
   found <> [] ->
   queries run = [episodeQuery] /\
   outcome run = Returns (Some (mkSearchResult found (Some (tmdb_title d))))) /\
  (bitmagnetSearch world 0 episodeQuery series = Throws ->
   queries run = [episodeQuery] /\ outcome run = Throws).
Proof.
  intros Hkey Hd parsedId baseQuery episodeQuery seasonQuery run.
  assert (Hrun : run =
    match bitmagnetSearch world 0 episodeQuery series with
    | Throws => mkSearchRun [episodeQuery] Throws
    | Returns searchResults =>
        match searchResults, present (Some (tmdb_title d)) with
        | [], Some t =>
            match bitmagnetSearch world 1 (baseQueryOf t (tmdb_year d) +:+ " S" +:+ pad2 s) series with
            | Throws => mkSearchRun [episodeQuery; baseQueryOf t (tmdb_year d) +:+ " S" +:+ pad2 s] Throws
            | Returns again =>
                mkSearchRun [episodeQuery; baseQueryOf t (tmdb_year d) +:+ " S" +:+ pad2 s]
                  (finishSearch again (Some (tmdb_title d)))
            end
        | _, _ => mkSearchRun [episodeQuery] (finishSearch searchResults (Some (tmdb_title d)))
        end
    end).
  { subst run. unfold fetchAndSearchTorrents. subst parsedId.
    cbn [imdbId season episode searchType isSeries]. rewrite Hkey, Hd.
    cbn [fmap option_fmap option_map mbind option_bind].
    fold baseQuery. fold episodeQuery.
    destruct (bitmagnetSearch world 0 episodeQuery series) as [[|x l]|]; reflexivity. }
  split; [|split; [|split]].
  - rewrite Hrun. destruct (bitmagnetSearch world 0 episodeQuery series) as [[|x l]|];
      [|reflexivity|reflexivity].
    destruct (present (Some (tmdb_title d))); [|reflexivity].
    destruct (bitmagnetSearch world 1 _ series); reflexivity.
  - intros Hempty Htitle. rewrite Hrun, Hempty. unfold present. rewrite Htitle.
    fold baseQuery. fold seasonQuery.
    destruct (bitmagnetSearch world 1 seasonQuery series) as [[|x l]|]; split; reflexivity.
  - intros found Hfound Hne. rewrite Hrun, Hfound.
    destruct found as [|x l]; [contradiction|]. split; reflexivity.
  - intros Hthrows. rewrite Hrun, Hthrows. split; reflexivity.
Qed.

Lemma fetchAndSearchTorrents_series_episode_witness :
  head (queries (fetchAndSearchTorrents seasonOnlyWorld episodeRequest
                   (sampleConfig (Some "key") None)))
  = Some "X 2020 S01E05".
Proof.
  apply (fetchAndSearchTorrents_series_episode seasonOnlyWorld
           (sampleConfig (Some "key") None) "key" "tt0111161"
           (mkTmdb "X" (Some 2020%Z)) 1 5); reflexivity.
Defined.

(** The query that is sent has no space between season and episode. *)
Lemma fetchAndSearchTorrents_query_without_space :
  queries (fetchAndSearchTorrents emptyWorld episodeRequest (sampleConfig (Some "key") None))
  = ["X 2020 S01E05"; "X 2020 S01"]
  /\ specEpisodeQuery "X" (Some 2020%Z) 1 5 = "X 2020 S01 E05"
  /\ "X 2020 S01E05" <> "X 2020 S01 E05".
Proof. repeat split; try reflexivity. discriminate. Qed.
(** ** Insertion-ordered maps *)

Section MapFacts.
Context {K V : Type} `{EqDecision K}.
Implicit Types (m entries : list (K * V)) (k : K) (v : V).

Lemma mapSet_keys m k v :
  map fst (mapSet m k v)
  = if bool_decide (k ∈ map fst m) then map fst m else (map fst m ++ [k])%list.
Proof.
  induction m as [|[k' v'] m IH]; cbn [mapSet map fst].
  - rewrite bool_decide_eq_false_2 by apply not_elem_of_nil. reflexivity.
  - destruct (decide (k = k')) as [->|Hne]; cbn [map fst].
    + rewrite bool_decide_eq_true_2 by apply list_elem_of_here. reflexivity.
    + rewrite IH. destruct (decide (k ∈ map fst m)) as [Hin|Hnin].
      * rewrite !bool_decide_eq_true_2; [reflexivity | | assumption].
        apply list_elem_of_further. assumption.
      * rewrite !bool_decide_eq_false_2; [reflexivity | | assumption].
        intros [?|?]%elem_of_cons; contradiction.
Qed.

Lemma mapSet_NoDup m k v : NoDup (map fst m) -> NoDup (map fst (mapSet m k v)).
Proof.
  intros Hnd. rewrite mapSet_keys. case_bool_decide as Hin; [assumption|].
  apply NoDup_app. split; [assumption|]. split.
  - intros x Hx Hx'. apply list_elem_of_singleton in Hx'. subst x. contradiction.
  - apply NoDup_singleton.
Qed.

Lemma elem_of_keys m k v : (k, v) ∈ m -> k ∈ map fst m.
Proof.
  intros Hin. apply list_elem_of_In, in_map_iff. exists (k, v).
  split; [reflexivity | apply list_elem_of_In; assumption].
Qed.

Lemma mapSet_elem m k v k' v' :
  NoDup (map fst m) ->
  (k', v') ∈ mapSet m k v <-> (k' = k /\ v' = v) \/ (k' <> k /\ (k', v') ∈ m).
Proof.
  induction m as [|[k0 v0] m IH]; cbn [mapSet map fst]; intros Hnd.
  - rewrite list_elem_of_singleton. split.
    + intros [= -> ->]. auto.
    + intros [[-> ->]|[_ Hin]]; [reflexivity | inversion Hin].
  - apply NoDup_cons in Hnd as [Hk0 Hnd]. destruct (decide (k = k0)) as [->|Hne].
    + rewrite !elem_of_cons. split.
      * intros [[= -> ->]|Hin]; [auto|]. right. split; [|auto].
        intros ->. apply Hk0. eapply elem_of_keys. eassumption.
      * intros [[-> ->]|[Hne [[= -> ->]|Hin]]]; auto. contradiction.
    + rewrite !elem_of_cons, (IH Hnd). split.
      * intros [[= -> ->]|[[-> ->]|[Hne' Hin]]]; auto.
      * intros [[-> ->]|[Hne' [[= -> ->]|Hin]]]; auto.
Qed.

Lemma newMap_snoc entries k v : newMap (entries ++ [(k, v)]) = mapSet (newMap entries) k v.
Proof. unfold newMap. rewrite foldl_snoc. reflexivity. Qed.

Lemma newMap_NoDup entries : NoDup (map fst (newMap entries)).
Proof.
  induction entries as [|[k v] entries IH] using rev_ind.
  - apply NoDup_nil_2.
  - rewrite newMap_snoc. apply mapSet_NoDup. assumption.
Qed.

Lemma firstOccurrencesFrom_elem (seen l : list K) (x : K) :
  x ∈ firstOccurrencesFrom seen l <-> x ∈ l /\ x ∉ seen.
Proof.
  revert seen. induction l as [|y l IH]; intros seen; cbn [firstOccurrencesFrom].
  - split; [intros Hin; inversion Hin | intros [Hin _]; inversion Hin].
  - case_bool_decide as Hy.
    + rewrite IH, elem_of_cons. split; [intros [? ?]; auto|].
      intros [[->|Hin] Hns]; [contradiction | auto].
    + rewrite !elem_of_cons, IH, not_elem_of_cons. split.
      * intros [->|[Hin [Hne Hns]]]; auto.
      * intros [[->|Hin] Hns]; [auto|].
        destruct (decide (x = y)) as [->|Hne]; auto.
Qed.

Lemma firstOccurrencesFrom_snoc (seen l : list K) (x : K) :
  firstOccurrencesFrom seen (l ++ [x])
  = if bool_decide (x ∈ seen \/ x ∈ l) then firstOccurrencesFrom seen l
    else (firstOccurrencesFrom seen l ++ [x])%list.
Proof.
  revert seen. induction l as [|y l IH]; intros seen; cbn [app firstOccurrencesFrom].
  - case_bool_decide as Hx.
    + rewrite bool_decide_eq_true_2 by auto. reflexivity.
    + rewrite bool_decide_eq_false_2; [reflexivity|].
      intros [?|Hin]; [contradiction | inversion Hin].
  - case_bool_decide as Hy; rewrite IH.
    + apply (f_equal (fun b : bool => if b then _ else _)). apply bool_decide_ext.
      rewrite elem_of_cons. split; [tauto|]. intros [?|[->|?]]; auto.
    + rewrite (bool_decide_ext (x ∈ y :: seen \/ x ∈ l) (x ∈ seen \/ x ∈ y :: l)).
      * case_bool_decide; reflexivity.
      * rewrite !elem_of_cons. tauto.
Qed.

(** The keys of a [Map] come in the order of their first insertion. *)
Lemma newMap_keys entries : map fst (newMap entries) = firstOccurrences (map fst entries).
Proof.
  unfold firstOccurrences. induction entries as [|[k v] entries IH] using rev_ind.
  - reflexivity.
  - rewrite newMap_snoc, mapSet_keys, map_app, IH. cbn [map fst].
    rewrite firstOccurrencesFrom_snoc.
    apply (f_equal (fun b : bool => if b then _ else _)). apply bool_decide_ext.
    rewrite firstOccurrencesFrom_elem. split.
    + intros [Hin _]. auto.
    + intros [Hin|Hin]; [inversion Hin|]. split; [assumption | apply not_elem_of_nil].
Qed.

(** The value of a key is the one written last. *)
Lemma newMap_last entries k v : (k, v) ∈ newMap entries <-> lastEntry entries k v.
Proof.
  revert k v. induction entries as [|[k0 v0] entries IH] using rev_ind; intros k v.
  - split; [intros Hin; inversion Hin|].
    intros (before & after & E & _). destruct before; discriminate.
  - rewrite newMap_snoc, (mapSet_elem _ _ _ _ _ (newMap_NoDup entries)), IH. split.
    + intros [[-> ->]|[Hne (before & after & -> & Hnin)]].
      * exists entries, []. split; [reflexivity | apply not_elem_of_nil].
      * exists before, (after ++ [(k0, v0)])%list. split.
        -- rewrite <- app_assoc. reflexivity.
        -- rewrite map_app. cbn [map fst]. rewrite not_elem_of_app. split; [assumption|].
           intros Hin%list_elem_of_singleton. contradiction.
    + intros (before & after & E & Hnin).
      destruct after as [|[k1 v1] after _] using rev_ind.
      * apply app_inj_tail in E as [_ [= -> ->]]. auto.
      * rewrite app_comm_cons, app_assoc in E. apply app_inj_tail in E as [-> [= -> ->]].
        rewrite map_app in Hnin. cbn [map fst] in Hnin.
        apply not_elem_of_app in Hnin as [Hnin Hne]. right. split.
        -- intros ->. apply Hne. apply list_elem_of_here.
        -- exists before, after. auto.
Qed.

End MapFacts.
(** ** Cache-status reconciliation *)

(** Whatever way the lookup fails, the function returns, with the map it
    prepared before the request. *)
Lemma checkPremiumizeCacheBulk_failed (apiKey : string) (infoHashes : list string)
    (answer : FetchOutcome) :
  lookupFailed infoHashes answer ->
  checkPremiumizeCacheBulk apiKey infoHashes answer = allNotCached infoHashes.
Proof.
  intros Hfail. unfold checkPremiumizeCacheBulk, allNotCached.
  destruct infoHashes as [|hash hashes]; [reflexivity|].
  set (results := foldl _ ∅ (hash :: hashes)).
  destruct Hfail as [ | body | | | data Hdata | members Hstatus | members Hresp
                    | members items Hresp Hlen ]; try reflexivity.
  - destruct data; try reflexivity. exfalso. eapply Hdata. reflexivity.
  - destruct (member members "status") as [[| | |status| |]|]; try reflexivity.
    destruct (member members "response") as [[| | | |response|]|]; try reflexivity.
    destruct (String.eqb_spec status "success") as [->|Hne]; [|reflexivity].
    contradiction Hstatus. reflexivity.
  - destruct (member members "status") as [[| | |status| |]|]; try reflexivity.
    destruct (member members "response") as [[| | | |response|]|]; try reflexivity.
    exfalso. eapply Hresp. reflexivity.
  - rewrite Hresp.
    destruct (member members "status") as [[| | |status| |]|]; try reflexivity.
    destruct (Nat.eqb_spec (length items) (length (hash :: hashes))) as [E|_];
      [contradiction|].
    rewrite andb_false_r. reflexivity.
Qed.

Lemma allNotCached_lookup (infoHashes : list string) (hash : string)
    (status : PremiumizeCacheStatus) :
  allNotCached infoHashes !! hash = Some status -> status = notCached.
Proof.
  unfold allNotCached.
  assert (Hgen : forall (m : gmap string PremiumizeCacheStatus),
             (forall st, m !! hash = Some st -> st = notCached) ->
             forall st, foldl (fun r h => <[h := notCached]> r) m infoHashes !! hash = Some st ->
                        st = notCached).
  { induction infoHashes as [|h hs IH]; intros m Hm st; cbn [foldl]; [apply Hm|].
    apply IH. intros st'. destruct (decide (h = hash)) as [->|Hne].
    - rewrite lookup_insert_eq. congruence.
    - rewrite lookup_insert_ne by assumption. apply Hm. }
  apply Hgen. intros st. rewrite lookup_empty. discriminate.
Qed.

(** A lookup that does not fail in one of these ways reaches the loop
    over the answers. *)
Lemma lookup_fails_or_answers (infoHashes : list string) (answer : FetchOutcome) :
  lookupFailed infoHashes answer \/
  exists members response,
    answer = Responds true (BodyJson (JObject members)) /\
    member members "status" = Some (JString "success") /\
    member members "response" = Some (JArray response) /\
    length response = length infoHashes.
Proof.
  destruct answer as [|[] [| |data]]; try solve [left; constructor].
  destruct data as [| | | | |members];
    try (left; apply not_an_object; intros members; discriminate).
  destruct (member members "status") as [[| | |status| |]|] eqn:Hs;
    try (left; apply status_not_success; rewrite Hs; discriminate).
  destruct (String.eqb_spec status "success") as [->|Hne];
    [|left; apply status_not_success; rewrite Hs; congruence].
  destruct (member members "response") as [[| | | |response|]|] eqn:Hr;
    try (left; apply response_not_an_array; rewrite Hr; intros items; discriminate).
  destruct (decide (length response = length infoHashes)) as [Hl|Hl].
  - right. exists members, response. repeat split; assumption.
  - left. eapply response_length_mismatch; eassumption.
Qed.

(** Arrival order only permutes the settled promises. *)
Lemma insertByArrival_Permutation {A : Type} (x : nat * A) (l : list (nat * A)) :
  insertByArrival x l ≡ₚ x :: l.
Proof.
  induction l as [|y l IH]; cbn [insertByArrival]; [reflexivity|].
  destruct (fst x <=? fst y)%nat; [reflexivity|].
  rewrite IH. apply Permutation_swap.
Qed.

Lemma inArrivalOrder_Permutation {A : Type} (l : list (nat * A)) : inArrivalOrder l ≡ₚ l.
Proof.
  unfold inArrivalOrder. induction l as [|x l IH]; cbn [foldr]; [reflexivity|].
  rewrite insertByArrival_Permutation, IH. reflexivity.
Qed.

(** With no hash reported as cached, the loop sends every torrent to the
    fallback list. *)
Lemma partitionTorrents_nothing_cached (config : Config)
    (results : gmap string PremiumizeCacheStatus) (searchResults : list TorrentInfo.t) :
  (forall hash status, results !! hash = Some status -> isCached status = false) ->
  partitionTorrents config results searchResults = mkPartition [] searchResults.
Proof.
  intros Hnone. unfold partitionTorrents.
  assert (Hgen : forall p,
             foldl (classify config results) p searchResults
             = mkPartition (premiumizeCandidates p) (fallbackTorrents p ++ searchResults)).
  { induction searchResults as [|t ts IH]; intros p; cbn [foldl].
    - rewrite app_nil_r. destruct p; reflexivity.
    - rewrite IH. unfold classify.
      destruct (present (premiumizeApiKey config));
        [destruct (present (infoHashOf t)) as [hash|];
         [destruct (results !! hash) as [status|] eqn:Hl;
          [rewrite (Hnone hash status Hl)|]|]|];
        cbn [andb premiumizeCandidates fallbackTorrents]; rewrite <- app_assoc; reflexivity. }
  rewrite Hgen. reflexivity.
Qed.

Lemma premiumizeResults_failed (world : StreamWorld) (config : Config)
    (searchResults : list TorrentInfo.t) :
  (forall key hashes, lookupFailed hashes (cacheCheck world key hashes)) ->
  forall hash status,
    premiumizeResults world config searchResults !! hash = Some status ->
    isCached status = false.
Proof.
  intros Hfail hash status. unfold premiumizeResults.
  destruct (present (premiumizeApiKey config)) as [key|];
    [|rewrite lookup_empty; discriminate].
  destruct (omap (fun t => present (infoHashOf t)) searchResults) as [|h hs] eqn:Hh;
    [rewrite lookup_empty; discriminate|].
  rewrite (checkPremiumizeCacheBulk_failed key _ _ (Hfail key (h :: hs))).
  intros Hl. rewrite (allNotCached_lookup _ _ _ Hl). reflexivity.
Qed.

(** What a fallback stream is made of. *)
Lemma fallbackStream_shape (mathFloorLog : Z -> Z) (world : StreamWorld)
    (parsedId : ParsedId) (torrent : TorrentInfo.t) (s : Stream.t) :
  fallbackStream mathFloorLog world parsedId torrent = Some s ->
  Stream.name s = "[TORRENT] FW Bitmagnet" /\ Stream.url s = None /\
  JS.truthy (Stream.title s) = true /\
  Stream.infoHash s = present (infoHashOf torrent).
Proof.
  unfold fallbackStream, infoHashOf.
  destruct (present (TorrentInfo.magnetUrl torrent)) as [magnetUrl|] eqn:Hm.
  - assert (Hurl : TorrentInfo.magnetUrl torrent = Some magnetUrl).
    { unfold present in Hm. destruct (TorrentInfo.magnetUrl torrent) as [u|]; [|discriminate].
      destruct (JS.truthy u); congruence. }
    rewrite Hurl. destruct (parseMagnetUri (Some magnetUrl)) as [pm|]; [|discriminate].
    cbn [mbind option_bind id].
    destruct (negb _ && negb _); [discriminate|]. intros [= <-].
    cbn [Stream.name Stream.url Stream.title Stream.infoHash]. repeat split.
    destruct (orElse _ _); reflexivity.
  - cbn [mbind option_bind].
    assert (Hnone : present (parseMagnetUri (TorrentInfo.magnetUrl torrent) ≫= infoHash) = None).
    { unfold present in Hm. destruct (TorrentInfo.magnetUrl torrent) as [u|]; [|reflexivity].
      destruct u; [reflexivity | discriminate]. }
    rewrite Hnone.
    destruct (negb _ && negb _); [discriminate|]. intros [= <-].
    cbn [Stream.name Stream.url Stream.title Stream.infoHash]. repeat split.
    destruct (orElse _ _); reflexivity.
Qed.

Lemma uniqueByInfoHash_elem (streams : list Stream.t) (s : Stream.t) :
  s ∈ uniqueByInfoHash streams <->
  lastEntry (map (fun s => (Stream.infoHash s, s)) streams) (Stream.infoHash s) s.
Proof.
  unfold uniqueByInfoHash. rewrite <- newMap_last. split.
  - intros Hin. apply list_elem_of_In, in_map_iff in Hin as ([k s'] & Hs & Hin).
    cbn in Hs. subst s'. apply list_elem_of_In in Hin.
    assert (Hk : k = Stream.infoHash s).
    { apply newMap_last in Hin as (before & after & E & _).
      assert (Hmem : In (k, s) (map (fun s => (Stream.infoHash s, s)) streams))
        by (rewrite E; apply in_or_app; right; left; reflexivity).
      apply in_map_iff in Hmem as (s' & [= <- <-] & _). reflexivity. }
    rewrite <- Hk. assumption.
  - intros Hin. apply list_elem_of_In, in_map_iff. exists (Stream.infoHash s, s).
    split; [reflexivity | apply list_elem_of_In; assumption].
Qed.

Lemma lastEntry_elem (streams : list Stream.t) (s : Stream.t) :
  lastEntry (map (fun s => (Stream.infoHash s, s)) streams) (Stream.infoHash s) s ->
  s ∈ streams.
Proof.
  intros (before & after & E & _). apply list_elem_of_In.
  assert (Hmem : In (Stream.infoHash s, s) (map (fun s => (Stream.infoHash s, s)) streams))
    by (rewrite E; apply in_or_app; right; left; reflexivity).
  apply in_map_iff in Hmem as (s' & [= _ <-] & Hin). assumption.
Qed.

(** When the lookup fails, no promise is started: the run is the torrent
    way alone. *)
Lemma synthesize_lookup_failed (mathFloorLog : Z -> Z) (world : StreamWorld)
    (searchResults : list TorrentInfo.t) (parsedId : ParsedId)
    (tmdbTitle : option string) (config : Config) :
  (forall key hashes, lookupFailed hashes (cacheCheck world key hashes)) ->
  synthesize mathFloorLog world searchResults parsedId tmdbTitle config
  = mkSynthesis (mkPartition [] searchResults) [] searchResults
      (omap (fallbackStream mathFloorLog world parsedId) searchResults)
      (uniqueByInfoHash (omap (fallbackStream mathFloorLog world parsedId) searchResults))
      (uniqueByInfoHash (omap (fallbackStream mathFloorLog world parsedId) searchResults)).
Proof.
  intros Hfail. unfold synthesize. cbv zeta.
  rewrite (partitionTorrents_nothing_cached config _ searchResults
             (premiumizeResults_failed world config searchResults Hfail)).
  cbn [premiumizeCandidates fallbackTorrents imap omap list_omap inArrivalOrder foldr app].
  rewrite app_nil_r. reflexivity.
Qed.

(** ** Final assembly and deduplication *)

Lemma repeatedHashRun_streams :
  fallbackStreams repeatedHashRun
  = [sampleStream "first" sampleHash1; sampleStream "other" sampleHash2;
     sampleStream "second" sampleHash1]
  /\ uniqueFallbackStreams repeatedHashRun
     = [sampleStream "second" sampleHash1; sampleStream "other" sampleHash2]
  /\ createStreamsFromTorrents exactFloorLog offlineWorld
       [sampleTorrent "first" sampleHash1; sampleTorrent "other" sampleHash2;
        sampleTorrent "second" sampleHash1]
       movieRequest None (sampleConfig None None)
     = [sampleStream "second" sampleHash1; sampleStream "other" sampleHash2].
Proof. repeat split; vm_compute; reflexivity. Qed.

(** The deduplicated torrent streams are not in the order in which they
    were built: the stream kept for a repeated hash is the last one built,
    and it stands where the first one stood. *)
Lemma unique_streams_not_in_built_order :
  createStreamsFromTorrents exactFloorLog offlineWorld
    [sampleTorrent "first" sampleHash1; sampleTorrent "other" sampleHash2;
     sampleTorrent "second" sampleHash1]
    movieRequest None (sampleConfig None None)
  = uniqueFallbackStreams repeatedHashRun
  /\ ~ sublist (uniqueFallbackStreams repeatedHashRun) (fallbackStreams repeatedHashRun).
Proof.
  destruct repeatedHashRun_streams as (Hbuilt & Hunique & Hout).
  rewrite Hout, Hunique, Hbuilt. split; [reflexivity|].
  intros H.
  inversion H as [| x l1 l2 H1 | x l1 l2 H1]; subst; clear H.
  inversion H1 as [| x l1 l2 H2 | x l1 l2 H2]; subst; clear H1.
  inversion H2 as [| x l1 l2 H3 | x l1 l2 H3]; subst; clear H2.
  - inversion H3.
  - inversion H3.
Qed.

Lemma truthy_append_char (a b : string) (c : ascii) : JS.truthy (a +:+ String c b) = true.
Proof. destruct a; reflexivity. Qed.

Lemma present_Some (s : option string) (v : string) :
  present s = Some v -> s = Some v /\ JS.truthy v = true.
Proof.
  unfold present. destruct s as [u|]; [|discriminate].
  destruct (JS.truthy u) eqn:Hu; [|discriminate]. intros [= <-]. auto.
Qed.

Lemma present_idem (s : option string) : present (present s) = present s.
Proof.
  unfold present. destruct s as [u|]; [|reflexivity].
  destruct (JS.truthy u) eqn:Hu; [rewrite Hu|]; reflexivity.
Qed.

(** A direct stream has a link and no info hash. *)
Lemma processPremiumizeCandidate_shape (mathFloorLog : Z -> Z) (world : StreamWorld)
    (k : nat) (config : Config) (torrent : TorrentInfo.t)
    (cacheStatus : PremiumizeCacheStatus) (parsedId : ParsedId)
    (tmdbTitle : option string) (s : Stream.t) :
  snd (processPremiumizeCandidate mathFloorLog world k config torrent cacheStatus
         parsedId tmdbTitle) = Some s ->
  is_Some (present (Stream.url s)) /\ Stream.infoHash s = None.
Proof.
  unfold processPremiumizeCandidate.
  destruct (present (infoHashOf torrent)) as [hash|]; [|discriminate].
  destruct (present (TorrentInfo.magnetUrl torrent)) as [magnetUrl|]; [|discriminate].
  cbn [snd].
  destruct (present (link _)) as [directLink|] eqn:Hlink; [|discriminate].
  intros [= <-]. cbn [Stream.url Stream.infoHash]. split; [|reflexivity].
  apply present_Some in Hlink as [_ Hlink]. unfold present. rewrite Hlink. eauto.
Qed.

Lemma omap_imap_snd {A B C D : Type} (g : nat -> A -> B * (D * option C)) (l : list A) :
  omap (fun r => snd (snd r)) (imap g l) = omap id (imap (fun k c => snd (snd (g k c))) l).
Proof.
  revert g. induction l as [|x l IH]; intros g; cbn [imap omap list_omap]; [reflexivity|].
  rewrite IH. reflexivity.
Qed.

Lemma premiumizeStreams_shape (mathFloorLog : Z -> Z) (world : StreamWorld)
    (searchResults : list TorrentInfo.t) (parsedId : ParsedId)
    (tmdbTitle : option string) (config : Config) (s : Stream.t) :
  s ∈ premiumizeStreams (synthesize mathFloorLog world searchResults parsedId tmdbTitle config) ->
  is_Some (present (Stream.url s)) /\ Stream.infoHash s = None.
Proof.
  unfold synthesize. cbn [premiumizeStreams]. intros Hin.
  apply list_elem_of_omap in Hin as ([a [t o]] & Hin & Hs). cbn [snd] in Hs. subst o.
  apply list_elem_of_lookup in Hin as [k Hk].
  rewrite list_lookup_imap in Hk.
  destruct (premiumizeCandidates _ !! k) as [c|]; [|discriminate].
  cbn in Hk. injection Hk as _ _ Hk.
  eapply processPremiumizeCandidate_shape. exact Hk.
Qed.

Lemma fallbackStreams_shape (mathFloorLog : Z -> Z) (world : StreamWorld)
    (searchResults : list TorrentInfo.t) (parsedId : ParsedId)
    (tmdbTitle : option string) (config : Config) (s : Stream.t) :
  s ∈ fallbackStreams (synthesize mathFloorLog world searchResults parsedId tmdbTitle config) ->
  Stream.name s = "[TORRENT] FW Bitmagnet" /\ Stream.url s = None /\
  JS.truthy (Stream.title s) = true /\
  present (Stream.infoHash s) = Stream.infoHash s.
Proof.
  unfold synthesize. cbn [fallbackStreams]. intros Hin.
  apply list_elem_of_omap in Hin as (t & _ & Ht).
  apply fallbackStream_shape in Ht as (Hname & Hurl & Htitle & Hhash).
  rewrite Hhash, present_idem. auto.
Qed.

Lemma filter_all {A : Type} (p : A -> bool) (l : list A) :
  (forall x, x ∈ l -> p x = true) -> List.filter p l = l.
Proof.
  induction l as [|x l IH]; intros Hall; cbn [List.filter]; [reflexivity|].
  rewrite (Hall x (list_elem_of_here _ _)), IH; [reflexivity|].
  intros y Hy. apply Hall. apply list_elem_of_further. assumption.
Qed.

Lemma filter_none {A : Type} (p : A -> bool) (l : list A) :
  (forall x, x ∈ l -> p x = false) -> List.filter p l = [].
Proof.
  induction l as [|x l IH]; intros Hall; cbn [List.filter]; [reflexivity|].
  rewrite (Hall x (list_elem_of_here _ _)), IH; [reflexivity|].
  intros y Hy. apply Hall. apply list_elem_of_further. assumption.
Qed.

Lemma infoHashEntries_keys (streams : list Stream.t) :
  map fst (infoHashEntries streams) = map Stream.infoHash streams.
Proof. unfold infoHashEntries. rewrite map_map. reflexivity. Qed.

Lemma newMap_entry_key (streams : list Stream.t) (k : option string) (s : Stream.t) :
  (k, s) ∈ newMap (infoHashEntries streams) -> k = Stream.infoHash s /\ s ∈ streams.
Proof.
  intros Hin. apply newMap_last in Hin as (before & after & E & _).
  assert (Hmem : In (k, s) (infoHashEntries streams))
    by (rewrite E; apply in_or_app; right; left; reflexivity).
  apply in_map_iff in Hmem as (s' & [= <- <-] & Hs). split; [reflexivity|].
  apply list_elem_of_In. assumption.
Qed.

(** One stream per info hash, the hashes in the order of their first
    occurrence. *)
Lemma uniqueByInfoHash_keys (streams : list Stream.t) :
  map Stream.infoHash (uniqueByInfoHash streams)
  = firstOccurrences (map Stream.infoHash streams).
Proof.
  rewrite <- (infoHashEntries_keys streams), <- newMap_keys. unfold uniqueByInfoHash.
  fold (infoHashEntries streams).
  assert (Hkeys : forall e, e ∈ newMap (infoHashEntries streams) ->
                            fst e = Stream.infoHash (snd e)).
  { intros [k s] Hin. apply (newMap_entry_key streams k s Hin). }
  induction (newMap (infoHashEntries streams)) as [|e m IH]; cbn [map]; [reflexivity|].
  rewrite (Hkeys e (list_elem_of_here _ _)), IH; [reflexivity|].
  intros e' He'. apply Hkeys. apply list_elem_of_further. assumption.
Qed.

Lemma uniqueByInfoHash_NoDup (streams : list Stream.t) :
  NoDup (map Stream.infoHash (uniqueByInfoHash streams)).
Proof.
  assert (E : map Stream.infoHash (uniqueByInfoHash streams)
              = map fst (newMap (infoHashEntries streams))).
  { rewrite uniqueByInfoHash_keys, <- (infoHashEntries_keys streams), newMap_keys.
    reflexivity. }
  rewrite E. apply newMap_NoDup.
Qed.

Lemma keepStream_direct (s : Stream.t) :
  is_Some (present (Stream.url s)) -> keepStream s = true.
Proof. intros H. unfold keepStream. rewrite bool_decide_eq_true_2 by assumption. reflexivity. Qed.

Lemma keepStream_invariant (s : Stream.t) :
  keepStream s = true ->
  is_Some (present (Stream.url s)) \/
  (is_Some (present (Stream.infoHash s)) /\ JS.truthy (Stream.title s) = true).
Proof.
  unfold keepStream. intros [Hurl|Htorrent]%orb_prop.
  - left. apply bool_decide_eq_true_1 in Hurl. assumption.
  - right. apply andb_prop in Htorrent as [[_ Hhash]%andb_prop Htitle].
    apply bool_decide_eq_true_1 in Hhash. auto.
Qed.

(** The final filter keeps every direct stream. *)
Lemma createStreams_split (mathFloorLog : Z -> Z) (world : StreamWorld)
    (searchResults : list TorrentInfo.t) (parsedId : ParsedId)
    (tmdbTitle : option string) (config : Config) :
  createStreamsFromTorrents mathFloorLog world searchResults parsedId tmdbTitle config
  = (premiumizeStreams (synthesize mathFloorLog world searchResults parsedId tmdbTitle config)
     ++ List.filter keepStream
          (uniqueFallbackStreams
             (synthesize mathFloorLog world searchResults parsedId tmdbTitle config)))%list.
Proof.
  unfold createStreamsFromTorrents.
  change (allStreams (synthesize mathFloorLog world searchResults parsedId tmdbTitle config))
    with (premiumizeStreams (synthesize mathFloorLog world searchResults parsedId tmdbTitle config)
          ++ uniqueFallbackStreams
               (synthesize mathFloorLog world searchResults parsedId tmdbTitle config))%list.
  rewrite List.filter_app. f_equal. apply filter_all.
  intros s Hs. apply keepStream_direct. apply (premiumizeStreams_shape _ _ _ _ _ _ s Hs).
Qed.

(** C2 (as amended): every stream emitted has a non-empty link, or a
    non-empty info hash and a title; what satisfies neither is filtered out;
    the output is the direct streams, in the order of their candidates
    whatever the order in which the links arrive, followed by the torrent
    streams that pass the filter, one per info hash, placed in the order in
    which the hashes first occur among the streams built, each being the last
    stream built for its hash. *)
Theorem createStreams_assembly (mathFloorLog : Z -> Z) (world : StreamWorld)
    (searchResults : list TorrentInfo.t) (parsedId : ParsedId)
    (tmdbTitle : option string) (config : Config) :
  let run := synthesize mathFloorLog world searchResults parsedId tmdbTitle config in
  let out :=
    createStreamsFromTorrents mathFloorLog world searchResults parsedId tmdbTitle config in
  (forall s, s ∈ out ->
     is_Some (present (Stream.url s)) \/
     (is_Some (present (Stream.infoHash s)) /\ JS.truthy (Stream.title s) = true)) /\
  (forall s, s ∈ allStreams run -> keepStream s = false -> s ∉ out) /\
  out = (premiumizeStreams run ++ List.filter keepStream (uniqueFallbackStreams run))%list /\
  premiumizeStreams run
  = omap id
      (imap (fun k c =>
               snd (processPremiumizeCandidate mathFloorLog world k config (fst c) (snd c)
                      parsedId tmdbTitle))
            (premiumizeCandidates (partition run))) /\
  (forall s, s ∈ premiumizeStreams run -> is_Some (present (Stream.url s))) /\
  map Stream.infoHash (uniqueFallbackStreams run)
  = firstOccurrences (map Stream.infoHash (fallbackStreams run)) /\
  (forall s, s ∈ uniqueFallbackStreams run <->
             lastEntry (infoHashEntries (fallbackStreams run)) (Stream.infoHash s) s).
Proof.
  intros run out.
  assert (Hout : out = List.filter keepStream (allStreams run)) by reflexivity.
  assert (Hall : allStreams run = (premiumizeStreams run ++ uniqueFallbackStreams run)%list)
    by reflexivity.
  assert (Hdirect : forall s, s ∈ premiumizeStreams run -> is_Some (present (Stream.url s))).
  { intros s Hs. apply (premiumizeStreams_shape _ _ _ _ _ _ s Hs). }
  split; [|split; [|split; [|split; [|split; [|split]]]]].
  - intros s Hs. rewrite Hout in Hs. apply list_elem_of_In, filter_In in Hs as [_ Hkeep].
    apply keepStream_invariant. assumption.
  - intros s _ Hdrop Hs. rewrite Hout in Hs. apply list_elem_of_In, filter_In in Hs as [_ Hkeep].
    congruence.
  - apply createStreams_split.
  - exact (omap_imap_snd
             (fun k c =>
                let r := processPremiumizeCandidate mathFloorLog world k config (fst c) (snd c)
                           parsedId tmdbTitle in
                (fst r, (fst c, snd r)))
             (premiumizeCandidates (partition run))).
  - exact Hdirect.
  - apply uniqueByInfoHash_keys.
  - intros s. apply uniqueByInfoHash_elem.
Qed.

Lemma createStreams_assembly_witness :
  is_Some (present (Stream.url (sampleStream "second" sampleHash1))) \/
  (is_Some (present (Stream.infoHash (sampleStream "second" sampleHash1))) /\
   JS.truthy (Stream.title (sampleStream "second" sampleHash1)) = true).
Proof.
  apply (proj1 (createStreams_assembly exactFloorLog offlineWorld
                  [sampleTorrent "first" sampleHash1; sampleTorrent "other" sampleHash2;
                   sampleTorrent "second" sampleHash1]
                  movieRequest None (sampleConfig None None))).
  vm_compute. apply list_elem_of_here.
Defined.

Lemma toLowerCase_truthy (s : string) : JS.truthy (toLowerCase s) = JS.truthy s.
Proof.
  destruct s as [|c [|d [|e r]]]; cbn [toLowerCase JS.truthy]; try reflexivity.
  destruct (_ && _); reflexivity.
Qed.

(** The info hash the parser gives is never empty. *)
Lemma parseMagnetUri_infoHash (magnetUri : option string) (pm : ParsedMagnetUri) :
  parseMagnetUri magnetUri = Some pm ->
  exists h, infoHash pm = Some h /\ JS.truthy h = true /\
            exists uri, magnetUri = Some uri /\ JS.truthy uri = true.
Proof.
  unfold parseMagnetUri. destruct magnetUri as [uri|]; [|discriminate].
  destruct (JS.truthy uri) eqn:Huri; [|discriminate]. cbn [negb orb].
  destruct (negb (JS.startsWith uri "magnet:?")); [discriminate|].
  destruct (URLSearchParams.get _ "xt") as [xt|]; [|discriminate]. cbn [mbind option_bind].
  destruct (matchBtih xt) as [hash|] eqn:Hm; [|discriminate].
  intros [= <-]. exists (toLowerCase hash). cbn [infoHash]. split; [reflexivity|].
  split; [|eauto]. rewrite toLowerCase_truthy.
  apply matchBtih_sound in Hm as (_ & _ & _ & Hlen & _). destruct hash; [discriminate|reflexivity].
Qed.

Lemma fallbackStream_of_hash (mathFloorLog : Z -> Z) (world : StreamWorld)
    (parsedId : ParsedId) (torrent : TorrentInfo.t) (h : string) :
  infoHashOf torrent = Some h ->
  exists s, fallbackStream mathFloorLog world parsedId torrent = Some s /\
            Stream.infoHash s = Some h.
Proof.
  unfold infoHashOf. intros Hh.
  destruct (parseMagnetUri (TorrentInfo.magnetUrl torrent)) as [pm|] eqn:Hp; [|discriminate].
  cbn [mbind option_bind] in Hh.
  destruct (parseMagnetUri_infoHash _ _ Hp) as (h' & Hh' & Htruthy & uri & Huri & Hnonempty).
  assert (h' = h) by congruence. subst h'.
  unfold fallbackStream. rewrite Huri in Hp |- *. cbv zeta.
  assert (Hpresent : present (Some uri) = Some uri)
    by (unfold present; rewrite Hnonempty; reflexivity).
  rewrite Hpresent, Hp. cbn [mbind option_bind id]. rewrite Hh. unfold present. rewrite Htruthy.
  rewrite (bool_decide_eq_true_2 (is_Some (Some h))) by eauto.
  rewrite andb_false_r. eexists. split; reflexivity.
Qed.

Lemma filter_by_key {A B : Type} `{EqDecision B} (key : A -> B) (l : list A) (s : A) :
  NoDup (map key l) -> s ∈ l ->
  List.filter (fun x => bool_decide (key x = key s)) l = [s].
Proof.
  induction l as [|x l IH]; intros Hnd Hin; [inversion Hin|].
  cbn [map] in Hnd. apply NoDup_cons in Hnd as [Hx Hnd]. cbn [List.filter].
  apply elem_of_cons in Hin as [->|Hin].
  - rewrite bool_decide_eq_true_2 by reflexivity. f_equal. apply filter_none.
    intros y Hy. apply bool_decide_eq_false_2. intros E. apply Hx. rewrite <- E.
    apply list_elem_of_In, in_map, list_elem_of_In. assumption.
  - rewrite bool_decide_eq_false_2; [apply IH; assumption|].
    intros E. apply Hx. rewrite E. apply list_elem_of_In, in_map, list_elem_of_In. assumption.
Qed.

Lemma filter_comm {A : Type} (p q : A -> bool) (l : list A) :
  List.filter p (List.filter q l) = List.filter q (List.filter p l).
Proof.
  induction l as [|x l IH]; [reflexivity|]. cbn [List.filter].
  destruct (p x) eqn:Hp, (q x) eqn:Hq; cbn [List.filter]; rewrite ?Hp, ?Hq, IH; reflexivity.
Qed.

(** C3 (as amended): for every fallback candidate with an info hash,
    exactly one torrent stream of the output carries that hash, however many
    fallback candidates share it; it is the last stream built for the hash,
    and the hashes keep the order of their first occurrence. *)
Theorem fallback_deduplication (mathFloorLog : Z -> Z) (world : StreamWorld)
    (searchResults : list TorrentInfo.t) (parsedId : ParsedId)
    (tmdbTitle : option string) (config : Config) (torrent : TorrentInfo.t) (h : string) :
  let run := synthesize mathFloorLog world searchResults parsedId tmdbTitle config in
  let out :=
    createStreamsFromTorrents mathFloorLog world searchResults parsedId tmdbTitle config in
  torrent ∈ allFallbackTorrents run ->
  infoHashOf torrent = Some h ->
  (exists s,
     List.filter (hasInfoHash h) out = [s] /\
     lastEntry (infoHashEntries (fallbackStreams run)) (Some h) s) /\
  map Stream.infoHash (uniqueFallbackStreams run)
  = firstOccurrences (map Stream.infoHash (fallbackStreams run)).
Proof.
  intros run out Hin Hh. split; [|apply uniqueByInfoHash_keys].
  destruct (fallbackStream_of_hash mathFloorLog world parsedId torrent h Hh) as (s0 & Hs0 & Hk0).
  assert (Hbuilt : s0 ∈ fallbackStreams run).
  { apply list_elem_of_omap. exists torrent. auto. }
  assert (Hkey : Some h ∈ map fst (newMap (infoHashEntries (fallbackStreams run)))).
  { rewrite newMap_keys. apply firstOccurrencesFrom_elem. split; [|apply not_elem_of_nil].
    rewrite infoHashEntries_keys, <- Hk0.
    apply list_elem_of_In, in_map, list_elem_of_In. assumption. }
  apply list_elem_of_In, in_map_iff in Hkey as ([k s] & Hk & Hentry). cbn [fst] in Hk. subst k.
  apply list_elem_of_In in Hentry.
  destruct (newMap_entry_key _ _ _ Hentry) as [Hks Hs].
  exists s. split; [|apply newMap_last; assumption].
  assert (Hunique : s ∈ uniqueFallbackStreams run).
  { apply uniqueByInfoHash_elem. rewrite <- Hks. apply newMap_last. assumption. }
  destruct (fallbackStreams_shape _ _ _ _ _ _ s Hs) as (Hname & _ & Htitle & Hpresent).
  assert (Hkeep : keepStream s = true).
  { unfold keepStream. rewrite Hname, Htitle, Hpresent, <- Hks.
    rewrite (bool_decide_eq_true_2 (is_Some (Some h))) by eauto.
    rewrite orb_true_r. reflexivity. }
  subst out. rewrite createStreams_split, List.filter_app. fold run.
  rewrite (filter_none (hasInfoHash h) (premiumizeStreams run)).
  - cbn [app]. rewrite filter_comm.
    assert (Hone : List.filter (hasInfoHash h) (uniqueFallbackStreams run) = [s]).
    { unfold hasInfoHash. rewrite Hks.
      apply (filter_by_key Stream.infoHash); [apply uniqueByInfoHash_NoDup | assumption]. }
    rewrite Hone. cbn [List.filter]. rewrite Hkeep. reflexivity.
  - intros d Hd. apply premiumizeStreams_shape in Hd as [_ Hnone].
    unfold hasInfoHash. rewrite Hnone. apply bool_decide_eq_false_2. discriminate.
Qed.

Lemma fallback_deduplication_witness :
  exists s,
    List.filter (hasInfoHash sampleHash1)
      (createStreamsFromTorrents exactFloorLog offlineWorld
         [sampleTorrent "first" sampleHash1; sampleTorrent "second" sampleHash1]
         movieRequest None (sampleConfig None None)) = [s]
    /\ lastEntry (infoHashEntries (fallbackStreams twinRun)) (Some sampleHash1) s.
Proof.
  apply (proj1 (fallback_deduplication exactFloorLog offlineWorld
                  [sampleTorrent "first" sampleHash1; sampleTorrent "second" sampleHash1]
                  movieRequest None (sampleConfig None None)
                  (sampleTorrent "first" sampleHash1) sampleHash1
                  ltac:(vm_compute; apply list_elem_of_here) ltac:(vm_compute; reflexivity))).
Defined.

(** Of two candidates with the same hash, the stream emitted is the one
    built from the second, not the first. *)
Lemma later_duplicate_is_kept :
  createStreamsFromTorrents exactFloorLog offlineWorld
    [sampleTorrent "first" sampleHash1; sampleTorrent "second" sampleHash1]
    movieRequest None (sampleConfig None None)
  = [sampleStream "second" sampleHash1]
  /\ keepFirstByInfoHash [] (fallbackStreams twinRun) = [sampleStream "first" sampleHash1]
  /\ sampleStream "second" sampleHash1 <> sampleStream "first" sampleHash1.
Proof. repeat split; try (vm_compute; reflexivity). discriminate. Qed.

(** ** Failure of the cache-status lookup *)

(** Every search result with an info hash gets a torrent stream with that
    hash. *)
Lemma fallbackStreams_hashes (mathFloorLog : Z -> Z) (world : StreamWorld)
    (parsedId : ParsedId) (searchResults : list TorrentInfo.t) :
  (forall torrent, torrent ∈ searchResults -> is_Some (infoHashOf torrent)) ->
  map Stream.infoHash (omap (fallbackStream mathFloorLog world parsedId) searchResults)
  = map infoHashOf searchResults.
Proof.
  induction searchResults as [|t ts IH]; intros Hall; [reflexivity|].
  destruct (Hall t (list_elem_of_here _ _)) as [h Hh].
  destruct (fallbackStream_of_hash mathFloorLog world parsedId t h Hh) as (s & Hs & Hk).
  cbn [omap list_omap map]. change (list_omap _ _ ?f ?l) with (omap f l).
  rewrite Hs. cbn [map]. rewrite Hk, Hh, IH; [reflexivity|].
  intros t' Ht'. apply Hall. apply list_elem_of_further. assumption.
Qed.

(** A torrent stream built from a search result with an info hash passes
    the final filter. *)
Lemma keepStream_torrent (s : Stream.t) (h : string) :
  Stream.name s = "[TORRENT] FW Bitmagnet" ->
  JS.truthy (Stream.title s) = true ->
  present (Stream.infoHash s) = Stream.infoHash s ->
  Stream.infoHash s = Some h ->
  keepStream s = true.
Proof.
  intros Hname Htitle Hpresent Hk. unfold keepStream.
  rewrite Hname, Htitle, Hpresent, Hk.
  rewrite (bool_decide_eq_true_2 (is_Some (Some h))) by eauto.
  rewrite orb_true_r. reflexivity.
Qed.

(** C1: when the bulk cache-status lookup fails entirely, the reconciler
    still returns, with every hash marked as not cached: no candidate is kept
    for a direct link and no DirectVariant is produced or emitted; the
    fallback list is the whole list of search results; every stream returned
    is a TorrentVariant; every search result with an info hash has a
    TorrentVariant with its hash among the streams returned; and when all of
    them have one, the hashes of the streams returned are those of the search
    results, each once, in the order of their first occurrence. *)
Theorem cache_lookup_failure_falls_back (mathFloorLog : Z -> Z) (world : StreamWorld)
    (searchResults : list TorrentInfo.t) (parsedId : ParsedId)
    (tmdbTitle : option string) (config : Config) :
  let run := synthesize mathFloorLog world searchResults parsedId tmdbTitle config in
  let out :=
    createStreamsFromTorrents mathFloorLog world searchResults parsedId tmdbTitle config in
  (forall key hashes, lookupFailed hashes (cacheCheck world key hashes)) ->
  (forall key hashes,
     checkPremiumizeCacheBulk key hashes (cacheCheck world key hashes)
     = allNotCached hashes) /\
  premiumizeCandidates (partition run) = [] /\
  premiumizeStreams run = [] /\
  allFallbackTorrents run = searchResults /\
  (forall s, s ∈ out ->
     Stream.url s = None /\ Stream.name s = "[TORRENT] FW Bitmagnet") /\
  (forall torrent h,
     torrent ∈ searchResults -> infoHashOf torrent = Some h ->
     exists s, s ∈ out /\ Stream.infoHash s = Some h /\ Stream.url s = None /\
               Stream.name s = "[TORRENT] FW Bitmagnet") /\
  ((forall torrent, torrent ∈ searchResults -> is_Some (infoHashOf torrent)) ->
   map Stream.infoHash out = firstOccurrences (map infoHashOf searchResults)).
Proof.
  intros run out Hfail.
  pose proof (synthesize_lookup_failed mathFloorLog world searchResults parsedId tmdbTitle
                config Hfail) as Hrun.
  fold run in Hrun.
  assert (Hsplit : out = List.filter keepStream (uniqueFallbackStreams run)).
  { unfold out. rewrite createStreams_split. fold run. rewrite Hrun. reflexivity. }
  assert (Hshape : forall s, s ∈ uniqueFallbackStreams run ->
            Stream.name s = "[TORRENT] FW Bitmagnet" /\ Stream.url s = None /\
            JS.truthy (Stream.title s) = true /\
            present (Stream.infoHash s) = Stream.infoHash s).
  { intros s Hs. apply (fallbackStreams_shape mathFloorLog world searchResults parsedId
                          tmdbTitle config).
    fold run. revert Hs. rewrite Hrun. cbn [uniqueFallbackStreams fallbackStreams].
    intros Hs. apply uniqueByInfoHash_elem, lastEntry_elem in Hs. assumption. }
  split; [|split; [|split; [|split; [|split; [|split]]]]].
  - intros key hashes. apply checkPremiumizeCacheBulk_failed, Hfail.
  - rewrite Hrun. reflexivity.
  - rewrite Hrun. reflexivity.
  - rewrite Hrun. reflexivity.
  - intros s Hs. rewrite Hsplit in Hs. apply list_elem_of_In, filter_In in Hs as [Hs _].
    apply list_elem_of_In, Hshape in Hs as (Hname & Hurl & _). auto.
  - intros torrent h Hin Hh.
    destruct (fallbackStream_of_hash mathFloorLog world parsedId torrent h Hh)
      as (s0 & Hs0 & Hk0).
    assert (Hbuilt : s0 ∈ fallbackStreams run).
    { rewrite Hrun. cbn [fallbackStreams]. apply list_elem_of_omap. exists torrent. auto. }
    assert (Hkey : Some h ∈ map Stream.infoHash (uniqueFallbackStreams run)).
    { rewrite Hrun. cbn [uniqueFallbackStreams]. rewrite uniqueByInfoHash_keys.
      apply firstOccurrencesFrom_elem. split; [|apply not_elem_of_nil].
      rewrite <- Hk0. apply list_elem_of_In, in_map, list_elem_of_In.
      rewrite Hrun in Hbuilt. exact Hbuilt. }
    apply list_elem_of_In, in_map_iff in Hkey as (s & Hk & Hs).
    apply list_elem_of_In in Hs.
    destruct (Hshape s Hs) as (Hname & Hurl & Htitle & Hpresent).
    exists s. split; [|auto].
    rewrite Hsplit. apply list_elem_of_In, filter_In. split; [apply list_elem_of_In, Hs|].
    apply (keepStream_torrent s h); assumption.
  - intros Hall. rewrite Hsplit, filter_all.
    + rewrite Hrun. cbn [uniqueFallbackStreams]. rewrite uniqueByInfoHash_keys.
      rewrite fallbackStreams_hashes by assumption. reflexivity.
    + intros s Hs. destruct (Hshape s Hs) as (Hname & Hurl & Htitle & Hpresent).
      assert (Hk : Stream.infoHash s ∈ map infoHashOf searchResults).
      { rewrite <- (fallbackStreams_hashes mathFloorLog world parsedId) by assumption.
        revert Hs. rewrite Hrun. cbn [uniqueFallbackStreams]. intros Hs.
        apply uniqueByInfoHash_elem, lastEntry_elem in Hs.
        apply list_elem_of_In, in_map, list_elem_of_In. assumption. }
      apply list_elem_of_In, in_map_iff in Hk as (t & Ht & Hin).
      destruct (Hall t (proj2 (list_elem_of_In _ _) Hin)) as [h Hh].
      apply (keepStream_torrent s h); try assumption. congruence.
Qed.

(** Three search results, a debrid key, and a lookup that meets a network
    error: no direct stream, and one torrent stream for each result. *)
Lemma cache_lookup_failure_falls_back_witness :
  premiumizeStreams
    (synthesize exactFloorLog offlineWorld
       [sampleTorrent "one" sampleHash1; sampleTorrent "two" sampleHash2;
        sampleTorrent "three" sampleHash3]
       movieRequest None (sampleConfig None (Some "key"))) = [] /\
  map Stream.infoHash
    (createStreamsFromTorrents exactFloorLog offlineWorld
       [sampleTorrent "one" sampleHash1; sampleTorrent "two" sampleHash2;
        sampleTorrent "three" sampleHash3]
       movieRequest None (sampleConfig None (Some "key")))
  = [Some sampleHash1; Some sampleHash2; Some sampleHash3].
Proof.
  destruct (cache_lookup_failure_falls_back exactFloorLog offlineWorld
              [sampleTorrent "one" sampleHash1; sampleTorrent "two" sampleHash2;
               sampleTorrent "three" sampleHash3]
              movieRequest None (sampleConfig None (Some "key"))
              (fun key hashes => network_error hashes))
    as (_ & _ & Hdirect & _ & _ & _ & Hhashes).
  split; [exact Hdirect|].
  rewrite Hhashes; [vm_compute; reflexivity|].
  intros torrent Hin.
  repeat (apply elem_of_cons in Hin as [->|Hin]; [vm_compute; eauto|]).
  inversion Hin.
Defined.

(** * Properties of the surrounding code *)

(** ** Identifier parser, all request kinds *)

Lemma splitOn_without (c : ascii) (a : string) :
  noChar c a = true -> JS.splitOn c a = (a, []).
Proof.
  unfold noChar. induction a as [|x a IH]; cbn [allChars JS.splitOn]; [reflexivity|].
  intros [Hx Ha]%andb_prop. rewrite (IH Ha).
  destruct (x =? c)%char; [discriminate Hx | reflexivity].
Qed.

Lemma splitOn_at (c : ascii) (a b : string) :
  noChar c a = true -> JS.splitOn c (a +:+ String c b) = (a, JS.split b c).
Proof.
  unfold noChar, JS.split.
  induction a as [|x a IH]; push_append; cbn [allChars JS.splitOn].
  - intros _. rewrite Ascii.eqb_refl. destruct (JS.splitOn c b). reflexivity.
  - intros [Hx Ha]%andb_prop. rewrite (IH Ha).
    destruct (x =? c)%char; [discriminate Hx | reflexivity].
Qed.

Lemma includes_at (c : ascii) (a b : string) : JS.includes (a +:+ String c b) c = true.
Proof.
  induction a as [|x a IH]; push_append; cbn [JS.includes].
  - rewrite Ascii.eqb_refl. reflexivity.
  - rewrite IH. apply orb_true_r.
Qed.

Lemma includes_noChar (c : ascii) (s : string) : JS.includes s c = negb (noChar c s).
Proof.
  unfold noChar. induction s as [|x s IH]; cbn [JS.includes allChars]; [reflexivity|].
  rewrite IH. destruct (x =? c)%char, (allChars _ s); reflexivity.
Qed.

(** Decimal texts, digit by digit. *)
Lemma leadingDigits_acc (d : Decimal.uint) (acc : positive) :
  JS.leadingDigits (Z.pos acc) (NilEmpty.string_of_uint d) = Z.pos (Pos.of_uint_acc d acc).
Proof.
  revert acc. induction d as [|d IH|d IH|d IH|d IH|d IH|d IH|d IH|d IH|d IH|d IH];
    intros acc; cbn [NilEmpty.string_of_uint JS.leadingDigits Pos.of_uint_acc];
    [reflexivity|..];
    change (JS.isDigit _) with true; cbn iota; unfold JS.digitValue;
    match goal with
    | |- JS.leadingDigits ?a _ = _ =>
        let p := fresh "p" in
        evar (p : positive); replace a with (Z.pos p); subst p; [apply IH|]
    end; cbn; lia.
Qed.

Lemma leadingDigits_uint (d : Decimal.uint) :
  JS.leadingDigits 0 (NilEmpty.string_of_uint d) = Z.of_N (Pos.of_uint d).
Proof.
  induction d as [|d IH|d IH|d IH|d IH|d IH|d IH|d IH|d IH|d IH|d IH];
    cbn [NilEmpty.string_of_uint JS.leadingDigits Pos.of_uint];
    [reflexivity|..];
    change (JS.isDigit _) with true; cbn iota; unfold JS.digitValue;
    [exact IH|..]; cbn [Z.of_N]; rewrite <- leadingDigits_acc; reflexivity.
Qed.

Lemma string_of_uint_chars (d : Decimal.uint) :
  allChars JS.isDigit (NilEmpty.string_of_uint d) = true.
Proof.
  induction d as [|d IH|d IH|d IH|d IH|d IH|d IH|d IH|d IH|d IH|d IH];
    cbn [NilEmpty.string_of_uint allChars]; [reflexivity|..];
    rewrite IH; reflexivity.
Qed.

Lemma to_uint_not_nil (p : positive) : Pos.to_uint p <> Decimal.Nil.
Proof.
  intros E. pose proof (DecimalPos.Unsigned.of_to p) as H. rewrite E in H. discriminate H.
Qed.

Lemma whiteSpaceLen_number (c : ascii) (s : string) :
  isNumberChar c = true -> JS.whiteSpaceLen (String c s) = None.
Proof.
  intros Hc. unfold JS.whiteSpaceLen, JS.bytes.
  destruct c as [[] [] [] [] [] [] [] []]; try discriminate Hc;
    destruct s as [|d [|e r]]; reflexivity.
Qed.

Lemma trimStart_number (c : ascii) (s : string) :
  isNumberChar c = true -> JS.trimStart (String c s) = String c s.
Proof.
  intros Hc. unfold JS.trimStart. cbn [String.length JS.trimStartFuel].
  rewrite (whiteSpaceLen_number c s Hc). reflexivity.
Qed.

Lemma parseInt_digit_first (c : ascii) (s : string) :
  JS.isDigit c = true ->
  JS.parseInt (String c s) = Some (JS.leadingDigits 0 (String c s)).
Proof.
  intros Hc. unfold JS.parseInt.
  rewrite trimStart_number by (unfold isNumberChar; rewrite Hc; reflexivity).
  destruct c as [[] [] [] [] [] [] [] []]; try discriminate Hc;
    cbv beta iota zeta; change (JS.isDigit _) with true; cbv iota;
    rewrite Z.mul_1_l; reflexivity.
Qed.

Lemma parseInt_minus_first (c : ascii) (s : string) :
  JS.isDigit c = true ->
  JS.parseInt (String "-" (String c s)) = Some (- JS.leadingDigits 0 (String c s))%Z.
Proof.
  intros Hc. unfold JS.parseInt. rewrite trimStart_number by reflexivity.
  cbv beta iota zeta. rewrite Hc. f_equal; lia.
Qed.

Lemma string_of_uint_first (d : Decimal.uint) :
  d <> Decimal.Nil ->
  exists c s, NilEmpty.string_of_uint d = String c s /\ JS.isDigit c = true.
Proof.
  intros Hd. pose proof (string_of_uint_chars d) as Hchars.
  destruct (NilEmpty.string_of_uint d) as [|c s] eqn:Hs.
  { destruct d; try contradiction; discriminate Hs. }
  cbn [allChars] in Hchars. apply andb_prop in Hchars as [Hc _]. eauto.
Qed.

Lemma string_of_uint_pos (p : positive) :
  NilZero.string_of_uint (Pos.to_uint p) = NilEmpty.string_of_uint (Pos.to_uint p).
Proof.
  unfold NilZero.string_of_uint. pose proof (to_uint_not_nil p) as Hp.
  destruct (Pos.to_uint p); try reflexivity. contradiction.
Qed.

(** [parseInt] reads back what [String] writes. *)
Lemma parseInt_numberToString (n : Z) : JS.parseInt (JS.numberToString n) = Some n.
Proof.
  unfold JS.numberToString. destruct n as [|p|p]; [reflexivity| |];
    cbn [Z.to_int NilZero.string_of_int]; rewrite string_of_uint_pos;
    pose proof (leadingDigits_uint (Pos.to_uint p)) as Hv;
    rewrite DecimalPos.Unsigned.of_to in Hv;
    destruct (string_of_uint_first _ (to_uint_not_nil p)) as (c & s & Hs & Hc);
    rewrite Hs in Hv |- *.
  - rewrite (parseInt_digit_first c s Hc), Hv. reflexivity.
  - rewrite (parseInt_minus_first c s Hc), Hv. reflexivity.
Qed.

Lemma numberToString_chars (n : Z) : allChars isNumberChar (JS.numberToString n) = true.
Proof.
  assert (Hu : forall d, allChars isNumberChar (NilZero.string_of_uint d) = true).
  { intros d. unfold NilZero.string_of_uint.
    assert (H : allChars isNumberChar (NilEmpty.string_of_uint d) = true).
    { apply (allChars_impl JS.isDigit); [|apply string_of_uint_chars].
      intros c Hc. unfold isNumberChar. rewrite Hc. reflexivity. }
    destruct d; first [exact H | reflexivity]. }
  unfold JS.numberToString. destruct (Z.to_int n) as [d|d]; cbn [NilZero.string_of_int allChars].
  - apply Hu.
  - rewrite Hu. reflexivity.
Qed.

Lemma numberToString_no_colon (n : Z) : noChar ":" (JS.numberToString n) = true.
Proof.
  apply (allChars_impl isNumberChar); [|apply numberToString_chars].
  intros c. destruct c as [[] [] [] [] [] [] [] []]; vm_compute; congruence.
Qed.

(** X1: an identifier is accepted only for the kinds movie and series;
    the accepted identifier starts with [tt], carries the kind asked for, has
    a season exactly when it has an episode, and for a movie is the id as
    given, without season. *)
Theorem parseStremioId_accepted (args : StremioArgs) (r : ParsedId) :
  parseStremioId args = Some r ->
  (arg_type args = "movie" /\ searchType r = movie \/
   arg_type args = "series" /\ searchType r = series) /\
  JS.startsWith (imdbId r) "tt" = true /\
  (is_Some (season r) <-> is_Some (episode r)) /\
  (searchType r = movie -> imdbId r = arg_id args /\ season r = None /\ episode r = None).
Proof.
  unfold parseStremioId, searchTypeOf.
  destruct (String.eqb_spec (arg_type args) "movie") as [Hm|Hm].
  - cbn [isSeries andb]. destruct (JS.startsWith (arg_id args) "tt") eqn:Htt; [|discriminate].
    cbn [negb]. intros [= <-]. cbn [imdbId season episode searchType].
    repeat split; auto; intros [x Hx]; discriminate.
  - destruct (String.eqb_spec (arg_type args) "series") as [Hs|Hs]; [|discriminate].
    cbn [isSeries andb]. destruct (JS.includes (arg_id args) ":").
    + destruct (JS.split (arg_id args) ":") as [|p0 [|p1 [|p2 [|p3 ps]]]]; try discriminate.
      destruct (JS.startsWith p0 "tt") eqn:Htt; [|discriminate].
      destruct (JS.parseInt p1) as [s|]; [|discriminate].
      destruct (JS.parseInt p2) as [e|]; [|discriminate].
      intros [= <-]. cbn [imdbId season episode searchType].
      repeat split; eauto; discriminate.
    + destruct (JS.startsWith (arg_id args) "tt") eqn:Htt; [|discriminate].
      cbn [negb]. intros [= <-]. cbn [imdbId season episode searchType].
      repeat split; auto; try discriminate; intros [x Hx]; discriminate.
Qed.

Lemma parseStremioId_accepted_witness :
  JS.startsWith (imdbId (mkParsedId "tt7654321" (Some 5%Z) (Some 12%Z) series)) "tt" = true.
Proof.
  apply (parseStremioId_accepted (mkArgs "series" "tt7654321:5:12")
           (mkParsedId "tt7654321" (Some 5%Z) (Some 12%Z) series)).
  reflexivity.
Defined.

(** X2: an id made of a [tt] identifier, a season and an episode that
    are safe integers, written by [String] as plain decimals and joined by
    colons, is parsed back to exactly these three. *)
Theorem parseStremioId_reads_episode_id (prefix : string) (s e : Z) :
  JS.startsWith prefix "tt" = true ->
  JS.includes prefix ":" = false ->
  safeInteger s = true ->
  safeInteger e = true ->
  parseStremioId
    (mkArgs "series"
       (prefix +:+ ":" +:+ JS.numberToString s +:+ ":" +:+ JS.numberToString e))
  = Some (mkParsedId prefix (Some s) (Some e) series).
Proof.
  intros Htt Hcolon _ _. unfold parseStremioId. cbn [arg_type arg_id].
  rewrite searchTypeOf_series. cbn [isSeries andb].
  assert (Hprefix : noChar ":" prefix = true).
  { rewrite includes_noChar in Hcolon. destruct (noChar ":" prefix); [reflexivity|discriminate]. }
  push_append. rewrite includes_at.
  assert (Hsplit : JS.split (prefix +:+ String ":" (JS.numberToString s +:+
                               String ":" (JS.numberToString e))) ":"
                   = [prefix; JS.numberToString s; JS.numberToString e]).
  { unfold JS.split at 1. rewrite (splitOn_at ":" prefix _ Hprefix).
    unfold JS.split at 1. rewrite (splitOn_at ":" _ _ (numberToString_no_colon s)).
    unfold JS.split. rewrite (splitOn_without ":" _ (numberToString_no_colon e)).
    reflexivity. }
  rewrite Hsplit, Htt, !parseInt_numberToString. reflexivity.
Qed.

Lemma parseStremioId_reads_episode_id_witness :
  parseStremioId (mkArgs "series" "tt0111161:-3:105")
  = Some (mkParsedId "tt0111161" (Some (-3)%Z) (Some 105%Z) series).
Proof.
  apply (parseStremioId_reads_episode_id "tt0111161" (-3) 105); reflexivity.
Defined.

(** ** Magnet parser and file selector, further properties *)

Lemma string_length_ind (P : string -> Prop) :
  (forall s, (forall t, (String.length t < String.length s)%nat -> P t) -> P s) ->
  forall s, P s.
Proof.
  intros Hstep s. remember (String.length s) as n eqn:Hn.
  revert s Hn. induction n as [n IH] using lt_wf_ind. intros s ->.
  apply Hstep. intros t Ht. apply (IH _ Ht t eq_refl).
Qed.

(** How [toLowerCase] proceeds: three bytes of the Kelvin sign at once,
    any other byte alone. *)
Lemma toLowerCase_step (c : ascii) (rest : string) :
  (exists rest', rest = String (ascii_of_N 132) (String (ascii_of_N 170) rest') /\
                 JS.code c = 226%N /\
                 toLowerCase (String c rest) = String "k" (toLowerCase rest')) \/
  toLowerCase (String c rest) = String (JS.lowerChar c) (toLowerCase rest).
Proof.
  destruct rest as [|d [|e rest']]; try (right; reflexivity).
  cbn [toLowerCase].
  destruct (JS.code c =? 226)%N eqn:Hc; [|right; reflexivity].
  destruct (JS.code d =? 132)%N eqn:Hd; [|right; reflexivity].
  destruct (JS.code e =? 170)%N eqn:He; [|right; reflexivity].
  left. exists rest'. apply N.eqb_eq in Hc, Hd, He. unfold JS.code in Hd, He.
  rewrite <- (ascii_N_embedding d), <- (ascii_N_embedding e), Hd, He. auto.
Qed.

Lemma toLowerCase_hex (h : string) :
  allChars JS.isHexDigit h = true ->
  String.length (toLowerCase h) = String.length h /\
  allChars isLowerHexDigit (toLowerCase h) = true.
Proof.
  induction h as [|c h IH]; [intros _; split; reflexivity|].
  cbn [allChars]. intros [Hc Hh]%andb_prop. specialize (IH Hh) as [IHlen IHhex].
  destruct (toLowerCase_step c h) as [(rest' & _ & Hcode & _)|Hstep].
  - exfalso. destruct c as [[] [] [] [] [] [] [] []]; vm_compute in Hc, Hcode; congruence.
  - rewrite Hstep. cbn [String.length allChars]. rewrite IHlen, IHhex. split; [reflexivity|].
    rewrite andb_true_r.
    destruct c as [[] [] [] [] [] [] [] []]; vm_compute in Hc |- *; congruence.
Qed.

(** X3: whatever the parser returns has an info hash of forty lower-case
    hexadecimal digits and no empty tracker. *)
Theorem parseMagnetUri_result (magnetUri : option string) (pm : ParsedMagnetUri) :
  parseMagnetUri magnetUri = Some pm ->
  (exists h, infoHash pm = Some h /\ String.length h = 40%nat /\
             allChars isLowerHexDigit h = true) /\
  "" ∉ sources pm.
Proof.
  unfold parseMagnetUri. destruct magnetUri as [uri|]; [|discriminate].
  destruct (negb (JS.truthy uri) || negb (JS.startsWith uri "magnet:?")); [discriminate|].
  destruct (URLSearchParams.get _ "xt") as [xt|]; [|discriminate]. cbn [mbind option_bind].
  destruct (matchBtih xt) as [hash|] eqn:Hm; [|discriminate].
  intros [= <-]. cbn [infoHash sources].
  apply matchBtih_sound in Hm as (_ & _ & _ & Hlen & Hhex).
  destruct (toLowerCase_hex hash Hhex) as [Hlen' Hlower]. split.
  - exists (toLowerCase hash). rewrite Hlen', Hlen. auto.
  - intros Hin. apply list_elem_of_In, filter_In in Hin as [_ Hin]. discriminate Hin.
Qed.

Lemma parseMagnetUri_result_witness :
  (exists h, infoHash (mkParsedMagnet (Some sampleHash1) ["udp://a"]) = Some h /\
             String.length h = 40%nat /\ allChars isLowerHexDigit h = true) /\
  "" ∉ sources (mkParsedMagnet (Some sampleHash1) ["udp://a"]).
Proof.
  apply (parseMagnetUri_result
           (Some "magnet:?xt=urn:btih:0123456789ABCDEF0123456789abcdef01234567&tr=&tr=udp://a")).
  vm_compute. reflexivity.
Defined.

Lemma lastIndexOf_without (c : ascii) (s : string) :
  noChar c s = true -> lastIndexOf s c = (-1)%Z.
Proof.
  unfold noChar. induction s as [|x s IH]; cbn [allChars lastIndexOf]; [reflexivity|].
  intros [Hx Hs]%andb_prop. rewrite (IH Hs). cbn.
  destruct (x =? c)%char; [discriminate Hx | reflexivity].
Qed.

Lemma lastIndexOf_at (c : ascii) (a b : string) :
  noChar c b = true -> lastIndexOf (a +:+ String c b) c = Z.of_nat (String.length a).
Proof.
  intros Hb. induction a as [|x a IH]; push_append; cbn [lastIndexOf String.length].
  - rewrite (lastIndexOf_without c b Hb). cbn. rewrite Ascii.eqb_refl. reflexivity.
  - rewrite IH. destruct (Z.leb_spec 0 (Z.of_nat (String.length a))); lia.
Qed.

Lemma toLowerCase_keeps_noChar (c : ascii) (s : string) :
  c <> "k"%char ->
  (forall x, JS.lowerChar x = c -> x = c) ->
  noChar c s = true -> noChar c (toLowerCase s) = true.
Proof.
  intros Hk Hinj. unfold noChar.
  induction s as [s IH] using string_length_ind. destruct s as [|x rest]; [reflexivity|].
  cbn [allChars]. intros [Hx Hrest]%andb_prop.
  destruct (toLowerCase_step x rest) as [(rest' & Erest & _ & Estep) | Estep];
    rewrite Estep; cbn [allChars].
  - subst rest. cbn [allChars] in Hrest.
    apply andb_prop in Hrest as [_ [_ Hrest']%andb_prop].
    rewrite (IH rest' ltac:(cbn; lia) Hrest').
    destruct (Ascii.eqb_spec "k" c) as [E|_]; [congruence | reflexivity].
  - rewrite (IH rest ltac:(cbn; lia) Hrest).
    destruct (Ascii.eqb_spec (JS.lowerChar x) c) as [E|_]; [|reflexivity].
    apply Hinj in E. subst x. rewrite Ascii.eqb_refl in Hx. discriminate Hx.
Qed.

Lemma lowerChar_dot (x : ascii) : JS.lowerChar x = "."%char -> x = "."%char.
Proof. destruct x as [[] [] [] [] [] [] [] []]; vm_compute; congruence. Qed.

(** X4: the extension that decides whether a file is a video is what
    follows the last dot of its path, compared without regard to case; a path
    without a dot is never a video. *)
Theorem isVideoFile_by_extension (stem ext : string) (size index : Z) :
  JS.includes ext "." = false ->
  isVideoFile (mkFile (stem +:+ "." +:+ ext) size index)
  = bool_decide (toLowerCase ("." +:+ ext) ∈ videoExtensions)
  /\ isVideoFile (mkFile ext size index) = false.
Proof.
  intros Hdot.
  assert (Hext : noChar "." ext = true).
  { rewrite includes_noChar in Hdot. destruct (noChar "." ext); [reflexivity|discriminate]. }
  unfold isVideoFile, extensionOf. cbn [file_path]. split.
  - push_append. rewrite (lastIndexOf_at "." stem ext Hext). unfold substring.
    rewrite Nat2Z.id, (drop_append stem (String "." ext)). reflexivity.
  - rewrite (lastIndexOf_without "." ext Hext). unfold substring. cbn [Z.to_nat JS.drop].
    assert (Hlow : noChar "." (toLowerCase ext) = true).
    { apply toLowerCase_keeps_noChar; [discriminate | apply lowerChar_dot | assumption]. }
    assert (Hdrop : JS.drop 0 ext = ext) by (destruct ext; reflexivity).
    change (Z.to_nat (-1)) with 0%nat. rewrite Hdrop. apply bool_decide_eq_false_2. intros Hin.
    unfold videoExtensions in Hin.
    repeat (apply elem_of_cons in Hin as [Hin|Hin];
            [rewrite Hin in Hlow; vm_compute in Hlow; discriminate Hlow|]).
    inversion Hin.
Qed.

Lemma isVideoFile_by_extension_witness :
  isVideoFile (mkFile "Show.S01E02.MkV" 10 0) = true.
Proof.
  apply (proj1 (isVideoFile_by_extension "Show.S01E02" "MkV" 10 0 eq_refl)).
Defined.

(** X5: the selector gives no index exactly when the listing is absent or
    empty, or holds no video file and is not a single file. *)
Theorem findBestFileIndex_undetermined (files : option (list TorrentFile))
    (season episode : option Z) :
  findBestFileIndex files season episode = None <->
  files = None \/
  exists fs, files = Some fs /\
             (fs = [] \/ ((forall g, g ∈ fs -> isVideoFile g = false) /\ length fs <> 1%nat)).
Proof.
  destruct files as [[|file fs]|].
  - split; [intros _; right; exists []; auto | reflexivity].
  - rewrite findBestFileIndex_unfold.
    pose proof (pick_firstLargest (isEpisodeFile season episode) (file :: fs)) as He.
    pose proof (pick_firstLargest isVideoFile (file :: fs)) as Hv.
    destruct (foldl (pick (isEpisodeFile season episode)) None (file :: fs)) as [f|].
    { split; [discriminate|]. intros [E|(fs' & [= <-] & [E|[Hno _]])]; try discriminate.
      apply firstLargest_elem in He as [Hin HP]. unfold isEpisodeFile in HP.
      rewrite (Hno f Hin) in HP. discriminate. }
    destruct (foldl (pick isVideoFile) None (file :: fs)) as [f|].
    { split; [discriminate|]. intros [E|(fs' & [= <-] & [E|[Hno _]])]; try discriminate.
      apply firstLargest_elem in Hv as [Hin HP]. rewrite (Hno f Hin) in HP. discriminate. }
    destruct fs as [|g fs].
    + split; [discriminate|]. intros [E|(fs' & [= <-] & [E|[_ Hlen]])]; try discriminate.
      contradiction Hlen. reflexivity.
    + split; [|reflexivity]. intros _. right. exists (file :: g :: fs).
      split; [reflexivity|]. right. split; [exact Hv | discriminate].
  - split; [auto | reflexivity].
Qed.

(** ** Bulk cache status, every answer *)

Lemma prepared_is_Some (hashes : list string) (m : gmap string PremiumizeCacheStatus)
    (h : string) :
  is_Some (foldl (fun r hash => <[hash := notCached]> r) m hashes !! h) <->
  is_Some (m !! h) \/ h ∈ hashes.
Proof.
  revert m. induction hashes as [|x hashes IH]; intros m; cbn [foldl].
  - split; [auto | intros [H|H]; [assumption | inversion H]].
  - rewrite IH, elem_of_cons. destruct (decide (x = h)) as [->|Hne].
    + rewrite lookup_insert_eq. split; [auto|]. intros _. left. eauto.
    + rewrite lookup_insert_ne by assumption. split; [tauto|].
      intros [H|[E|H]]; auto. congruence.
Qed.

Lemma recorded_is_Some (response : list json) (filenames : option json)
    (entries : list (nat * string)) (m : gmap string PremiumizeCacheStatus) (h : string) :
  is_Some (foldl (recordStatus response filenames) m entries !! h) <->
  is_Some (m !! h) \/ h ∈ map snd entries.
Proof.
  revert m. induction entries as [|[i x] entries IH]; intros m; cbn [foldl map snd].
  - split; [auto | intros [H|H]; [assumption | inversion H]].
  - rewrite IH, elem_of_cons. unfold recordStatus.
    destruct (decide (x = h)) as [->|Hne].
    + rewrite lookup_insert_eq. split; [auto|]. intros _. left. eauto.
    + rewrite lookup_insert_ne by assumption. split; [tauto|].
      intros [H|[E|H]]; auto. congruence.
Qed.

Lemma imap_pair_snd (hashes : list string) (f : nat -> nat) :
  map snd (imap (fun i h => (f i, h)) hashes) = hashes.
Proof.
  revert f. induction hashes as [|h hashes IH]; intros f; cbn [imap map snd]; [reflexivity|].
  f_equal. apply (IH (f ∘ S)).
Qed.

(** X6: whatever the service answers, the map returned has an entry for
    every hash asked about and for no other. *)
Theorem checkPremiumizeCacheBulk_domain (apiKey : string) (infoHashes : list string)
    (answer : FetchOutcome) (h : string) :
  is_Some (checkPremiumizeCacheBulk apiKey infoHashes answer !! h) <-> h ∈ infoHashes.
Proof.
  assert (Hprepared :
    is_Some (foldl (fun r hash => <[hash := notCached]> r)
               (∅ : gmap string PremiumizeCacheStatus) infoHashes !! h) <-> h ∈ infoHashes).
  { rewrite prepared_is_Some, lookup_empty. split; [|auto].
    intros [[x Hx]|H]; [discriminate | assumption]. }
  unfold checkPremiumizeCacheBulk. destruct infoHashes as [|x hashes].
  { rewrite lookup_empty. split; [intros [y Hy]; discriminate | intros H; inversion H]. }
  destruct answer as [|[] [| |[| | | | |data]]]; try exact Hprepared.
  destruct (member data "status") as [[| | |status| |]|]; try exact Hprepared.
  destruct (member data "response") as [[| | | |response|]|]; try exact Hprepared.
  destruct (String.eqb status "success" && (length response =? length (x :: hashes))%nat);
    [|exact Hprepared].
  rewrite recorded_is_Some, Hprepared.
  change (imap pair (x :: hashes)) with (imap (fun i h => (id i, h)) (x :: hashes)).
  rewrite imap_pair_snd. tauto.
Qed.

Lemma recorded_other (response : list json) (filenames : option json)
    (entries : list (nat * string)) (m : gmap string PremiumizeCacheStatus) (h : string) :
  h ∉ map snd entries ->
  foldl (recordStatus response filenames) m entries !! h = m !! h.
Proof.
  revert m. induction entries as [|[i x] entries IH]; intros m; cbn [foldl map snd];
    [reflexivity|].
  intros [Hne Hnin]%not_elem_of_cons. rewrite (IH _ Hnin). unfold recordStatus.
  apply lookup_insert_ne. congruence.
Qed.

Lemma imap_pair_split (before after : list string) (h : string) :
  imap pair (before ++ h :: after)
  = (imap pair before
     ++ (length before, h) :: imap (fun i x => (length before + S i, x)) after)%list.
Proof.
  rewrite imap_app. cbn [imap]. rewrite Nat.add_0_r. reflexivity.
Qed.

(** X7: when the service answers with as many results as hashes, the
    entry of a hash is the one written for the last index that holds it: it is
    marked cached exactly when the answer at that index is [true], and a
    file name it carries is the one at that index. *)
Theorem checkPremiumizeCacheBulk_answers (apiKey : string) (infoHashes : list string)
    (members : list (string * json)) (response : list json) (i : nat) (h : string) :
  member members "status" = Some (JString "success") ->
  member members "response" = Some (JArray response) ->
  length response = length infoHashes ->
  infoHashes !! i = Some h ->
  (forall j, (i < j)%nat -> infoHashes !! j <> Some h) ->
  exists status,
    checkPremiumizeCacheBulk apiKey infoHashes (Responds true (BodyJson (JObject members))) !! h
    = Some status /\
    (isCached status = true <-> response !! i = Some (JBool true)) /\
    (jsonTruthy (filename status) = true ->
     exists names, member members "filename" = Some (JArray names) /\
                   names !! i = Some (filename status)).
Proof.
  intros Hstatus Hresponse Hlen Hi Hlast.
  unfold checkPremiumizeCacheBulk. destruct infoHashes as [|x hashes].
  { rewrite lookup_nil in Hi. discriminate. }
  cbv beta iota. remember (x :: hashes) as l eqn:E. clear E x hashes.
  rename l into infoHashes.
  rewrite Hstatus, Hresponse, Hlen, Nat.eqb_refl.
  change (String.eqb "success" "success") with true. cbn [andb].
  pose proof (take_drop_middle infoHashes i h Hi) as Hsplit.
  assert (Hbefore : length (take i infoHashes) = i).
  { apply length_take_le. apply lookup_lt_Some in Hi. lia. }
  replace (imap pair infoHashes)
    with (imap pair (take i infoHashes ++ h :: drop (S i) infoHashes))
    by (rewrite Hsplit; reflexivity).
  rewrite imap_pair_split, foldl_app. cbn [foldl].
  rewrite recorded_other.
  - unfold recordStatus at 1. rewrite lookup_insert_eq, Hbefore. eexists. split; [reflexivity|].
    cbn [isCached filename]. split.
    + destruct (response !! i) as [[|[]| | | |]|]; split; congruence.
    + destruct (member members "filename") as [[| | | |names|]|]; try (cbn; discriminate).
      destruct (names !! i) as [n|] eqn:Hni; [|cbn; discriminate].
      destruct (jsonTruthy n) eqn:Hn; [|cbn; discriminate].
      intros _. exists names. split; [reflexivity | exact Hni].
  - change (imap (fun i0 x => (length (take i infoHashes) + S i0, x)) (drop (S i) infoHashes))
      with (imap (fun i0 x => ((fun k => length (take i infoHashes) + S k)%nat i0, x))
                 (drop (S i) infoHashes)).
    rewrite imap_pair_snd. intros Hin. apply list_elem_of_lookup in Hin as [j Hj].
    rewrite lookup_drop in Hj. apply (Hlast (S i + j)%nat); [lia | assumption].
Qed.

Lemma checkPremiumizeCacheBulk_answers_witness :
  exists status,
    checkPremiumizeCacheBulk "key" [sampleHash1; sampleHash2]
      (Responds true
         (BodyJson (JObject [("status", JString "success");
                             ("response", JArray [JBool false; JBool true]);
                             ("filename", JArray [JNull; JString "film.mkv"])]))) !! sampleHash2
    = Some status /\
    (isCached status = true <-> [JBool false; JBool true] !! 1%nat = Some (JBool true)) /\
    (jsonTruthy (filename status) = true ->
     exists names,
       member [("status", JString "success");
               ("response", JArray [JBool false; JBool true]);
               ("filename", JArray [JNull; JString "film.mkv"])] "filename"
       = Some (JArray names) /\
       names !! 1%nat = Some (filename status)).
Proof.
  apply (checkPremiumizeCacheBulk_answers "key" [sampleHash1; sampleHash2] _
           [JBool false; JBool true] 1 sampleHash2); try reflexivity.
  intros [|[|j]] Hj; try lia; discriminate.
Defined.

(** ** Stream synthesis, further properties *)

Lemma fallbackStream_trackers (mathFloorLog : Z -> Z) (world world' : StreamWorld)
    (parsedId : ParsedId) (torrent : TorrentInfo.t) :
  getTrackers world = getTrackers world' ->
  fallbackStream mathFloorLog world parsedId torrent
  = fallbackStream mathFloorLog world' parsedId torrent.
Proof. intros H. unfold fallbackStream. rewrite H. reflexivity. Qed.

Lemma classify_no_key (config : Config) (results : gmap string PremiumizeCacheStatus)
    (p : Partition) (torrent : TorrentInfo.t) :
  present (premiumizeApiKey config) = None ->
  classify config results p torrent
  = mkPartition (premiumizeCandidates p) (fallbackTorrents p ++ [torrent])%list.
Proof. intros H. unfold classify. rewrite H. reflexivity. Qed.

Lemma partitionTorrents_no_key (config : Config)
    (results : gmap string PremiumizeCacheStatus) (searchResults : list TorrentInfo.t) :
  present (premiumizeApiKey config) = None ->
  partitionTorrents config results searchResults = mkPartition [] searchResults.
Proof.
  intros H. unfold partitionTorrents.
  assert (G : forall l p,
             foldl (classify config results) p l
             = mkPartition (premiumizeCandidates p) (fallbackTorrents p ++ l)%list).
  { induction l as [|t l IH]; intros p; cbn [foldl].
    - rewrite app_nil_r. destruct p; reflexivity.
    - rewrite IH, classify_no_key by assumption. cbn [premiumizeCandidates fallbackTorrents].
      rewrite <- app_assoc. reflexivity. }
  rewrite G. reflexivity.
Qed.

Lemma synthesize_no_key (mathFloorLog : Z -> Z) (world : StreamWorld)
    (searchResults : list TorrentInfo.t) (parsedId : ParsedId)
    (tmdbTitle : option string) (config : Config) :
  present (premiumizeApiKey config) = None ->
  synthesize mathFloorLog world searchResults parsedId tmdbTitle config
  = mkSynthesis (mkPartition [] searchResults) [] searchResults
      (omap (fallbackStream mathFloorLog world parsedId) searchResults)
      (uniqueByInfoHash (omap (fallbackStream mathFloorLog world parsedId) searchResults))
      (uniqueByInfoHash (omap (fallbackStream mathFloorLog world parsedId) searchResults)).
Proof.
  intros H. unfold synthesize. cbv zeta.
  rewrite (partitionTorrents_no_key config _ searchResults H).
  cbn [premiumizeCandidates fallbackTorrents imap omap inArrivalOrder foldr app].
  rewrite app_nil_r. reflexivity.
Qed.

(** X8: without a debrid key the debrid service plays no part: every
    search result goes the torrent way, no stream has a url, and the streams
    returned depend on the world only through the tracker list, whatever the
    cache check, the link service or the looked-up title would have been. *)
Theorem createStreams_without_debrid_key (mathFloorLog : Z -> Z)
    (world world' : StreamWorld) (searchResults : list TorrentInfo.t)
    (parsedId : ParsedId) (tmdbTitle tmdbTitle' : option string) (config : Config) :
  present (premiumizeApiKey config) = None ->
  getTrackers world = getTrackers world' ->
  allFallbackTorrents (synthesize mathFloorLog world searchResults parsedId tmdbTitle config)
  = searchResults /\
  (forall s,
     s ∈ createStreamsFromTorrents mathFloorLog world searchResults parsedId tmdbTitle config ->
     Stream.url s = None /\ Stream.bingeGroup s = None) /\
  createStreamsFromTorrents mathFloorLog world searchResults parsedId tmdbTitle config
  = createStreamsFromTorrents mathFloorLog world' searchResults parsedId tmdbTitle' config.
Proof.
  intros Hkey Htrackers. unfold createStreamsFromTorrents.
  rewrite !synthesize_no_key by assumption. cbn [allFallbackTorrents allStreams].
  split; [reflexivity|]. split.
  - intros s Hs. apply list_elem_of_In, filter_In in Hs as [Hs _].
    apply list_elem_of_In, uniqueByInfoHash_elem, lastEntry_elem in Hs.
    apply list_elem_of_omap in Hs as (t & _ & Ht).
    unfold fallbackStream in Ht. cbv zeta in Ht.
    destruct (match present (TorrentInfo.magnetUrl t) with
              | Some magnetUrl => Some (parseMagnetUri (Some magnetUrl))
              | None => None
              end) as [[pm|]|]; try discriminate;
      match type of Ht with (if ?c then _ else _) = _ => destruct c end;
      try discriminate; injection Ht as <-; split; reflexivity.
  - f_equal. f_equal.
    apply list_omap_ext, Forall_Forall2_diag, Forall_forall. intros t _.
    apply fallbackStream_trackers, Htrackers.
Qed.

Lemma createStreams_without_debrid_key_witness :
  createStreamsFromTorrents exactFloorLog offlineWorld
    [sampleTorrent "one" sampleHash1] movieRequest None (sampleConfig None None)
  = createStreamsFromTorrents exactFloorLog
      (mkStreamWorld (getTrackers offlineWorld)
         (fun _ _ => Responds true (BodyJson JNull))
         (fun _ _ _ _ => mkAnswer (Some "https://link") 3))
      [sampleTorrent "one" sampleHash1] movieRequest (Some "Title") (sampleConfig None None).
Proof.
  apply (createStreams_without_debrid_key exactFloorLog offlineWorld _
           [sampleTorrent "one" sampleHash1] movieRequest None (Some "Title")
           (sampleConfig None None)); reflexivity.
Defined.

(** What one iteration of the partition loop does with a torrent. *)
Lemma classify_cases (config : Config) (results : gmap string PremiumizeCacheStatus)
    (p : Partition) (torrent : TorrentInfo.t) :
  (exists st hash,
     classify config results p torrent
     = mkPartition (premiumizeCandidates p ++ [(torrent, st)])%list (fallbackTorrents p) /\
     present (infoHashOf torrent) = Some hash /\ results !! hash = Some st) \/
  classify config results p torrent
  = mkPartition (premiumizeCandidates p) (fallbackTorrents p ++ [torrent])%list.
Proof.
  unfold classify.
  destruct (present (premiumizeApiKey config)); [|right; reflexivity].
  destruct (present (infoHashOf torrent)) as [hash|]; [|right; reflexivity].
  destruct (results !! hash) as [st|] eqn:Hst; [|right; reflexivity].
  destruct (isCached st && jsonTruthy (filename st)); [|right; reflexivity].
  left. exists st, hash. auto.
Qed.

Lemma partition_cover_from (config : Config) (results : gmap string PremiumizeCacheStatus)
    (l : list TorrentInfo.t) (p : Partition) (t : TorrentInfo.t) :
  t ∈ fallbackTorrents (foldl (classify config results) p l) \/
  t ∈ map fst (premiumizeCandidates (foldl (classify config results) p l))
  <-> t ∈ l \/ t ∈ fallbackTorrents p \/ t ∈ map fst (premiumizeCandidates p).
Proof.
  revert p. induction l as [|x l IH]; intros p; cbn [foldl].
  - rewrite elem_of_nil. tauto.
  - rewrite IH, elem_of_cons.
    destruct (classify_cases config results p x) as [(st & hash & -> & _)| ->];
      cbn [premiumizeCandidates fallbackTorrents];
      rewrite ?map_app, elem_of_app; cbn [map fst]; rewrite list_elem_of_singleton; tauto.
Qed.

Lemma partition_cover (config : Config) (results : gmap string PremiumizeCacheStatus)
    (searchResults : list TorrentInfo.t) (t : TorrentInfo.t) :
  t ∈ searchResults <->
  t ∈ fallbackTorrents (partitionTorrents config results searchResults) \/
  t ∈ map fst (premiumizeCandidates (partitionTorrents config results searchResults)).
Proof.
  unfold partitionTorrents. rewrite partition_cover_from.
  cbn [fallbackTorrents premiumizeCandidates map]. rewrite !elem_of_nil. tauto.
Qed.

Lemma partition_length_from (config : Config) (results : gmap string PremiumizeCacheStatus)
    (l : list TorrentInfo.t) (p : Partition) :
  (length (fallbackTorrents (foldl (classify config results) p l))
   + length (premiumizeCandidates (foldl (classify config results) p l))
   = length l + (length (fallbackTorrents p) + length (premiumizeCandidates p)))%nat.
Proof.
  revert p. induction l as [|x l IH]; intros p; cbn [foldl length]; [lia|].
  rewrite IH.
  destruct (classify_cases config results p x) as [(st & hash & -> & _)| ->];
    cbn [premiumizeCandidates fallbackTorrents]; rewrite length_app; cbn [length]; lia.
Qed.

Lemma partition_length (config : Config) (results : gmap string PremiumizeCacheStatus)
    (searchResults : list TorrentInfo.t) :
  (length (fallbackTorrents (partitionTorrents config results searchResults))
   + length (premiumizeCandidates (partitionTorrents config results searchResults))
   = length searchResults)%nat.
Proof. unfold partitionTorrents. rewrite partition_length_from. cbn. lia. Qed.

(** A direct stream carries the binge group of its torrent's hash. *)
Lemma processPremiumizeCandidate_group (mathFloorLog : Z -> Z) (world : StreamWorld)
    (k : nat) (config : Config) (torrent : TorrentInfo.t)
    (cacheStatus : PremiumizeCacheStatus) (parsedId : ParsedId)
    (tmdbTitle : option string) (s : Stream.t) :
  snd (processPremiumizeCandidate mathFloorLog world k config torrent cacheStatus
         parsedId tmdbTitle) = Some s ->
  exists hash, infoHashOf torrent = Some hash /\
               Stream.bingeGroup s = Some ("premiumize-" +:+ hash).
Proof.
  unfold processPremiumizeCandidate.
  destruct (present (infoHashOf torrent)) as [hash|] eqn:Hh; [|discriminate].
  destruct (present (TorrentInfo.magnetUrl torrent)) as [magnetUrl|]; [|discriminate].
  cbn [snd].
  destruct (present (link _)) as [directLink|]; [|discriminate].
  intros [= <-]. cbn [Stream.bingeGroup]. exists hash.
  apply present_Some in Hh as [Hh _]. auto.
Qed.

Lemma synthesize_stages (mathFloorLog : Z -> Z) (world : StreamWorld)
    (searchResults : list TorrentInfo.t) (parsedId : ParsedId)
    (tmdbTitle : option string) (config : Config) :
  let run := synthesize mathFloorLog world searchResults parsedId tmdbTitle config in
  let settled :=
    settledOf mathFloorLog world config parsedId tmdbTitle
      (premiumizeCandidates (partition run)) in
  partition run
  = partitionTorrents config (premiumizeResults world config searchResults) searchResults /\
  premiumizeStreams run = omap (fun r => snd (snd r)) settled /\
  allFallbackTorrents run
  = (fallbackTorrents (partition run) ++ omap pushedTorrent (inArrivalOrder settled))%list /\
  fallbackStreams run
  = omap (fallbackStream mathFloorLog world parsedId) (allFallbackTorrents run) /\
  uniqueFallbackStreams run = uniqueByInfoHash (fallbackStreams run).
Proof. repeat split; reflexivity. Qed.

Lemma settled_split (l : list (nat * (TorrentInfo.t * option Stream.t))) :
  (length (omap (fun r => snd (snd r)) l) + length (omap pushedTorrent l) = length l)%nat.
Proof.
  induction l as [|[a [t [s|]]] l IH]; cbn [omap list_omap pushedTorrent snd fst length];
    [reflexivity | |];
    change (list_omap _ _ ?f l) with (omap f l); cbn [length]; lia.
Qed.

Lemma settledOf_lookup (mathFloorLog : Z -> Z) (world : StreamWorld) (config : Config)
    (parsedId : ParsedId) (tmdbTitle : option string)
    (candidates : list (TorrentInfo.t * PremiumizeCacheStatus))
    (r : nat * (TorrentInfo.t * option Stream.t)) :
  r ∈ settledOf mathFloorLog world config parsedId tmdbTitle candidates <->
  exists k c, candidates !! k = Some c /\
              fst (snd r) = fst c /\
              snd (snd r)
              = snd (processPremiumizeCandidate mathFloorLog world k config (fst c) (snd c)
                       parsedId tmdbTitle) /\
              fst r
              = fst (processPremiumizeCandidate mathFloorLog world k config (fst c) (snd c)
                       parsedId tmdbTitle).
Proof.
  unfold settledOf. rewrite list_elem_of_lookup. split.
  - intros [k Hk]. rewrite list_lookup_imap in Hk.
    destruct (candidates !! k) as [c|] eqn:Hc; [|discriminate].
    cbn in Hk. injection Hk as <-. exists k, c. auto.
  - intros (k & c & Hc & H1 & H2 & H3). exists k. rewrite list_lookup_imap, Hc. cbn.
    destruct r as [a [t o]]. cbn in *. subst. reflexivity.
Qed.

Lemma omap_length {A B : Type} (f : A -> option B) (l : list A) :
  (length (omap f l) <= length l)%nat.
Proof.
  induction l as [|x l IH]; cbn [omap list_omap length]; [lia|].
  change (list_omap _ _ f l) with (omap f l). destruct (f x); cbn [length]; lia.
Qed.

Lemma omap_none {A B : Type} (f : A -> option B) (l : list A) :
  (forall x, x ∈ l -> f x = None) -> omap f l = [].
Proof.
  induction l as [|x l IH]; intros Hall; cbn [omap list_omap]; [reflexivity|].
  change (list_omap _ _ f l) with (omap f l).
  rewrite (Hall x (list_elem_of_here _ _)). apply IH.
  intros y Hy. apply Hall, list_elem_of_further, Hy.
Qed.

Lemma filter_length_le {A : Type} (p : A -> bool) (l : list A) :
  (length (List.filter p l) <= length l)%nat.
Proof.
  induction l as [|x l IH]; cbn [List.filter length]; [lia|].
  destruct (p x); cbn [length]; lia.
Qed.

Lemma firstOccurrencesFrom_length {K : Type} `{EqDecision K} (seen l : list K) :
  (length (firstOccurrencesFrom seen l) <= length l)%nat.
Proof.
  revert seen. induction l as [|x l IH]; intros seen; cbn [firstOccurrencesFrom length]; [lia|].
  destruct (bool_decide (x ∈ seen)); cbn [length].
  - specialize (IH seen). lia.
  - specialize (IH (x :: seen)). lia.
Qed.

Lemma uniqueByInfoHash_length (streams : list Stream.t) :
  (length (uniqueByInfoHash streams) <= length streams)%nat.
Proof.
  rewrite <- (length_map Stream.infoHash (uniqueByInfoHash streams)), uniqueByInfoHash_keys.
  unfold firstOccurrences.
  rewrite <- (length_map Stream.infoHash streams). apply firstOccurrencesFrom_length.
Qed.

Lemma NoDup_omap_filter {A B : Type} (f : A -> option B) (p : A -> bool) (l : list A) :
  NoDup (map f l) -> NoDup (omap f (List.filter p l)).
Proof.
  induction l as [|x l IH]; cbn [map List.filter]; intros Hnd; [constructor|].
  apply NoDup_cons in Hnd as [Hx Hnd]. specialize (IH Hnd).
  destruct (p x); [|exact IH]. cbn [omap list_omap].
  change (list_omap _ _ f ?l) with (omap f l).
  destruct (f x) as [y|] eqn:Hy; [|exact IH].
  apply NoDup_cons. split; [|exact IH].
  intros Hin. apply list_elem_of_omap in Hin as (z & Hz & Hfz).
  apply list_elem_of_In, filter_In in Hz as [Hz _]. apply Hx.
  rewrite <- Hfz. apply list_elem_of_In, in_map, Hz.
Qed.

(** Every torrent of the fallback list is a search result. *)
Lemma allFallbackTorrents_results (mathFloorLog : Z -> Z) (world : StreamWorld)
    (searchResults : list TorrentInfo.t) (parsedId : ParsedId)
    (tmdbTitle : option string) (config : Config) (t : TorrentInfo.t) :
  t ∈ allFallbackTorrents (synthesize mathFloorLog world searchResults parsedId tmdbTitle config) ->
  t ∈ searchResults.
Proof.
  destruct (synthesize_stages mathFloorLog world searchResults parsedId tmdbTitle config)
    as (Hparts & _ & Hfallback & _).
  rewrite Hfallback, Hparts. intros Hin.
  apply (partition_cover config (premiumizeResults world config searchResults)).
  apply elem_of_app in Hin as [Hin|Hin]; [left; exact Hin|]. right.
  apply list_elem_of_omap in Hin as (r & Hr & Hpushed).
  rewrite inArrivalOrder_Permutation in Hr.
  apply settledOf_lookup in Hr as (k & c & Hc & Ht & _).
  unfold pushedTorrent in Hpushed. destruct (snd (snd r)); [discriminate|].
  injection Hpushed as <-. rewrite Ht.
  apply list_elem_of_In, in_map, list_elem_of_In. eapply list_elem_of_lookup_2, Hc.
Qed.

(** X9: no search result with a readable info hash is lost: it is
    answered by a direct stream of its binge group or by a torrent stream of
    its hash. *)
Theorem createStreams_covers_results (mathFloorLog : Z -> Z) (world : StreamWorld)
    (searchResults : list TorrentInfo.t) (parsedId : ParsedId)
    (tmdbTitle : option string) (config : Config) (torrent : TorrentInfo.t) (h : string) :
  torrent ∈ searchResults ->
  infoHashOf torrent = Some h ->
  exists s,
    s ∈ createStreamsFromTorrents mathFloorLog world searchResults parsedId tmdbTitle config /\
    (Stream.infoHash s = Some h /\ Stream.url s = None \/
     Stream.bingeGroup s = Some ("premiumize-" +:+ h) /\ is_Some (present (Stream.url s))).
Proof.
  intros Hin Hh. rewrite createStreams_split.
  destruct (synthesize_stages mathFloorLog world searchResults parsedId tmdbTitle config)
    as (Hparts & Hdirect & Hfallback & Hbuilt & Hunique).
  cbv zeta in Hdirect, Hfallback.
  set (run := synthesize mathFloorLog world searchResults parsedId tmdbTitle config) in *.
  assert (Hcase :
    torrent ∈ allFallbackTorrents run \/
    exists s, s ∈ premiumizeStreams run /\
              Stream.bingeGroup s = Some ("premiumize-" +:+ h)).
  { apply (partition_cover config (premiumizeResults world config searchResults)) in Hin.
    rewrite <- Hparts in Hin. destruct Hin as [Hin|Hin].
    - left. rewrite Hfallback. apply elem_of_app. left. exact Hin.
    - apply list_elem_of_In, in_map_iff in Hin as (c & Hc & Hin).
      apply list_elem_of_In, list_elem_of_lookup in Hin as [k Hk].
      pose (r := processPremiumizeCandidate mathFloorLog world k config (fst c) (snd c)
                   parsedId tmdbTitle).
      assert (Hsettled :
        (fst r, (fst c, snd r))
        ∈ settledOf mathFloorLog world config parsedId tmdbTitle
            (premiumizeCandidates (partition run))).
      { apply settledOf_lookup. exists k, c. auto. }
      destruct (snd r) as [s|] eqn:Hs.
      + right. exists s. split.
        * rewrite Hdirect. apply list_elem_of_omap. eexists. split; [exact Hsettled|].
          reflexivity.
        * apply processPremiumizeCandidate_group in Hs as (hash & Hhash & Hgroup).
          rewrite Hc in Hhash. congruence.
      + left. rewrite Hfallback. apply elem_of_app. right.
        apply list_elem_of_omap. eexists. split.
        * rewrite inArrivalOrder_Permutation. exact Hsettled.
        * unfold pushedTorrent. cbn [snd fst]. rewrite Hc. reflexivity. }
  destruct Hcase as [Hfb|(s & Hs & Hgroup)].
  - destruct (fallbackStream_of_hash mathFloorLog world parsedId torrent h Hh)
      as (s0 & Hs0 & Hhash0).
    assert (Hbuilt0 : s0 ∈ fallbackStreams run).
    { rewrite Hbuilt. apply list_elem_of_omap. exists torrent. auto. }
    assert (Hkey : Some h ∈ map Stream.infoHash (uniqueFallbackStreams run)).
    { rewrite Hunique, uniqueByInfoHash_keys. unfold firstOccurrences.
      apply firstOccurrencesFrom_elem. split; [|apply not_elem_of_nil].
      rewrite <- Hhash0. apply list_elem_of_In, in_map, list_elem_of_In, Hbuilt0. }
    apply list_elem_of_In, in_map_iff in Hkey as (s & Hhash & Hs).
    apply list_elem_of_In in Hs.
    assert (Hs' : s ∈ fallbackStreams run).
    { rewrite Hunique in Hs. apply uniqueByInfoHash_elem, lastEntry_elem in Hs. exact Hs. }
    apply fallbackStreams_shape in Hs' as (Hname & Hurl & Htitle & Hpresent).
    exists s. split; [|left; auto].
    apply elem_of_app. right. apply list_elem_of_In, filter_In. split.
    + apply list_elem_of_In, Hs.
    + unfold keepStream. rewrite Hname, Hpresent, Hhash, Htitle.
      rewrite (bool_decide_eq_true_2 (is_Some (Some h))) by eauto.
      rewrite orb_true_r. reflexivity.
  - exists s. split; [apply elem_of_app; left; exact Hs|]. right. split; [exact Hgroup|].
    apply premiumizeStreams_shape in Hs. apply Hs.
Qed.

Lemma createStreams_covers_results_witness :
  exists s,
    s ∈ createStreamsFromTorrents exactFloorLog offlineWorld
          [sampleTorrent "first" sampleHash1; sampleTorrent "second" sampleHash1]
          movieRequest None (sampleConfig None None) /\
    (Stream.infoHash s = Some sampleHash1 /\ Stream.url s = None \/
     Stream.bingeGroup s = Some ("premiumize-" +:+ sampleHash1) /\
     is_Some (present (Stream.url s))).
Proof.
  apply (createStreams_covers_results exactFloorLog offlineWorld
           [sampleTorrent "first" sampleHash1; sampleTorrent "second" sampleHash1]
           movieRequest None (sampleConfig None None) (sampleTorrent "first" sampleHash1)).
  - apply list_elem_of_here.
  - vm_compute. reflexivity.
Defined.

(** X10: every stream returned stems from a search result with a readable
    info hash, the torrent streams have pairwise distinct hashes, and there
    are never more streams than search results. *)
Theorem createStreams_from_results (mathFloorLog : Z -> Z) (world : StreamWorld)
    (searchResults : list TorrentInfo.t) (parsedId : ParsedId)
    (tmdbTitle : option string) (config : Config) :
  let out :=
    createStreamsFromTorrents mathFloorLog world searchResults parsedId tmdbTitle config in
  (forall s, s ∈ out ->
     exists torrent h,
       torrent ∈ searchResults /\ infoHashOf torrent = Some h /\
       (Stream.infoHash s = Some h \/ Stream.bingeGroup s = Some ("premiumize-" +:+ h))) /\
  NoDup (omap Stream.infoHash out) /\
  (length out <= length searchResults)%nat.
Proof.
  cbv zeta. rewrite createStreams_split.
  destruct (synthesize_stages mathFloorLog world searchResults parsedId tmdbTitle config)
    as (Hparts & Hdirect & Hfallback & Hbuilt & Hunique).
  cbv zeta in Hdirect, Hfallback.
  pose proof (allFallbackTorrents_results mathFloorLog world searchResults parsedId
                tmdbTitle config) as Hresults.
  pose proof (premiumizeStreams_shape mathFloorLog world searchResults parsedId
                tmdbTitle config) as Hshape.
  pose proof (fallbackStreams_shape mathFloorLog world searchResults parsedId
                tmdbTitle config) as Hfshape.
  set (run := synthesize mathFloorLog world searchResults parsedId tmdbTitle config) in *.
  split; [|split].
  - intros s Hs. apply elem_of_app in Hs as [Hs|Hs].
    + rewrite Hdirect in Hs. apply list_elem_of_omap in Hs as (r & Hr & Hs).
      apply settledOf_lookup in Hr as (k & c & Hc & Ht & Hsnd & _).
      rewrite Hsnd in Hs. apply processPremiumizeCandidate_group in Hs as (hash & Hhash & Hg).
      exists (fst c), hash. split; [|auto].
      apply (partition_cover config (premiumizeResults world config searchResults)).
      right. rewrite <- Hparts.
      apply list_elem_of_In, in_map, list_elem_of_In. eapply list_elem_of_lookup_2, Hc.
    + apply list_elem_of_In, filter_In in Hs as [Hs Hkeep]. apply list_elem_of_In in Hs.
      rewrite Hunique in Hs. apply uniqueByInfoHash_elem, lastEntry_elem in Hs.
      pose proof (Hfshape s Hs) as (_ & Hurl & _ & _).
      apply keepStream_invariant in Hkeep as [Hk|[Hk _]].
      { rewrite Hurl in Hk. destruct Hk as [x Hx]. discriminate. }
      destruct Hk as [h Hh]. apply present_Some in Hh as [Hh _].
      rewrite Hbuilt in Hs. apply list_elem_of_omap in Hs as (t & Ht & Hst).
      apply fallbackStream_shape in Hst as (_ & _ & _ & Hhash).
      rewrite Hh in Hhash. symmetry in Hhash. apply present_Some in Hhash as [Hhash _].
      exists t, h. auto.
  - rewrite omap_app, (omap_none Stream.infoHash (premiumizeStreams run)).
    + cbn [app]. apply NoDup_omap_filter. rewrite Hunique. apply uniqueByInfoHash_NoDup.
    + intros s Hs. apply Hshape in Hs. apply Hs.
  - rewrite length_app.
    pose proof (filter_length_le keepStream (uniqueFallbackStreams run)) as H1.
    pose proof (uniqueByInfoHash_length (fallbackStreams run)) as H2. rewrite <- Hunique in H2.
    pose proof (omap_length (fallbackStream mathFloorLog world parsedId)
                  (allFallbackTorrents run)) as H3.
    rewrite <- Hbuilt in H3.
    assert (H4 : (length (allFallbackTorrents run) + length (premiumizeStreams run)
                  = length searchResults)%nat).
    { rewrite Hfallback, Hdirect, length_app.
      pose proof (settled_split
                    (settledOf mathFloorLog world config parsedId tmdbTitle
                       (premiumizeCandidates (partition run)))) as H5.
      assert (H6 : length (omap pushedTorrent
                             (inArrivalOrder
                                (settledOf mathFloorLog world config parsedId tmdbTitle
                                   (premiumizeCandidates (partition run)))))
                   = length (omap pushedTorrent
                               (settledOf mathFloorLog world config parsedId tmdbTitle
                                  (premiumizeCandidates (partition run))))).
      { apply Permutation_length. rewrite inArrivalOrder_Permutation. reflexivity. }
      rewrite H6.
      pose proof (partition_length config (premiumizeResults world config searchResults)
                    searchResults) as H7.
      rewrite <- Hparts in H7.
      assert (H8 : length (settledOf mathFloorLog world config parsedId tmdbTitle
                             (premiumizeCandidates (partition run)))
                   = length (premiumizeCandidates (partition run))).
      { unfold settledOf. apply length_imap. }
      lia. }
    lia.
Qed.

(** The insertion-ordered set holds what was added, once. *)
Lemma setAdd_elem (s : list string) (x y : string) : y ∈ setAdd s x <-> y ∈ s \/ y = x.
Proof.
  unfold setAdd. case_bool_decide as Hx.
  - split; [auto|]. intros [H| ->]; assumption.
  - rewrite elem_of_app, list_elem_of_singleton. tauto.
Qed.

Lemma setAdd_NoDup (s : list string) (x : string) : NoDup s -> NoDup (setAdd s x).
Proof.
  intros Hs. unfold setAdd. case_bool_decide as Hx; [assumption|].
  apply NoDup_app. split; [assumption|]. split; [|apply NoDup_singleton].
  intros y Hy Hy'. apply list_elem_of_singleton in Hy'. subst y. contradiction.
Qed.

Lemma foldl_setAdd (items acc : list string) :
  NoDup acc ->
  NoDup (foldl setAdd acc items) /\
  forall y, y ∈ foldl setAdd acc items <-> y ∈ acc \/ y ∈ items.
Proof.
  revert acc. induction items as [|x items IH]; intros acc Hacc; cbn [foldl].
  - split; [assumption|]. intros y. rewrite elem_of_nil. tauto.
  - destruct (IH (setAdd acc x) (setAdd_NoDup acc x Hacc)) as [Hnd Helem].
    split; [assumption|]. intros y. rewrite Helem, setAdd_elem, elem_of_cons. tauto.
Qed.

Lemma newSet_NoDup (items : list string) : NoDup (newSet items).
Proof. apply foldl_setAdd. constructor. Qed.

Lemma newSet_elem (items : list string) (y : string) : y ∈ newSet items <-> y ∈ items.
Proof.
  unfold newSet. destruct (foldl_setAdd items [] (NoDup_nil_2)) as [_ H].
  rewrite H, elem_of_nil. tauto.
Qed.

(** The sources of a torrent stream built from a torrent with a readable
    magnet link. *)
Lemma fallbackStream_sources (mathFloorLog : Z -> Z) (world : StreamWorld)
    (parsedId : ParsedId) (torrent : TorrentInfo.t) (s : Stream.t) (h : string) :
  fallbackStream mathFloorLog world parsedId torrent = Some s ->
  Stream.infoHash s = Some h ->
  exists pm,
    parseMagnetUri (TorrentInfo.magnetUrl torrent) = Some pm /\
    infoHash pm = Some h /\
    Stream.sources s <> Some [] /\
    NoDup (default [] (Stream.sources s)) /\
    forall x, x ∈ default [] (Stream.sources s) <->
              exists t, (t ∈ sources pm \/ t ∈ getTrackers world) /\ x = "tracker:" +:+ t.
Proof.
  unfold fallbackStream.
  destruct (present (TorrentInfo.magnetUrl torrent)) as [magnetUrl|] eqn:Hm.
  - apply present_Some in Hm as [Hm _]. rewrite Hm.
    destruct (parseMagnetUri (Some magnetUrl)) as [pm|]; [|discriminate].
    cbn [mbind option_bind id fmap option_map default].
    destruct (negb _ && negb _); [discriminate|]. intros [= <-].
    cbn [Stream.infoHash Stream.sources]. intros Hh. apply present_Some in Hh as [Hh _].
    exists pm. split; [reflexivity|]. split; [assumption|].
    set (all := newSet _).
    assert (Hall : forall x, x ∈ all <->
                     exists t, (t ∈ sources pm \/ t ∈ getTrackers world) /\
                               x = "tracker:" +:+ t).
    { intros x. unfold all. rewrite newSet_elem, elem_of_app, !list_elem_of_fmap.
      split.
      - intros [(t & -> & Ht)|(t & -> & Ht)]; exists t; auto.
      - intros (t & [Ht|Ht] & ->); [left | right]; exists t; auto. }
    assert (Hnd : NoDup all) by apply newSet_NoDup.
    destruct all as [|a all']; cbn [default];
      (split; [discriminate|]); (split; [assumption | exact Hall]).
  - cbn [mbind option_bind]. change (present None) with (@None string).
    destruct (negb _ && negb _); [discriminate|]. intros [= <-].
    cbn [Stream.infoHash]. discriminate.
Qed.

(** X11: the sources of a torrent stream are exactly the trackers of its
    magnet link and the fetched trackers, each written [tracker:...] and
    listed once; a stream without any tracker has no sources field. *)
Theorem createStreams_tracker_sources (mathFloorLog : Z -> Z) (world : StreamWorld)
    (searchResults : list TorrentInfo.t) (parsedId : ParsedId)
    (tmdbTitle : option string) (config : Config) (s : Stream.t) :
  s ∈ createStreamsFromTorrents mathFloorLog world searchResults parsedId tmdbTitle config ->
  Stream.url s = None ->
  exists torrent pm,
    torrent ∈ searchResults /\
    parseMagnetUri (TorrentInfo.magnetUrl torrent) = Some pm /\
    infoHash pm = Stream.infoHash s /\
    Stream.sources s <> Some [] /\
    NoDup (default [] (Stream.sources s)) /\
    forall x, x ∈ default [] (Stream.sources s) <->
              exists t, (t ∈ sources pm \/ t ∈ getTrackers world) /\ x = "tracker:" +:+ t.
Proof.
  rewrite createStreams_split. intros Hs Hurl.
  apply elem_of_app in Hs as [Hs|Hs].
  { apply premiumizeStreams_shape in Hs as [[u Hu] _]. rewrite Hurl in Hu. discriminate. }
  apply list_elem_of_In, filter_In in Hs as [Hs Hkeep]. apply list_elem_of_In in Hs.
  destruct (synthesize_stages mathFloorLog world searchResults parsedId tmdbTitle config)
    as (_ & _ & _ & Hbuilt & Hunique).
  rewrite Hunique in Hs. apply uniqueByInfoHash_elem, lastEntry_elem in Hs.
  rewrite Hbuilt in Hs. apply list_elem_of_omap in Hs as (t & Ht & Hst).
  apply allFallbackTorrents_results in Ht.
  apply keepStream_invariant in Hkeep as [[u Hu]|[[h Hh] _]].
  { rewrite Hurl in Hu. discriminate. }
  apply present_Some in Hh as [Hh _].
  destruct (fallbackStream_sources mathFloorLog world parsedId t s h Hst Hh)
    as (pm & Hpm & Hhash & Hne & Hnd & Hall).
  exists t, pm. rewrite Hh.
  split; [exact Ht|]. split; [exact Hpm|]. split; [exact Hhash|]. split; [exact Hne|].
  split; [exact Hnd | exact Hall].
Qed.

Lemma createStreams_tracker_sources_witness :
  exists torrent pm,
    torrent ∈ [sampleTorrent "one" sampleHash1] /\
    parseMagnetUri (TorrentInfo.magnetUrl torrent) = Some pm /\
    infoHash pm = Stream.infoHash (sampleStream "one" sampleHash1) /\
    Stream.sources (sampleStream "one" sampleHash1) <> Some [] /\
    NoDup (default [] (Stream.sources (sampleStream "one" sampleHash1))) /\
    forall x, x ∈ default [] (Stream.sources (sampleStream "one" sampleHash1)) <->
              exists t, (t ∈ sources pm \/ t ∈ getTrackers offlineWorld) /\
                        x = "tracker:" +:+ t.
Proof.
  apply (createStreams_tracker_sources exactFloorLog offlineWorld
           [sampleTorrent "one" sampleHash1] movieRequest None (sampleConfig None None)
           (sampleStream "one" sampleHash1)).
  - vm_compute. apply list_elem_of_here.
  - reflexivity.
Defined.

(** ** Query builder, further properties *)

Lemma finishSearch_cases (found : list TorrentInfo.t) (title : option string) :
  finishSearch found title
  = match found with
    | [] => Returns None
    | _ => Returns (Some (mkSearchResult found title))
    end.
Proof. destruct found; reflexivity. Qed.

(** X12: without a title (no TMDB key, or a lookup that gives nothing)
    the only query is the IMDb id itself; there is no second search, and the
    result carries no title. *)
Theorem fetchAndSearchTorrents_without_title (world : SearchWorld) (parsedId : ParsedId)
    (config : Config) :
  (present (tmdbApiKey config) = None \/
   forall key, getTmdbDetails world (imdbId parsedId) key (searchType parsedId) = None) ->
  queries (fetchAndSearchTorrents world parsedId config) = [imdbId parsedId] /\
  outcome (fetchAndSearchTorrents world parsedId config)
  = match bitmagnetSearch world 0 (imdbId parsedId) (searchType parsedId) with
    | Throws => Throws
    | Returns [] => Returns None
    | Returns found => Returns (Some (mkSearchResult found None))
    end.
Proof.
  intros Hno. unfold fetchAndSearchTorrents.
  assert (Hdetails :
    match present (tmdbApiKey config) with
    | Some key => getTmdbDetails world (imdbId parsedId) key (searchType parsedId)
    | None => None
    end = None).
  { destruct Hno as [-> | Hno]; [reflexivity|]. destruct (present _); [apply Hno | reflexivity]. }
  rewrite Hdetails. cbv zeta. cbn [fmap option_map mbind option_bind].
  change (present None) with (@None string).
  destruct (bitmagnetSearch world 0 (imdbId parsedId) (searchType parsedId)) as [found|];
    [|split; reflexivity].
  destruct found as [|t found]; [|split; reflexivity].
  destruct (isSeries (searchType parsedId)), (season parsedId); split; reflexivity.
Qed.

Lemma fetchAndSearchTorrents_without_title_witness :
  queries (fetchAndSearchTorrents seasonOnlyWorld episodeRequest (sampleConfig None None))
  = ["tt0111161"].
Proof.
  apply (fetchAndSearchTorrents_without_title seasonOnlyWorld episodeRequest
           (sampleConfig None None)).
  left. reflexivity.
Defined.

(** X13: the backend is asked once or twice; twice only for a series
    request with a season whose first search came back empty; what is
    returned is never an empty list but exactly what the last search gave, and
    the function throws exactly when its last search throws. *)
Theorem fetchAndSearchTorrents_run (world : SearchWorld) (parsedId : ParsedId)
    (config : Config) :
  let run := fetchAndSearchTorrents world parsedId config in
  let answer q :=
    bitmagnetSearch world (length (queries run) - 1) q (searchType parsedId) in
  (exists q, queries run = [q] \/
             exists q', queries run = [q; q'] /\
                        searchType parsedId = series /\ is_Some (season parsedId) /\
                        bitmagnetSearch world 0 q series = Returns []) /\
  (forall r, outcome run = Returns (Some r) ->
             torrents r <> [] /\
             exists q, last (queries run) = Some q /\ answer q = Returns (torrents r)) /\
  (outcome run = Returns None <->
   exists q, last (queries run) = Some q /\ answer q = Returns []) /\
  (outcome run = Throws <-> exists q, last (queries run) = Some q /\ answer q = Throws).
Proof.
  cbv zeta. unfold fetchAndSearchTorrents. cbv zeta.
  set (details := match present (tmdbApiKey config) with
                  | Some key => getTmdbDetails world (imdbId parsedId) key (searchType parsedId)
                  | None => None
                  end).
  set (searchQuery := match details with
                      | Some d => _
                      | None => imdbId parsedId
                      end).
  set (title := tmdb_title <$> details).
  set (year := details ≫= tmdb_year).
  assert (Hsingle : forall found,
    bitmagnetSearch world 0 searchQuery (searchType parsedId) = Returns found ->
    let run := mkSearchRun [searchQuery] (finishSearch found title) in
    (exists q, queries run = [q] \/
               exists q', queries run = [q; q'] /\
                          searchType parsedId = series /\ is_Some (season parsedId) /\
                          bitmagnetSearch world 0 q series = Returns []) /\
    (forall r, outcome run = Returns (Some r) ->
               torrents r <> [] /\
               exists q, last (queries run) = Some q /\
                         bitmagnetSearch world (length (queries run) - 1) q
                           (searchType parsedId) = Returns (torrents r)) /\
    (outcome run = Returns None <->
     exists q, last (queries run) = Some q /\
               bitmagnetSearch world (length (queries run) - 1) q (searchType parsedId)
               = Returns []) /\
    (outcome run = Throws <->
     exists q, last (queries run) = Some q /\
               bitmagnetSearch world (length (queries run) - 1) q (searchType parsedId)
               = Throws)).
  { intros found Hfound. cbv zeta. cbn [queries outcome last length Nat.sub].
    rewrite finishSearch_cases. split; [exists searchQuery; left; reflexivity|].
    split; [|split].
    - intros r Hr. destruct found as [|t found]; [discriminate|].
      injection Hr as <-. cbn [torrents]. split; [discriminate|].
      exists searchQuery. auto.
    - split.
      + intros Hr. exists searchQuery. split; [reflexivity|].
        destruct found; [assumption | discriminate].
      + intros (q & [= <-] & Hq). rewrite Hq in Hfound. injection Hfound as <-. reflexivity.
    - split.
      + destruct found; discriminate.
      + intros (q & [= <-] & Hq). rewrite Hq in Hfound. discriminate. }
  destruct (bitmagnetSearch world 0 searchQuery (searchType parsedId)) as [found|] eqn:Hfirst.
  2:{ cbn [queries outcome last length Nat.sub]. split; [exists searchQuery; left; reflexivity|].
      split; [discriminate|]. split.
      - split; [discriminate|]. intros (q & [= <-] & Hq). rewrite Hq in Hfirst. discriminate.
      - split; [|reflexivity]. intros _. exists searchQuery. auto. }
  specialize (Hsingle found eq_refl). cbv zeta in Hsingle.
  destruct found as [|t found]; [|exact Hsingle].
  destruct (isSeries (searchType parsedId)) eqn:Hseries; [|exact Hsingle].
  destruct (season parsedId) as [s|] eqn:Hseason; [|exact Hsingle].
  destruct (present title) as [tt|]; [|exact Hsingle].
  assert (Htype : searchType parsedId = series).
  { destruct (searchType parsedId); [discriminate | reflexivity]. }
  set (seasonQuery := baseQueryOf tt year +:+ " S" +:+ pad2 s).
  destruct (bitmagnetSearch world 1 seasonQuery (searchType parsedId)) as [again|] eqn:Hsecond;
    cbn [queries outcome last length Nat.sub].
  - rewrite finishSearch_cases. split.
    { exists searchQuery. right. exists seasonQuery.
      pose proof Hfirst as Hf. rewrite Htype in Hf.
      split; [reflexivity|]. split; [exact Htype|]. split; [eauto | exact Hf]. }
    split; [|split].
    + intros r Hr. destruct again as [|t again]; [discriminate|].
      injection Hr as <-. cbn [torrents]. split; [discriminate|].
      exists seasonQuery. auto.
    + split.
      * intros Hr. exists seasonQuery. split; [reflexivity|].
        destruct again; [assumption | discriminate].
      * intros (q & [= <-] & Hq). rewrite Hq in Hsecond. injection Hsecond as <-. reflexivity.
    + split.
      * destruct again; discriminate.
      * intros (q & [= <-] & Hq). rewrite Hq in Hsecond. discriminate.
  - split.
    { exists searchQuery. right. exists seasonQuery.
      pose proof Hfirst as Hf. rewrite Htype in Hf.
      split; [reflexivity|]. split; [exact Htype|]. split; [eauto | exact Hf]. }
    split; [discriminate|]. split.
    + split; [discriminate|]. intros (q & [= <-] & Hq). rewrite Hq in Hsecond. discriminate.
    + split; [|reflexivity]. intros _. exists seasonQuery. auto.
Qed.

(** ** Escaping *)

Lemma replaceAll_append (c : ascii) (replacement a b : string) :
  replaceAll c replacement (a +:+ b)
  = replaceAll c replacement a +:+ replaceAll c replacement b.
Proof.
  induction a as [|x a IH]; push_append; [reflexivity|]. cbn [replaceAll].
  rewrite IH, append_assoc. reflexivity.
Qed.

Lemma replaceAll_mapChars (c : ascii) (replacement s : string) :
  replaceAll c replacement s
  = mapChars (fun x => if (x =? c)%char then replacement else String x "") s.
Proof. induction s as [|x s IH]; cbn [replaceAll mapChars]; [|rewrite IH]; reflexivity. Qed.

Lemma replaceAll_over_mapChars (c : ascii) (replacement : string) (f : ascii -> string)
    (s : string) :
  replaceAll c replacement (mapChars f s)
  = mapChars (fun x => replaceAll c replacement (f x)) s.
Proof.
  induction s as [|x s IH]; cbn [mapChars]; [reflexivity|].
  rewrite replaceAll_append, IH. reflexivity.
Qed.

Lemma mapChars_ext (f g : ascii -> string) (s : string) :
  (forall c, f c = g c) -> mapChars f s = mapChars g s.
Proof.
  intros H. induction s as [|x s IH]; cbn [mapChars]; [|rewrite H, IH]; reflexivity.
Qed.

Lemma mapChars_allChars (p : ascii -> bool) (f : ascii -> string) (s : string) :
  (forall c, allChars p (f c) = true) -> allChars p (mapChars f s) = true.
Proof.
  intros H. induction s as [|x s IH]; cbn [mapChars]; [reflexivity|].
  rewrite allChars_append, H, IH. reflexivity.
Qed.

Lemma escapeHtml_one_pass (unsafe : string) : escapeHtml unsafe = mapChars htmlEntity unsafe.
Proof.
  unfold escapeHtml. rewrite (replaceAll_mapChars "&"), !replaceAll_over_mapChars.
  apply mapChars_ext. intros c. unfold htmlEntity.
  destruct c as [[] [] [] [] [] [] [] []]; vm_compute; reflexivity.
Qed.

Lemma escapeJsString_one_pass (unsafe : string) :
  escapeJsString unsafe = mapChars jsEscape unsafe.
Proof.
  unfold escapeJsString. rewrite (replaceAll_mapChars backslash), !replaceAll_over_mapChars.
  apply mapChars_ext. intros c. unfold jsEscape.
  destruct c as [[] [] [] [] [] [] [] []]; vm_compute; reflexivity.
Qed.

(** X14: the five replacements of [escapeHtml] amount to one pass that
    writes each of the five special characters as its entity, and the text
    returned holds no angle bracket and no quote of either kind. *)
Theorem escapeHtml_safe (unsafe : string) :
  escapeHtml unsafe = mapChars htmlEntity unsafe /\
  noChar "<" (escapeHtml unsafe) = true /\
  noChar ">" (escapeHtml unsafe) = true /\
  noChar doubleQuote (escapeHtml unsafe) = true /\
  noChar "'" (escapeHtml unsafe) = true.
Proof.
  rewrite escapeHtml_one_pass. split; [reflexivity|].
  repeat split; unfold noChar; apply mapChars_allChars; intros c; unfold htmlEntity;
    destruct c as [[] [] [] [] [] [] [] []]; vm_compute; reflexivity.
Qed.

Lemma htmlEntity_cases (c : ascii) :
  (htmlEntity c = String c "" /\ c <> "&"%char) \/
  exists second rest, htmlEntity c = String "&" (String second rest) /\
                      noChar "&" (String second rest) = true /\
                      forall c', htmlEntity c' = String "&" (String second rest) -> c' = c.
Proof.
  destruct c as [[] [] [] [] [] [] [] []];
    try (left; split; [reflexivity | discriminate]);
    right; eexists; eexists; (split; [reflexivity|]); (split; [reflexivity|]);
    intros c'; destruct c' as [[] [] [] [] [] [] [] []]; vm_compute; congruence.
Qed.

Lemma htmlEntity_head (c : ascii) :
  exists x tail, htmlEntity c = String x tail /\ (x = "&"%char <-> htmlEntity c <> String c "").
Proof.
  destruct c as [[] [] [] [] [] [] [] []]; eexists; eexists;
    (split; [reflexivity|]); vm_compute; split; congruence.
Qed.

(** Two texts that agree after an entity without ampersand agree. *)
Lemma entity_tail_cancel (tail a b : string) : tail +:+ a = tail +:+ b -> a = b.
Proof.
  induction tail as [|x tail IH]; push_append; [auto|]. intros [= H]. auto.
Qed.

(** X15: [escapeHtml] loses nothing: two texts with the same escaped form
    are the same text. *)
Theorem escapeHtml_injective (a b : string) : escapeHtml a = escapeHtml b -> a = b.
Proof.
  rewrite !escapeHtml_one_pass. revert b.
  induction a as [|x a IH]; intros [|y b]; cbn [mapChars].
  - reflexivity.
  - destruct (htmlEntity_head y) as (h & t & -> & _). push_append. discriminate.
  - destruct (htmlEntity_head x) as (h & t & -> & _). push_append. discriminate.
  - intros H.
    assert (Hxy : x = y).
    { destruct (htmlEntity_cases x) as [[Hx Hnx]|(sx & rx & Hx & _ & Hux)];
        destruct (htmlEntity_cases y) as [[Hy Hny]|(sy & ry & Hy & _ & Huy)];
        rewrite Hx, Hy in H; rewrite ?append_cons, ?append_nil_l in H.
      - injection H as H _. exact H.
      - injection H as H _. contradiction.
      - injection H as H _. symmetry in H. contradiction.
      - clear IH Hux Huy. revert Hx Hy H.
        destruct x as [[] [] [] [] [] [] [] []]; try discriminate;
          destruct y as [[] [] [] [] [] [] [] []]; try discriminate;
          vm_compute; intros; congruence. }
    subst y. f_equal. apply IH. eapply entity_tail_cancel, H.
Qed.

Lemma escapeHtml_injective_witness : "a<b" = "a<b".
Proof. apply (escapeHtml_injective "a<b" "a<b"). reflexivity. Defined.

(** X16: the five replacements of [escapeJsString] amount to one pass
    that puts a backslash before every backslash and quote and writes a line
    feed and a carriage return as their two-character escapes; the text
    returned holds no line break. *)
Theorem escapeJsString_safe (unsafe : string) :
  escapeJsString unsafe = mapChars jsEscape unsafe /\
  noChar lineFeed (escapeJsString unsafe) = true /\
  noChar carriageReturn (escapeJsString unsafe) = true.
Proof.
  rewrite escapeJsString_one_pass. split; [reflexivity|].
  split; unfold noChar; apply mapChars_allChars; intros c; unfold jsEscape;
    destruct c as [[] [] [] [] [] [] [] []]; vm_compute; reflexivity.
Qed.

(** ** Backend search *)

Lemma parseGraphQLResults_elem (data : option GraphQL.Response) (t : TorrentInfo.t) :
  t ∈ parseGraphQLResults data <->
  exists item, item ∈ itemsOf data /\ (0 < seedersOf item)%Z /\ t = toTorrentInfo item.
Proof.
  unfold parseGraphQLResults. rewrite list_elem_of_fmap. split.
  - intros (item & -> & Hin). apply list_elem_of_In, filter_In in Hin as [Hin Hpos].
    exists item. split; [apply list_elem_of_In, Hin|]. split; [|reflexivity].
    unfold hasSeeders in Hpos. lia.
  - intros (item & Hin & Hpos & ->). exists item. split; [reflexivity|].
    apply list_elem_of_In, filter_In. split; [apply list_elem_of_In, Hin|].
    unfold hasSeeders. lia.
Qed.

(** X17: the torrents read from a backend answer all have at least one
    seeder, the seeder count the backend gave; they are as many as the items
    with a positive seeder count and carry their titles in the same order; an
    answer without items gives none. *)
Theorem parseGraphQLResults_seeded (data : option GraphQL.Response) :
  (forall t, t ∈ parseGraphQLResults data ->
     (0 < TorrentInfo.seeders t)%Z /\
     exists item torrent,
       item ∈ itemsOf data /\ GraphQL.torrent item = Some torrent /\
       GraphQL.seeders torrent = Some (TorrentInfo.seeders t) /\
       TorrentInfo.title t = GraphQL.title item /\
       TorrentInfo.magnetUrl t = GraphQL.magnetUri torrent) /\
  map TorrentInfo.title (parseGraphQLResults data)
  = map GraphQL.title (List.filter hasSeeders (itemsOf data)) /\
  (itemsOf data = [] -> parseGraphQLResults data = []).
Proof.
  split; [|split].
  - intros t Ht. apply parseGraphQLResults_elem in Ht as (item & Hin & Hpos & ->).
    cbn [toTorrentInfo TorrentInfo.seeders TorrentInfo.title TorrentInfo.magnetUrl].
    split; [exact Hpos|]. unfold seedersOf in *.
    destruct (GraphQL.torrent item) as [torrent|] eqn:Ht; cbn in Hpos; [|lia].
    destruct (GraphQL.seeders torrent) as [n|] eqn:Hn; cbn in Hpos; [|lia].
    exists item, torrent. cbn. rewrite Hn. auto.
  - unfold parseGraphQLResults. rewrite map_map. reflexivity.
  - unfold parseGraphQLResults. intros ->. reflexivity.
Qed.

Lemma bitmagnetSearchFrom_returns (config : Config) (answer : GraphQLFetch)
    (found : list TorrentInfo.t) :
  bitmagnetSearchFrom config answer = Returns found ->
  JS.truthy (bitmagnetUrl config) = true /\
  exists responseData,
    answer = GraphQLResponds true (Some responseData) /\
    (GraphQL.errors responseData = None \/ GraphQL.errors responseData = Some []) /\
    found = parseGraphQLResults (Some responseData).
Proof.
  unfold bitmagnetSearchFrom. destruct (JS.truthy (bitmagnetUrl config)); [|discriminate].
  cbn [negb]. destruct answer as [|[] [responseData|]]; try discriminate.
  destruct (GraphQL.errors responseData) as [[|e es]|] eqn:He; try discriminate;
    intros [= <-]; (split; [reflexivity|]); exists responseData; auto.
Qed.

(** X18: the search request always names a sort field of the backend's
    enumeration (the configured one when it is valid, [Seeders] otherwise),
    asks for the content type of the request kind from offset 0 with the
    configured limit; and the search returns only on an [ok] response without
    errors, with torrents that all have a seeder. *)
Theorem bitmagnetSearch_request (query : string) (type : SearchType) (config : Config)
    (answer : GraphQLFetch) :
  (exists field,
     orderBy (searchInput query type config) = [(field, bitmagnetSortDescending config)] /\
     field ∈ torrentContentOrderBy /\
     (bitmagnetSortField config ∈ torrentContentOrderBy -> field = bitmagnetSortField config) /\
     (bitmagnetSortField config ∉ torrentContentOrderBy -> field = "Seeders")) /\
  contentTypeFilter (searchInput query type config)
  = [if isSeries type then "tv_show" else "movie"] /\
  queryString (searchInput query type config) = query /\
  limit (searchInput query type config) = bitmagnetSearchLimit config /\
  offset (searchInput query type config) = 0%Z /\
  (forall found,
     bitmagnetSearchFrom config answer = Returns found ->
     (exists responseData, answer = GraphQLResponds true (Some responseData)) /\
     forall t, t ∈ found -> (0 < TorrentInfo.seeders t)%Z).
Proof.
  split; [|split; [destruct type; reflexivity|]].
  - unfold searchInput. cbv zeta. cbn [orderBy]. eexists. split; [reflexivity|].
    unfold orElse, present.
    assert (Hseeders : "Seeders" ∈ torrentContentOrderBy).
    { unfold torrentContentOrderBy. repeat constructor. }
    destruct (JS.truthy (bitmagnetSortField config)) eqn:Htruthy.
    + case_bool_decide as Hin.
      * split; [assumption|]. split; [reflexivity | contradiction].
      * split; [assumption|]. split; [contradiction | reflexivity].
    + assert (Hempty : bitmagnetSortField config = "").
      { destruct (bitmagnetSortField config); [reflexivity | discriminate]. }
      rewrite Hempty, bool_decide_eq_true_2 by assumption.
      split; [assumption|]. split; [|reflexivity].
      intros Hin. exfalso. unfold torrentContentOrderBy in Hin.
      repeat (apply elem_of_cons in Hin as [Hin|Hin]; [discriminate|]).
      inversion Hin.
  - split; [reflexivity|]. split; [reflexivity|]. split; [reflexivity|].
    intros found Hfound.
    apply bitmagnetSearchFrom_returns in Hfound as (_ & responseData & -> & _ & ->).
    split; [eauto|]. intros t Ht.
    apply parseGraphQLResults_elem in Ht as (item & _ & Hpos & ->). exact Hpos.
Qed.

Lemma bitmagnetSearchFrom_no_url (config : Config) (answer : GraphQLFetch) :
  bitmagnetUrl config = "" -> bitmagnetSearchFrom config answer = Throws.
Proof. intros H. unfold bitmagnetSearchFrom. rewrite H. reflexivity. Qed.

(** X19: with the backend behind the query builder, every torrent that
    [fetchAndSearchTorrents] hands on has at least one seeder, and without a
    Bitmagnet URL in the configuration it throws after its first query. *)
Theorem fetchAndSearchTorrents_seeded
    (tmdb : string -> string -> SearchType -> option TmdbDetails)
    (backend : nat -> SearchInput -> GraphQLFetch) (parsedId : ParsedId) (config : Config) :
  let run := fetchAndSearchTorrents (backendWorld tmdb backend config) parsedId config in
  (forall r t, outcome run = Returns (Some r) -> t ∈ torrents r ->
               (0 < TorrentInfo.seeders t)%Z) /\
  (bitmagnetUrl config = "" -> outcome run = Throws /\ length (queries run) = 1%nat).
Proof.
  cbv zeta. unfold fetchAndSearchTorrents. cbv zeta.
  set (details := match present (tmdbApiKey config) with
                  | Some key => tmdb (imdbId parsedId) key (searchType parsedId)
                  | None => None
                  end).
  cbn [getTmdbDetails bitmagnetSearch backendWorld]. fold details.
  set (searchQuery := match details with
                      | Some d => _
                      | None => imdbId parsedId
                      end).
  set (title := tmdb_title <$> details).
  set (year := details ≫= tmdb_year).
  assert (Hseeded : forall k q found t,
            bitmagnetSearchFrom config (backend k (searchInput q (searchType parsedId) config))
            = Returns found ->
            t ∈ found -> (0 < TorrentInfo.seeders t)%Z).
  { intros k q found t Hfound Ht.
    apply bitmagnetSearchFrom_returns in Hfound as (_ & responseData & _ & _ & ->).
    apply parseGraphQLResults_elem in Ht as (item & _ & Hpos & ->). exact Hpos. }
  assert (Hfinish : forall found r t,
            (forall t, t ∈ found -> (0 < TorrentInfo.seeders t)%Z) ->
            finishSearch found title = Returns (Some r) -> t ∈ torrents r ->
            (0 < TorrentInfo.seeders t)%Z).
  { intros found r t Hall Hr Ht. rewrite finishSearch_cases in Hr.
    destruct found; [discriminate|]. injection Hr as <-. apply Hall, Ht. }
  split.
  - intros r t.
    destruct (bitmagnetSearchFrom config
                (backend 0%nat (searchInput searchQuery (searchType parsedId) config)))
      as [found|] eqn:Hfirst; [|discriminate].
    assert (Hfound : forall t, t ∈ found -> (0 < TorrentInfo.seeders t)%Z)
      by (intros t' Ht'; eapply Hseeded; eassumption).
    destruct found as [|t0 found]; [|apply Hfinish, Hfound].
    destruct (isSeries (searchType parsedId)); [|apply Hfinish, Hfound].
    destruct (season parsedId) as [s|]; [|apply Hfinish, Hfound].
    destruct (present title) as [tt|]; [|apply Hfinish, Hfound].
    destruct (bitmagnetSearchFrom config (backend 1%nat _)) as [again|] eqn:Hsecond;
      [|discriminate].
    cbn [outcome]. apply Hfinish. intros t' Ht'. eapply Hseeded; eassumption.
  - intros Hurl. rewrite (bitmagnetSearchFrom_no_url config _ Hurl). split; reflexivity.
Qed.

Lemma fetchAndSearchTorrents_seeded_witness :
  outcome
    (fetchAndSearchTorrents
       (backendWorld (fun _ _ _ => None) (fun _ _ => GraphQLFails)
          (mkConfig "" None None 30 "Seeders" true 30))
       movieRequest (mkConfig "" None None 30 "Seeders" true 30))
  = Throws.
Proof.
  apply (fetchAndSearchTorrents_seeded (fun _ _ _ => None) (fun _ _ => GraphQLFails)
           movieRequest (mkConfig "" None None 30 "Seeders" true 30)).
  reflexivity.
Defined.

(** ** Tracker list *)

(** A white-space character read at the head of [a] is read the same way
    whatever follows [a]. *)
Lemma whiteSpaceLen_append (a w : string) (k : nat) :
  JS.whiteSpaceLen a = Some k ->
  JS.whiteSpaceLen (a +:+ w) = Some k /\ (0 < k <= String.length a)%nat.
Proof.
  intros H.
  destruct a as [|c1 [|c2 [|c3 a]]]; [discriminate H| | |]; push_append;
    unfold JS.whiteSpaceLen, JS.bytes in *;
    cbn [list_ascii_of_string take map String.length] in *.
  all: repeat match type of H with
              | match ?x with _ => _ end = _ => destruct x; try discriminate H
              | (if ?x then _ else _) = _ => destruct x; try discriminate H
              end.
  all: injection H as <-; split;
    [first [reflexivity | destruct w as [|d [|e r]]; reflexivity] | lia].
Qed.

Lemma allWhiteSpaceFrom_append (a w : string) (k : nat) :
  allWhiteSpaceFrom k a = true -> allWhiteSpace w = true ->
  allWhiteSpaceFrom k (a +:+ w) = true.
Proof.
  intros Ha Hw. revert k Ha. induction a as [|c a IH]; intros k Ha.
  - destruct k; [exact Hw | discriminate Ha].
  - push_append. cbn [allWhiteSpaceFrom] in Ha |- *. destruct k as [|k]; [|apply IH, Ha].
    destruct (JS.whiteSpaceLen (String c a)) as [[|j]|] eqn:Hlen; try discriminate Ha.
    destruct (whiteSpaceLen_append (String c a) w (S j) Hlen) as [Hlen' _].
    rewrite append_cons in Hlen'. rewrite Hlen'. apply IH, Ha.
Qed.

Lemma trimEnd_split (s : string) :
  exists w, s = trimEnd s +:+ w /\ allWhiteSpace w = true.
Proof.
  induction s as [|c s (w & Hs & Hw)]; [exists ""; split; reflexivity|].
  cbn [trimEnd]. destruct (allWhiteSpace (String c s)) eqn:Hall.
  - exists (String c s). split; [reflexivity | exact Hall].
  - exists w. split; [|exact Hw]. push_append. rewrite <- Hs. reflexivity.
Qed.

Lemma trimEnd_idem (s : string) : trimEnd (trimEnd s) = trimEnd s.
Proof.
  induction s as [|c s IH]; [reflexivity|]. cbn [trimEnd].
  destruct (allWhiteSpace (String c s)) eqn:Hall; [reflexivity|]. cbn [trimEnd].
  destruct (allWhiteSpace (String c (trimEnd s))) eqn:Hall'; [|rewrite IH; reflexivity].
  destruct (trimEnd_split s) as (w & Hs & Hw).
  pose proof (allWhiteSpaceFrom_append (String c (trimEnd s)) w 0 Hall' Hw) as H.
  rewrite append_cons, <- Hs in H. unfold allWhiteSpace in Hall. congruence.
Qed.

Lemma noChar_cons (c x : ascii) (s : string) :
  noChar c (String x s) = negb (x =? c)%char && noChar c s.
Proof. reflexivity. Qed.

Lemma trimEnd_noChar (c : ascii) (s : string) :
  noChar c s = true -> noChar c (trimEnd s) = true.
Proof.
  induction s as [|x s IH]; [reflexivity|]. cbn [trimEnd]. rewrite noChar_cons.
  intros H. apply andb_prop in H as [Hx Hs].
  destruct (allWhiteSpace (String x s)); [reflexivity|].
  rewrite noChar_cons, Hx, IH by assumption. reflexivity.
Qed.

Lemma drop_noChar (c : ascii) (k : nat) (s : string) :
  noChar c s = true -> noChar c (JS.drop k s) = true.
Proof.
  revert s. induction k as [|k IH]; intros s H; [destruct s; exact H|].
  destruct s as [|x s]; [exact H|]. cbn [JS.drop]. apply IH.
  rewrite noChar_cons in H. apply andb_prop in H as [_ H]. exact H.
Qed.

Lemma trimStartFuel_noChar (c : ascii) (fuel : nat) (s : string) :
  noChar c s = true -> noChar c (JS.trimStartFuel fuel s) = true.
Proof.
  revert s. induction fuel as [|fuel IH]; intros s H; [exact H|]. cbn [JS.trimStartFuel].
  destruct (JS.whiteSpaceLen s); [|exact H]. apply IH, drop_noChar, H.
Qed.

Lemma trim_noChar (c : ascii) (s : string) : noChar c s = true -> noChar c (trim s) = true.
Proof. intros H. apply trimEnd_noChar, trimStartFuel_noChar, H. Qed.

Lemma splitOn_noChar (sep : ascii) (s : string) :
  noChar sep (fst (JS.splitOn sep s)) = true /\
  Forall (fun piece => noChar sep piece = true) (snd (JS.splitOn sep s)).
Proof.
  induction s as [|x s [IHp IHps]]; [split; [reflexivity | constructor]|].
  cbn [JS.splitOn]. destruct (JS.splitOn sep s) as [piece pieces]. cbn [fst snd] in *.
  destruct (x =? sep)%char eqn:Hx; cbn [fst snd].
  - split; [reflexivity|]. constructor; assumption.
  - split; [|assumption]. rewrite noChar_cons, Hx, IHp. reflexivity.
Qed.

Lemma split_noChar (sep : ascii) (s piece : string) :
  piece ∈ JS.split s sep -> noChar sep piece = true.
Proof.
  unfold JS.split. pose proof (splitOn_noChar sep s) as [Hp Hps].
  destruct (JS.splitOn sep s) as [p ps]. cbn [fst snd] in *.
  intros Hin. apply elem_of_cons in Hin as [->|Hin]; [exact Hp|].
  rewrite Forall_forall in Hps. apply Hps, Hin.
Qed.

(** A line that passes the filter begins with a letter. *)
Lemma isTrackerLine_scheme (line : string) :
  isTrackerLine line = true ->
  (JS.startsWith line "udp://" = true \/ JS.startsWith line "http://" = true \/
   JS.startsWith line "https://" = true) /\
  JS.trimStart line = line.
Proof.
  unfold isTrackerLine. intros H. apply andb_prop in H as [_ H].
  assert (Hhead : exists rest, line = String "u" rest \/ line = String "h" rest).
  { destruct line as [|c rest]; [discriminate H|]. exists rest.
    unfold JS.startsWith in H. cbn [String.prefix] in H.
    destruct (ascii_dec "u" c) as [<-|Hu]; [left; reflexivity|].
    destruct (ascii_dec "h" c) as [<-|Hh]; [right; reflexivity|].
    discriminate H. }
  split.
  - apply orb_prop in H as [H|H]; [apply orb_prop in H as [H|H]|]; auto.
  - destruct Hhead as (rest & [-> | ->]); unfold JS.trimStart;
      cbn [String.length JS.trimStartFuel];
      destruct rest as [|d [|e r]]; reflexivity.
Qed.

(** X20: every tracker read from the fetched text is a line of it with
    the surrounding white space removed; it begins with one of the three
    schemes, holds no line feed and has no white space left at either end. *)
Theorem parseTrackerList_valid (text t : string) :
  t ∈ parseTrackerList text ->
  (JS.startsWith t "udp://" = true \/ JS.startsWith t "http://" = true \/
   JS.startsWith t "https://" = true) /\
  trim t = t /\
  noChar lineFeed t = true /\
  exists line, line ∈ JS.split text lineFeed /\ t = trim line.
Proof.
  unfold parseTrackerList. intros Hin.
  apply list_elem_of_In, filter_In in Hin as [Hin Hline].
  apply in_map_iff in Hin as (line & <- & Hin). apply list_elem_of_In in Hin.
  destruct (isTrackerLine_scheme _ Hline) as [Hscheme Hstart].
  split; [exact Hscheme|]. split; [|split].
  - unfold trim at 1. rewrite Hstart. unfold trim. apply trimEnd_idem.
  - apply trim_noChar, (split_noChar lineFeed text), Hin.
  - exists line. auto.
Qed.

Lemma parseTrackerList_valid_witness :
  JS.startsWith "udp://a:1/announce" "udp://" = true \/
  JS.startsWith "udp://a:1/announce" "http://" = true \/
  JS.startsWith "udp://a:1/announce" "https://" = true.
Proof.
  apply (parseTrackerList_valid
           ("  udp://a:1/announce " +:+ String lineFeed (String lineFeed
              ("ftp://x" +:+ String lineFeed "https://b")))
           "udp://a:1/announce").
  vm_compute. apply list_elem_of_here.
Defined.

(** The fetched list, when there is one, is not empty and holds tracker
    lines only. *)
Lemma fetchedTrackers_valid (answer : Trackers.Fetched) (trackers : list string) :
  Trackers.fetchedTrackers answer = Some trackers ->
  trackers <> [] /\ forall t, t ∈ trackers -> isTrackerLine t = true.
Proof.
  destruct answer as [|text]; [discriminate|]. cbn [Trackers.fetchedTrackers].
  destruct (parseTrackerList text) as [|t0 ts] eqn:Hparse; [discriminate|].
  intros [= <-]. split; [discriminate|]. intros t Ht. rewrite <- Hparse in Ht.
  unfold parseTrackerList in Ht. apply list_elem_of_In, filter_In in Ht. apply Ht.
Qed.

Lemma run_snoc (events : list Trackers.Event) (e : Trackers.Event) :
  Trackers.run (events ++ [e]) = Trackers.step (Trackers.run events) e.
Proof. unfold Trackers.run. rewrite foldl_snoc. reflexivity. Qed.

Lemma settled_snoc (st : Trackers.State) (events : list Trackers.Event)
    (e : Trackers.Event) :
  Trackers.settled st (events ++ [e])
  = (Trackers.settled st events
     + match e with
       | Trackers.Settles _ =>
           if Trackers.isFetching (foldl Trackers.step st events) then 1 else 0
       | Trackers.Call => 0
       end)%nat.
Proof.
  revert st. induction events as [|x events IH]; intros st; cbn [app Trackers.settled foldl].
  - lia.
  - rewrite IH. lia.
Qed.

(** What holds of the module's variables at every moment. *)
Lemma run_invariant (events : list Trackers.Event) :
  let st := Trackers.run events in
  (forall trackers, Trackers.cachedTrackers st = Some trackers ->
     Trackers.isFetching st = false /\ trackers <> [] /\
     forall t, t ∈ trackers -> isTrackerLine t = true) /\
  (Trackers.isFetching st = true ->
     Trackers.fetchPromise st = Some (Trackers.settled Trackers.initial events)) /\
  Trackers.promises st
  = (Trackers.settled Trackers.initial events
     + if Trackers.isFetching st then 1 else 0)%nat.
Proof.
  induction events as [|e events IH] using rev_ind.
  - cbn. split; [discriminate|]. split; [discriminate | reflexivity].
  - cbv zeta in IH |- *. rewrite run_snoc, settled_snoc.
    fold (Trackers.run events). destruct IH as (Hcache & Hflight & Hcount).
    set (st := Trackers.run events) in *.
    destruct e as [|answer]; cbn [Trackers.step].
    + unfold Trackers.fetchAndCacheTrackers.
      destruct (Trackers.isFetching st) eqn:Hf.
      * rewrite (Hflight eq_refl). cbn [fst]. rewrite Hf, Nat.add_0_r. auto.
      * destruct (Trackers.cachedTrackers st) as [trackers|] eqn:Hc.
        { cbn [fst]. rewrite Hf, Hc, Nat.add_0_r.
          split; [intros l [= <-]; apply Hcache; reflexivity|]. split; [discriminate|].
          exact Hcount. }
        cbn. split; [discriminate|]. rewrite Hcount. split; [intros _; f_equal|]; lia.
    + destruct (Trackers.isFetching st) eqn:Hf.
      * cbn. split.
        { intros l Hl. split; [reflexivity|].
          destruct (Trackers.fetchedTrackers answer) as [trackers|] eqn:Ha.
          - injection Hl as <-. apply fetchedTrackers_valid in Ha. exact Ha.
          - apply Hcache in Hl as [Hl _]. congruence. }
        split; [discriminate|]. lia.
      * rewrite Hf, Nat.add_0_r. auto.
Qed.

(** X21: at most one fetch of the tracker list is in flight at any time:
    the promises made are the fetches that ended, plus one exactly while the
    flag is up, and that one is the stored promise; a cached list is never
    empty, holds tracker lines only, and is only there when no fetch runs. *)
Theorem trackers_single_flight (events : list Trackers.Event) :
  let st := Trackers.run events in
  Trackers.promises st
  = (Trackers.settled Trackers.initial events
     + if Trackers.isFetching st then 1 else 0)%nat /\
  (Trackers.isFetching st = true ->
     Trackers.fetchPromise st = Some (Trackers.settled Trackers.initial events) /\
     Trackers.cachedTrackers st = None /\
     Trackers.fetchAndCacheTrackers st
     = (st, Trackers.FetchPromise (Trackers.settled Trackers.initial events))) /\
  (forall trackers, Trackers.cachedTrackers st = Some trackers ->
     trackers <> [] /\ forall t, t ∈ trackers -> isTrackerLine t = true).
Proof.
  cbv zeta. destruct (run_invariant events) as (Hcache & Hflight & Hcount).
  split; [exact Hcount|]. split.
  - intros Hf. specialize (Hflight Hf). split; [exact Hflight|].
    assert (Hnone : Trackers.cachedTrackers (Trackers.run events) = None).
    { destruct (Trackers.cachedTrackers (Trackers.run events)) as [l|] eqn:Hc; [|reflexivity].
      destruct (Hcache l eq_refl) as [Hc' _]. congruence. }
    split; [exact Hnone|]. unfold Trackers.fetchAndCacheTrackers. rewrite Hf, Hflight.
    reflexivity.
  - intros l Hl. apply Hcache in Hl. apply Hl.
Qed.

Lemma step_cached (st : Trackers.State) (e : Trackers.Event) (trackers : list string) :
  Trackers.cachedTrackers st = Some trackers -> Trackers.isFetching st = false ->
  Trackers.step st e = st.
Proof.
  intros Hc Hf. destruct e as [|answer]; cbn [Trackers.step]; [|rewrite Hf; reflexivity].
  unfold Trackers.fetchAndCacheTrackers. rewrite Hf, Hc.
  destruct (Trackers.fetchPromise st); reflexivity.
Qed.

(** X22: once a list is cached nothing changes any more: whatever
    happens later, no fetch is started, the cached list stays the same, and
    every call is answered with it at once. *)
Theorem trackers_cache_is_final (events more : list Trackers.Event)
    (trackers : list string) :
  Trackers.cachedTrackers (Trackers.run events) = Some trackers ->
  Trackers.run (events ++ more) = Trackers.run events /\
  Trackers.fetchAndCacheTrackers (Trackers.run (events ++ more))
  = (Trackers.run events, Trackers.Resolved trackers) /\
  Trackers.getTrackers (Some trackers) = trackers.
Proof.
  intros Hc. destruct (run_invariant events) as (Hcache & _ & _).
  destruct (Hcache trackers Hc) as (Hf & _ & _).
  assert (Hrun : Trackers.run (events ++ more) = Trackers.run events).
  { unfold Trackers.run. rewrite foldl_app. fold (Trackers.run events).
    induction more as [|e more IH]; [reflexivity|]. cbn [foldl].
    rewrite (step_cached _ e trackers Hc Hf). exact IH. }
  rewrite Hrun. split; [reflexivity|]. split; [|reflexivity].
  unfold Trackers.fetchAndCacheTrackers. rewrite Hf, Hc.
  destruct (Trackers.fetchPromise (Trackers.run events)); reflexivity.
Qed.

Lemma trackers_cache_is_final_witness :
  Trackers.run
    ([Trackers.Call; Trackers.Settles (Trackers.Text "udp://a")]
     ++ [Trackers.Call; Trackers.Settles Trackers.Fails; Trackers.Call])%list
  = Trackers.run [Trackers.Call; Trackers.Settles (Trackers.Text "udp://a")].
Proof.
  apply (trackers_cache_is_final
           [Trackers.Call; Trackers.Settles (Trackers.Text "udp://a")]
           [Trackers.Call; Trackers.Settles Trackers.Fails; Trackers.Call]
           ["udp://a"]).
  reflexivity.
Defined.

(** X23: a fetch that fails, or whose text holds no tracker, is not
    remembered: its promise resolves to [null], for which [getTrackers]
    answers the empty list, and the next call starts a new fetch. *)
Theorem trackers_failure_is_retried (events : list Trackers.Event)
    (answer : Trackers.Fetched) :
  Trackers.isFetching (Trackers.run events) = true ->
  Trackers.fetchedTrackers answer = None ->
  let st := Trackers.run (events ++ [Trackers.Settles answer]) in
  Trackers.cachedTrackers st = None /\
  Trackers.isFetching st = false /\
  Trackers.getTrackers (Trackers.fetchedTrackers answer) = [] /\
  snd (Trackers.fetchAndCacheTrackers st) = Trackers.FetchPromise (Trackers.promises st) /\
  Trackers.isFetching (fst (Trackers.fetchAndCacheTrackers st)) = true /\
  Trackers.promises (fst (Trackers.fetchAndCacheTrackers st)) = S (Trackers.promises st).
Proof.
  intros Hf Ha. cbv zeta. rewrite run_snoc. cbn [Trackers.step]. rewrite Hf.
  destruct (run_invariant events) as (Hcache & _ & _).
  assert (Hnone : Trackers.cachedTrackers (Trackers.run events) = None).
  { destruct (Trackers.cachedTrackers (Trackers.run events)) as [l|] eqn:Hc; [|reflexivity].
    destruct (Hcache l eq_refl) as [Hc' _]. congruence. }
  unfold Trackers.settle. rewrite Ha, Hnone.
  unfold Trackers.fetchAndCacheTrackers.
  cbn [Trackers.isFetching Trackers.cachedTrackers Trackers.fetchPromise Trackers.promises].
  repeat split.
Qed.

Lemma trackers_failure_is_retried_witness :
  Trackers.cachedTrackers
    (Trackers.run ([Trackers.Call] ++ [Trackers.Settles (Trackers.Text "ftp://x")])%list)
  = None.
Proof.
  apply (trackers_failure_is_retried [Trackers.Call] (Trackers.Text "ftp://x"));
    reflexivity.
Defined.

(** ** Direct link *)

Lemma insertBySize_Permutation (x : DirectLink.ContentItem)
    (l : list DirectLink.ContentItem) :
  DirectLink.insertBySize x l ≡ₚ x :: l.
Proof.
  induction l as [|y l IH]; cbn [DirectLink.insertBySize]; [reflexivity|].
  destruct (DirectLink.sizeOf y <=? DirectLink.sizeOf x)%Z; [reflexivity|].
  rewrite IH. apply Permutation_swap.
Qed.

Lemma sortBySize_Permutation (l : list DirectLink.ContentItem) :
  DirectLink.sortBySize l ≡ₚ l.
Proof.
  induction l as [|x l IH]; [reflexivity|]. unfold DirectLink.sortBySize. cbn [foldr].
  rewrite insertBySize_Permutation. fold (DirectLink.sortBySize l). rewrite IH. reflexivity.
Qed.

(** The first entry of the sorted list is the first of the largest. *)
Lemma head_sortBySize (l : list DirectLink.ContentItem) (x : DirectLink.ContentItem) :
  head (DirectLink.sortBySize l) = Some x ->
  exists before after,
    l = (before ++ x :: after)%list /\
    (forall g, g ∈ before -> (DirectLink.sizeOf g < DirectLink.sizeOf x)%Z) /\
    (forall g, g ∈ after -> (DirectLink.sizeOf g <= DirectLink.sizeOf x)%Z).
Proof.
  revert x. induction l as [|y l IH]; intros x; [discriminate|].
  unfold DirectLink.sortBySize. cbn [foldr]. fold (DirectLink.sortBySize l).
  destruct (DirectLink.sortBySize l) as [|h sorted] eqn:Hsorted.
  - cbn. intros [= <-]. exists [], l. split; [reflexivity|].
    assert (Hnil : l = []).
    { apply Permutation_nil_r. rewrite <- Hsorted. symmetry. apply sortBySize_Permutation. }
    subst l. split; intros g Hg; inversion Hg.
  - destruct (IH h eq_refl) as (before & after & Hl & Hbefore & Hafter).
    cbn [DirectLink.insertBySize].
    destruct (DirectLink.sizeOf h <=? DirectLink.sizeOf y)%Z eqn:Hle; cbn [head]; intros [= <-].
    + exists [], l. split; [reflexivity|]. split; [intros g Hg; inversion Hg|].
      intros g Hg. rewrite Hl in Hg. apply Z.leb_le in Hle.
      apply elem_of_app in Hg as [Hg|Hg]; [specialize (Hbefore g Hg); lia|].
      apply elem_of_cons in Hg as [->|Hg]; [lia|]. specialize (Hafter g Hg). lia.
    + exists (y :: before), after. split; [rewrite Hl; reflexivity|]. split; [|exact Hafter].
      intros g Hg. apply Z.leb_gt in Hle.
      apply elem_of_cons in Hg as [->|Hg]; [lia | apply Hbefore, Hg].
Qed.

Lemma filter_split {A : Type} (p : A -> bool) (l before' after' : list A) (x : A) :
  List.filter p l = (before' ++ x :: after')%list ->
  exists before after,
    l = (before ++ x :: after)%list /\ p x = true /\
    List.filter p before = before' /\ List.filter p after = after'.
Proof.
  revert before'. induction l as [|y l IH]; intros before' H; cbn [List.filter] in H.
  - destruct before'; discriminate H.
  - destruct (p y) eqn:Hy.
    + destruct before' as [|b before'].
      * injection H as -> H. exists [], l. cbn [List.filter]. auto.
      * injection H as -> H. destruct (IH before' H) as (before & after & -> & Hx & Hb & Ha).
        exists (b :: before), after. cbn [List.filter]. rewrite Hy, Hb. auto.
    + destruct (IH before' H) as (before & after & -> & Hx & Hb & Ha).
      exists (y :: before), after. cbn [List.filter]. rewrite Hy. auto.
Qed.

Lemma find_first {A : Type} (p : A -> bool) (l : list A) :
  match List.find p l with
  | Some x => exists before after,
                l = (before ++ x :: after)%list /\ p x = true /\
                forall g, g ∈ before -> p g = false
  | None => forall g, g ∈ l -> p g = false
  end.
Proof.
  induction l as [|y l IH]; cbn [List.find]; [intros g Hg; inversion Hg|].
  destruct (p y) eqn:Hy.
  - exists [], l. split; [reflexivity|]. split; [exact Hy|]. intros g Hg. inversion Hg.
  - destruct (List.find p l) as [x|].
    + destruct IH as (before & after & -> & Hx & Hbefore). exists (y :: before), after.
      split; [reflexivity|]. split; [exact Hx|]. intros g Hg.
      apply elem_of_cons in Hg as [->|Hg]; [exact Hy | apply Hbefore, Hg].
    + intros g Hg. apply elem_of_cons in Hg as [->|Hg]; [exact Hy | apply IH, Hg].
Qed.

Lemma hasLink_present (item : DirectLink.ContentItem) :
  DirectLink.hasLink item = true <->
  exists url, DirectLink.stream_link item = Some url /\ JS.truthy url = true /\
              present (DirectLink.stream_link item) = Some url.
Proof.
  unfold DirectLink.hasLink. rewrite bool_decide_eq_true. split.
  - intros [url Hurl]. exists url. pose proof (present_Some _ _ Hurl) as [H1 H2]. auto.
  - intros (url & _ & _ & H). eauto.
Qed.

(** What [bestMatch] returns is an entry of the content with a link. *)
Lemma bestMatch_linked (searchQuery : option string)
    (content : list DirectLink.ContentItem) :
  match DirectLink.bestMatch searchQuery content with
  | Some best => best ∈ content /\ DirectLink.hasLink best = true
  | None => forall item, item ∈ content -> DirectLink.hasLink item = false
  end.
Proof.
  unfold DirectLink.bestMatch. cbv zeta.
  assert (Hlargest :
    match head (DirectLink.sortBySize (List.filter DirectLink.hasLink content)) with
    | Some best => best ∈ content /\ DirectLink.hasLink best = true
    | None => forall item, item ∈ content -> DirectLink.hasLink item = false
    end).
  { destruct (head _) as [best|] eqn:Hhead.
    - assert (Hin : best ∈ List.filter DirectLink.hasLink content).
      { rewrite <- sortBySize_Permutation. apply head_Some_elem_of, Hhead. }
      apply list_elem_of_In, filter_In in Hin as [Hin Hlink].
      split; [apply list_elem_of_In, Hin | exact Hlink].
    - apply head_None in Hhead.
      assert (Hnil : List.filter DirectLink.hasLink content = []).
      { apply Permutation_nil_r. rewrite <- Hhead. symmetry. apply sortBySize_Permutation. }
      intros item Hitem. destruct (DirectLink.hasLink item) eqn:Hlink; [|reflexivity].
      assert (Hin : item ∈ List.filter DirectLink.hasLink content).
      { apply list_elem_of_In, filter_In. split; [apply list_elem_of_In, Hitem | exact Hlink]. }
      rewrite Hnil in Hin. inversion Hin. }
  destruct (DirectLink.episodeOf searchQuery) as [[seasonNum episodeNum]|]; [|exact Hlargest].
  pose proof (find_first (DirectLink.isEpisodeItem seasonNum episodeNum) content) as Hfind.
  destruct (List.find _ content) as [item|]; [|exact Hlargest].
  destruct Hfind as (before & after & -> & Hitem & _). split.
  - apply elem_of_app. right. apply list_elem_of_here.
  - unfold DirectLink.isEpisodeItem in Hitem. apply andb_prop in Hitem. apply Hitem.
Qed.

(** X24: a link is only given with a key and on a success answer; it is
    then the non-empty [stream_link] of an entry of the content; and on a
    success answer with content, nothing is returned exactly when no entry has
    a link. *)
Theorem directLink_from_content (apiKey searchQuery : option string)
    (answer : DirectLink.Fetched) :
  (forall url,
     DirectLink.directLink apiKey searchQuery answer = Some url ->
     is_Some (present apiKey) /\ JS.truthy url = true /\
     exists content item,
       answer = DirectLink.Data true (Some content) /\ item ∈ content /\
       DirectLink.stream_link item = Some url) /\
  (forall content,
     is_Some (present apiKey) -> answer = DirectLink.Data true (Some content) ->
     (DirectLink.directLink apiKey searchQuery answer = None <->
      forall item, item ∈ content -> DirectLink.hasLink item = false)).
Proof.
  unfold DirectLink.directLink. split.
  - intros url. destruct (present apiKey) as [key|]; [|discriminate].
    destruct answer as [|[] [[|item items]|]]; try discriminate.
    pose proof (bestMatch_linked searchQuery (item :: items)) as Hbest.
    destruct (DirectLink.bestMatch searchQuery (item :: items)) as [best|]; [|discriminate].
    cbn [mbind option_bind]. intros Hurl. destruct Hbest as [Hin _].
    apply present_Some in Hurl as [Hurl Htruthy].
    split; [eauto|]. split; [exact Htruthy|]. exists (item :: items), best. auto.
  - intros content [key ->] ->. destruct content as [|item items].
    { split; [intros _ item Hitem; inversion Hitem | reflexivity]. }
    pose proof (bestMatch_linked searchQuery (item :: items)) as Hbest.
    destruct (DirectLink.bestMatch searchQuery (item :: items)) as [best|];
      cbn [mbind option_bind].
    + destruct Hbest as [Hin Hlink]. split.
      * apply hasLink_present in Hlink as (url & _ & _ & Hurl). rewrite Hurl. discriminate.
      * intros Hnone. rewrite (Hnone best Hin) in Hlink. discriminate.
    + split; [intros _; exact Hbest | reflexivity].
Qed.

Lemma directLink_from_content_witness :
  is_Some (present (Some "key")) /\ JS.truthy "https://cdn/b" = true /\
  exists content item,
    DirectLink.Data true
      (Some [DirectLink.mkItem (Some "a.mkv") None (Some 9%Z);
             DirectLink.mkItem (Some "b.mkv") (Some "https://cdn/b") (Some 5%Z)])
    = DirectLink.Data true (Some content) /\
    item ∈ content /\ DirectLink.stream_link item = Some "https://cdn/b".
Proof.
  apply (proj1 (directLink_from_content (Some "key") None
                  (DirectLink.Data true
                     (Some [DirectLink.mkItem (Some "a.mkv") None (Some 9%Z);
                            DirectLink.mkItem (Some "b.mkv") (Some "https://cdn/b")
                              (Some 5%Z)])))).
  reflexivity.
Defined.

(** X25: when the query names an episode and an entry with a link and a
    path matches it, the first such entry of the content is chosen, whatever
    the sizes; otherwise the choice falls on the largest entry with a link,
    the first of them in the content when several are as large. *)
Theorem bestMatch_choice (searchQuery : option string)
    (content : list DirectLink.ContentItem) :
  (forall seasonNum episodeNum,
     DirectLink.episodeOf searchQuery = Some (seasonNum, episodeNum) ->
     (exists item, item ∈ content /\
                   DirectLink.isEpisodeItem seasonNum episodeNum item = true) ->
     exists before best after,
       content = (before ++ best :: after)%list /\
       DirectLink.isEpisodeItem seasonNum episodeNum best = true /\
       (forall g, g ∈ before -> DirectLink.isEpisodeItem seasonNum episodeNum g = false) /\
       DirectLink.bestMatch searchQuery content = Some best) /\
  (match DirectLink.episodeOf searchQuery with
   | Some (seasonNum, episodeNum) =>
       forall item, item ∈ content ->
                    DirectLink.isEpisodeItem seasonNum episodeNum item = false
   | None => True
   end ->
   forall best,
     DirectLink.bestMatch searchQuery content = Some best ->
     exists before after,
       content = (before ++ best :: after)%list /\
       DirectLink.hasLink best = true /\
       (forall g, g ∈ before -> DirectLink.hasLink g = true ->
                  (DirectLink.sizeOf g < DirectLink.sizeOf best)%Z) /\
       (forall g, g ∈ after -> DirectLink.hasLink g = true ->
                  (DirectLink.sizeOf g <= DirectLink.sizeOf best)%Z)).
Proof.
  unfold DirectLink.bestMatch. cbv zeta. split.
  - intros seasonNum episodeNum -> (item & Hitem & Hepisode).
    pose proof (find_first (DirectLink.isEpisodeItem seasonNum episodeNum) content) as Hfind.
    destruct (List.find _ content) as [best|].
    + destruct Hfind as (before & after & Hcontent & Hbest & Hbefore).
      exists before, best, after. auto.
    + rewrite (Hfind item Hitem) in Hepisode. discriminate.
  - intros Hnone best.
    assert (Hspecific :
      match DirectLink.episodeOf searchQuery with
      | Some (seasonNum, episodeNum) =>
          List.find (DirectLink.isEpisodeItem seasonNum episodeNum) content
      | None => None
      end = None).
    { destruct (DirectLink.episodeOf searchQuery) as [[seasonNum episodeNum]|]; [|reflexivity].
      pose proof (find_first (DirectLink.isEpisodeItem seasonNum episodeNum) content) as Hfind.
      destruct (List.find _ content) as [item|]; [|reflexivity].
      destruct Hfind as (before & after & -> & Hitem & _).
      rewrite Hnone in Hitem; [discriminate|]. apply elem_of_app. right. apply list_elem_of_here. }
    rewrite Hspecific. intros Hhead.
    apply head_sortBySize in Hhead as (before' & after' & Hfilter & Hbefore & Hafter).
    apply filter_split in Hfilter as (before & after & -> & Hlink & <- & <-).
    exists before, after. split; [reflexivity|]. split; [exact Hlink|]. split.
    + intros g Hg Hglink. apply Hbefore, list_elem_of_In, filter_In.
      split; [apply list_elem_of_In, Hg | exact Hglink].
    + intros g Hg Hglink. apply Hafter, list_elem_of_In, filter_In.
      split; [apply list_elem_of_In, Hg | exact Hglink].
Qed.

(** A space after [t] is read by the pattern as the end of the text is. *)
Lemma seasonEpisodeHere_space (t r : string) :
  DirectLink.seasonEpisodeHere (t +:+ String " " r) = DirectLink.seasonEpisodeHere t.
Proof.
  destruct t as [|c1 [|c2 [|c3 [|c4 [|c5 [|c6 t]]]]]]; push_append;
    cbn [DirectLink.seasonEpisodeHere DirectLink.digitsThenE DirectLink.digits12];
    change (JS.isDigit " ") with false; change (JS.upperChar " " =? "E")%char with false;
    change (JS.upperChar " " =? "S")%char with false;
    rewrite ?andb_false_r;
    repeat match goal with
           | |- context [if ?b then _ else _] => destruct b eqn:?; cbn [andb]
           end;
    try reflexivity; try congruence.
Qed.

Lemma seasonEpisodeMatch_space (t r : string) :
  DirectLink.seasonEpisodeMatch (t +:+ String " " r)
  = match DirectLink.seasonEpisodeMatch t with
    | Some groups => Some groups
    | None => DirectLink.seasonEpisodeMatch (String " " r)
    end.
Proof.
  induction t as [|c t IH]; [reflexivity|].
  rewrite append_cons. cbn [DirectLink.seasonEpisodeMatch].
  rewrite <- append_cons, seasonEpisodeHere_space.
  destruct (DirectLink.seasonEpisodeHere (String c t)); [reflexivity|]. exact IH.
Qed.

(** The marker of every season and episode from 0 to 99 is read back. *)
Lemma episode_marker_read (s e : nat) :
  (s < 100)%nat -> (e < 100)%nat ->
  DirectLink.episodeOf
    (Some (" S" +:+ pad2 (Z.of_nat s) +:+ "E" +:+ pad2 (Z.of_nat e)))
  = Some (Z.of_nat s, Z.of_nat e) /\
  DirectLink.seasonEpisodeMatch (" S" +:+ pad2 (Z.of_nat s) +:+ "E" +:+ pad2 (Z.of_nat e))
  = Some (pad2 (Z.of_nat s), pad2 (Z.of_nat e)).
Proof.
  intros Hs He.
  assert (Hall :
    forallb (fun s =>
      forallb (fun e =>
        bool_decide
          (DirectLink.episodeOf
             (Some (" S" +:+ pad2 (Z.of_nat s) +:+ "E" +:+ pad2 (Z.of_nat e)))
           = Some (Z.of_nat s, Z.of_nat e) /\
           DirectLink.seasonEpisodeMatch
             (" S" +:+ pad2 (Z.of_nat s) +:+ "E" +:+ pad2 (Z.of_nat e))
           = Some (pad2 (Z.of_nat s), pad2 (Z.of_nat e))))
        (seq 0 100)) (seq 0 100) = true) by (vm_compute; reflexivity).
  rewrite forallb_forall in Hall. specialize (Hall s). rewrite forallb_forall in Hall.
  eapply bool_decide_eq_true_1, Hall; apply in_seq; lia.
Qed.

Lemma matchLiteral_self (literal rest : string) (prev : option ascii) :
  is_Some (JSRegExp.matchLiteral literal prev (literal +:+ rest)).
Proof.
  revert prev. induction literal as [|l literal IH]; intros prev; push_append;
    cbn [JSRegExp.matchLiteral]; [eauto|].
  rewrite Ascii.eqb_refl. apply IH.
Qed.

Lemma occurs_inside (literal before after : string) :
  DirectLink.occurs literal (before +:+ literal +:+ after) = true.
Proof.
  induction before as [|c before IH]; push_append.
  - destruct (literal +:+ after) eqn:E; cbn [DirectLink.occurs]; rewrite <- ?E;
      rewrite (bool_decide_eq_true_2 _ (matchLiteral_self literal after None)); reflexivity.
  - cbn [DirectLink.occurs]. rewrite IH. apply orb_true_r.
Qed.

Lemma pad2_literal (n : nat) :
  (n < 100)%nat ->
  pad2 (Z.of_nat n) = JS.numberToString (Z.of_nat n) \/
  pad2 (Z.of_nat n) = "0" +:+ JS.numberToString (Z.of_nat n).
Proof.
  intros Hn.
  assert (Hall :
    forallb (fun n =>
      bool_decide (pad2 (Z.of_nat n) = JS.numberToString (Z.of_nat n) \/
                   pad2 (Z.of_nat n) = "0" +:+ JS.numberToString (Z.of_nat n)))
      (seq 0 100) = true) by (vm_compute; reflexivity).
  rewrite forallb_forall in Hall. eapply bool_decide_eq_true_1, Hall. apply in_seq. lia.
Qed.

(** X26: the query built for an episode, a title followed by
    [ SxxEyy] with season and episode between 0 and 99, is read back by the
    link service to this season and this episode, provided the title itself
    holds no such marker; and a path that holds the marker passes the episode
    test. *)
Theorem episode_query_read_back (base : string) (s e : Z) :
  (0 <= s <= 99)%Z -> (0 <= e <= 99)%Z ->
  DirectLink.seasonEpisodeMatch base = None ->
  DirectLink.episodeOf (Some (base +:+ " S" +:+ pad2 s +:+ "E" +:+ pad2 e)) = Some (s, e) /\
  forall before after,
    DirectLink.episodeTest s e (before +:+ "S" +:+ pad2 s +:+ "E" +:+ pad2 e +:+ after)
    = true.
Proof.
  intros Hs He Hbase.
  replace s with (Z.of_nat (Z.to_nat s)) by lia.
  replace e with (Z.of_nat (Z.to_nat e)) by lia.
  assert (Hs' : (Z.to_nat s < 100)%nat) by lia.
  assert (He' : (Z.to_nat e < 100)%nat) by lia.
  generalize dependent (Z.to_nat s). generalize dependent (Z.to_nat e).
  clear s e Hs He. intros e He s Hs.
  destruct (episode_marker_read s e Hs He) as [Hread Hmatch]. split.
  - unfold DirectLink.episodeOf in *. rewrite ?append_cons, ?append_nil_l in *.
    unfold present in *. rewrite truthy_append_char.
    cbn [JS.truthy] in Hread.
    rewrite seasonEpisodeMatch_space, Hbase. exact Hread.
  - intros before after. unfold DirectLink.episodeTest, DirectLink.episodeLiterals.
    cbv zeta. cbn [existsb].
    set (n := JS.numberToString (Z.of_nat s)). set (m := JS.numberToString (Z.of_nat e)).
    destruct (pad2_literal s Hs) as [-> | ->], (pad2_literal e He) as [-> | ->];
      fold n; fold m.
    + replace (before +:+ "S" +:+ n +:+ "E" +:+ m +:+ after)
        with (before +:+ ("S" +:+ n +:+ "E" +:+ m) +:+ after)
        by (push_append; rewrite ?append_assoc; push_append; reflexivity).
      rewrite occurs_inside, ?orb_true_r. reflexivity.
    + replace (before +:+ "S" +:+ n +:+ "E" +:+ ("0" +:+ m) +:+ after)
        with (before +:+ ("S" +:+ n +:+ "E0" +:+ m) +:+ after)
        by (push_append; rewrite ?append_assoc; push_append; reflexivity).
      rewrite occurs_inside, ?orb_true_r. reflexivity.
    + replace (before +:+ "S" +:+ ("0" +:+ n) +:+ "E" +:+ m +:+ after)
        with (before +:+ ("S0" +:+ n +:+ "E" +:+ m) +:+ after)
        by (push_append; rewrite ?append_assoc; push_append; reflexivity).
      rewrite occurs_inside, ?orb_true_r. reflexivity.
    + replace (before +:+ "S" +:+ ("0" +:+ n) +:+ "E" +:+ ("0" +:+ m) +:+ after)
        with (before +:+ ("S0" +:+ n +:+ "E0" +:+ m) +:+ after)
        by (push_append; rewrite ?append_assoc; push_append; reflexivity).
      rewrite occurs_inside, ?orb_true_r. reflexivity.
Qed.

Lemma episode_query_read_back_witness :
  DirectLink.episodeOf (Some ("Some Show" +:+ " S" +:+ pad2 1 +:+ "E" +:+ pad2 12))
  = Some (1%Z, 12%Z).
Proof.
  apply (episode_query_read_back "Some Show" 1 12); [lia | lia | reflexivity].
Defined.

(** ** Stream requests *)

Lemma append_cancel_l (p a b : string) : p +:+ a = p +:+ b -> a = b.
Proof. induction p as [|x p IH]; push_append; [auto|]. intros [= H]. auto. Qed.

(** X27: the cache key of a stream request tells apart the IMDb id, the
    season and the episode of a request, whatever its kind.  For requests
    whose season and episode are safe integers, two that share a key agree on
    the three; and two that agree on the three, none of the numbers being
    zero, share a key. *)
Theorem cacheKey_injective (p q : ParsedId) :
  StreamHandler.safeNumbers p = true ->
  StreamHandler.safeNumbers q = true ->
  (StreamHandler.cacheKey p = StreamHandler.cacheKey q ->
   imdbId p = imdbId q /\ season p = season q /\ episode p = episode q) /\
  (StreamHandler.nonZeroNumbers p = true ->
   imdbId p = imdbId q /\ season p = season q /\ episode p = episode q ->
   StreamHandler.cacheKey p = StreamHandler.cacheKey q).
Proof.
  intros _ _. unfold StreamHandler.cacheKey. split.
  - intros [= Hid Hseason Hepisode]. apply append_cancel_l in Hid.
    split; [exact Hid|]. split.
    + destruct (season p), (season q); congruence.
    + destruct (episode p), (episode q); congruence.
  - intros _ (-> & -> & ->). reflexivity.
Qed.

Lemma cacheKey_injective_witness :
  StreamHandler.cacheKey (mkParsedId "tt0111161" (Some 1%Z) (Some 5%Z) series)
  = StreamHandler.cacheKey (mkParsedId "tt0111161" (Some 1%Z) (Some 5%Z) movie).
Proof.
  apply (cacheKey_injective (mkParsedId "tt0111161" (Some 1%Z) (Some 5%Z) series)
           (mkParsedId "tt0111161" (Some 1%Z) (Some 5%Z) movie));
    [reflexivity | reflexivity | reflexivity | repeat split].
Defined.

Lemma onCacheMiss_cases (mathFloorLog : Z -> Z) (w : StreamHandler.World)
    (parsedId : ParsedId) (config : Config) :
  let run := StreamHandler.onCacheMiss mathFloorLog w parsedId config in
  StreamHandler.sent run = queries (fetchAndSearchTorrents (StreamHandler.searchWorld w)
                                      parsedId config) /\
  ((StreamHandler.response run
    = Returns (StreamHandler.mkResponse 500
                 (StreamHandler.Message "Internal server error during stream processing.")) /\
    (StreamHandler.writes run = [] \/
     exists write, StreamHandler.writes run = [write] /\ StreamHandler.kvSet w write = false))
   \/
   exists streams ttl,
     StreamHandler.response run
     = Returns (StreamHandler.mkResponse 200 (StreamHandler.StreamsJson streams)) /\
     StreamHandler.writes run = [StreamHandler.mkWrite (StreamHandler.cacheKey parsedId)
                                   streams ttl] /\
     StreamHandler.kvSet w (StreamHandler.mkWrite (StreamHandler.cacheKey parsedId)
                              streams ttl) = true /\
     (ttl = 3600000%Z \/ ttl = 300000%Z /\ streams = [])).
Proof.
  cbv zeta. unfold StreamHandler.onCacheMiss. cbv zeta.
  destruct (outcome (fetchAndSearchTorrents (StreamHandler.searchWorld w) parsedId config))
    as [searchResult|]; [|split; [reflexivity | left; split; [reflexivity | left; reflexivity]]].
  set (found := match searchResult with
                | Some result => match torrents result with [] => None | _ => Some result end
                | None => None
                end).
  destruct found as [result|].
  - destruct (StreamHandler.kvSet w _) eqn:Hset; cbn [StreamHandler.sent
      StreamHandler.response StreamHandler.writes]; (split; [reflexivity|]).
    + right. eexists. exists 3600000%Z. split; [reflexivity|]. split; [reflexivity|].
      split; [exact Hset | left; reflexivity].
    + left. split; [reflexivity|]. right. eexists. split; [reflexivity | exact Hset].
  - destruct (StreamHandler.kvSet w _) eqn:Hset; cbn [StreamHandler.sent
      StreamHandler.response StreamHandler.writes]; (split; [reflexivity|]).
    + right. exists [], 300000%Z. split; [reflexivity|]. split; [reflexivity|].
      split; [exact Hset | right; split; reflexivity].
    + left. split; [reflexivity|]. right. eexists. split; [reflexivity | exact Hset].
Qed.

(** X28: a stream request is answered with status 200, 400 or 500; an
    answer with streams needs a token that decrypts and an id that parses, and
    is either a cache hit, served as stored without any search or write, or a
    miss whose streams are written once under the key of the request, for an
    hour, or for five minutes when the search found nothing; nothing is ever
    written without a search. *)
Theorem handleStreamRequest_cache_policy (mathFloorLog : Z -> Z)
    (w : StreamHandler.World) (jwe type rawId : string) :
  let run := StreamHandler.handleStreamRequest mathFloorLog w jwe type rawId in
  (forall r, StreamHandler.response run = Returns r ->
     (StreamHandler.status r = 200 \/ StreamHandler.status r = 400 \/
      StreamHandler.status r = 500)%Z /\
     (StreamHandler.status r = 200%Z <->
      exists streams, StreamHandler.body r = StreamHandler.StreamsJson streams)) /\
  (forall streams,
     StreamHandler.response run
     = Returns (StreamHandler.mkResponse 200 (StreamHandler.StreamsJson streams)) ->
     exists config id parsedId,
       StreamHandler.decryptConfig w jwe = Some config /\
       StreamHandler.decodeURIComponent w rawId = Returns id /\
       parseStremioId (mkArgs type id) = Some parsedId /\
       (StreamHandler.kvGet w (StreamHandler.cacheKey parsedId) = Returns (Some streams) /\
        StreamHandler.sent run = [] /\ StreamHandler.writes run = []
        \/
        StreamHandler.kvGet w (StreamHandler.cacheKey parsedId) = Returns None /\
        exists ttl,
          StreamHandler.writes run
          = [StreamHandler.mkWrite (StreamHandler.cacheKey parsedId) streams ttl] /\
          (ttl = 3600000%Z \/ ttl = 300000%Z /\ streams = []))) /\
  (StreamHandler.writes run <> [] -> StreamHandler.sent run <> []).
Proof.
  cbv zeta. unfold StreamHandler.handleStreamRequest.
  destruct (StreamHandler.isKeyInitialized w); cbn [negb].
  2:{ split; [|split]; [intros r [= <-]; cbn; split; [auto|split; [discriminate|]];
                        intros [streams Hs]; discriminate
                       | discriminate | intros H; contradiction H; reflexivity]. }
  destruct (StreamHandler.decryptConfig w jwe) as [decrypted|].
  2:{ split; [|split]; [intros r [= <-]; cbn; split; [auto|split; [discriminate|]];
                        intros [streams Hs]; discriminate
                       | discriminate | intros H; contradiction H; reflexivity]. }
  destruct (StreamHandler.decodeURIComponent w rawId) as [id|].
  2:{ split; [|split]; [discriminate | discriminate | intros H; contradiction H; reflexivity]. }
  destruct (parseStremioId (mkArgs type id)) as [parsedId|] eqn:Hparse.
  2:{ split; [|split]; [intros r [= <-]; cbn; split; [auto|split; [discriminate|]];
                        intros [streams Hs]; discriminate
                       | discriminate | intros H; contradiction H; reflexivity]. }
  cbv zeta. destruct (StreamHandler.getKv w); cbn [negb].
  2:{ split; [|split]; [intros r [= <-]; cbn; split; [auto|split; [discriminate|]];
                        intros [streams Hs]; discriminate
                       | discriminate | intros H; contradiction H; reflexivity]. }
  destruct (StreamHandler.kvGet w (StreamHandler.cacheKey parsedId)) as [[cached|]|] eqn:Hget.
  - split; [|split].
    + intros r [= <-]. cbn. split; [auto|]. split; [eauto | reflexivity].
    + intros streams [= <-]. exists decrypted, id, parsedId.
      split; [reflexivity|]. split; [reflexivity|]. split; [exact Hparse|]. left.
      split; [exact Hget|]. split; reflexivity.
    + intros H. contradiction H. reflexivity.
  - pose proof (onCacheMiss_cases mathFloorLog w parsedId
                  (StreamHandler.withEnvUrl decrypted (StreamHandler.bitmagnetUrlFromEnv w)))
      as [Hsent Hcases].
    cbv zeta in Hsent, Hcases.
    assert (Hqueries : StreamHandler.sent
                         (StreamHandler.onCacheMiss mathFloorLog w parsedId
                            (StreamHandler.withEnvUrl decrypted
                               (StreamHandler.bitmagnetUrlFromEnv w))) <> []).
    { rewrite Hsent. unfold fetchAndSearchTorrents. cbv zeta.
      repeat match goal with
             | |- context [match ?x with _ => _ end] => destruct x
             end; discriminate. }
    split; [|split; [|intros _; exact Hqueries]].
    + intros r Hr. destruct Hcases as [[Hfail _]|(streams & ttl & Hok & _)].
      * rewrite Hfail in Hr. injection Hr as <-. cbn. split; [auto|].
        split; [discriminate | intros [streams Hs]; discriminate].
      * rewrite Hok in Hr. injection Hr as <-. cbn. split; [auto|]. split; [eauto | reflexivity].
    + intros streams Hr. exists decrypted, id, parsedId.
      split; [reflexivity|]. split; [reflexivity|]. split; [exact Hparse|]. right.
      split; [exact Hget|].
      destruct Hcases as [[Hfail _]|(streams' & ttl & Hok & Hwrites & _ & Httl)].
      * rewrite Hfail in Hr. discriminate.
      * rewrite Hok in Hr. injection Hr as <-. exists ttl. auto.
  - split; [|split]; [intros r [= <-]; cbn; split; [auto|split; [discriminate|]];
                      intros [streams Hs]; discriminate
                     | discriminate | intros H; contradiction H; reflexivity].
Qed.

(** ** Configuration tokens *)

Lemma present_truthy (s : option string) (v : string) :
  present s = Some v -> present (Some v) = Some v.
Proof. intros H. apply present_Some in H as [_ H]. unfold present. rewrite H. reflexivity. Qed.

(** A configuration as [decryptConfig] and the token handler leave it. *)
Lemma finalConfig_payloadOf (config : Config) :
  JS.truthy (bitmagnetUrl config) = true ->
  present (tmdbApiKey config) = tmdbApiKey config ->
  present (premiumizeApiKey config) = premiumizeApiKey config ->
  (5 <= bitmagnetTimeout config)%Z ->
  (1 <= bitmagnetSearchLimit config <= 100)%Z ->
  ConfigToken.finalConfig (ConfigToken.payloadOf config) = Some config.
Proof.
  intros Hurl Htmdb Hpremiumize Htimeout Hlimit.
  unfold ConfigToken.finalConfig, ConfigToken.payloadOf.
  cbn [ConfigToken.p_bitmagnetUrl ConfigToken.p_tmdbApiKey ConfigToken.p_premiumizeApiKey
       ConfigToken.p_bitmagnetTimeout ConfigToken.p_bitmagnetSortField
       ConfigToken.p_bitmagnetSortDescending ConfigToken.p_bitmagnetSearchLimit
       ConfigToken.numberOr].
  rewrite Hurl, Htmdb, Hpremiumize. cbv zeta.
  replace (bitmagnetTimeout config <? 5)%Z with false by lia.
  replace (bitmagnetSearchLimit config <? 1)%Z with false by lia.
  replace (100 <? bitmagnetSearchLimit config)%Z with false by lia.
  destruct config; reflexivity.
Qed.

(** X29: a configuration that [decryptConfig] returns has a non-empty
    Bitmagnet URL, API keys that are non-empty when present, a timeout of at
    least 5 and a search limit between 1 and 100; and putting it into a token
    again and decrypting that gives the same configuration. *)
Theorem decryptConfig_normal (keyInitialized : bool)
    (decrypted : option ConfigToken.Payload) (config : Config) :
  ConfigToken.decryptConfig keyInitialized decrypted = Some config ->
  keyInitialized = true /\
  JS.truthy (bitmagnetUrl config) = true /\
  present (tmdbApiKey config) = tmdbApiKey config /\
  present (premiumizeApiKey config) = premiumizeApiKey config /\
  (5 <= bitmagnetTimeout config)%Z /\
  (1 <= bitmagnetSearchLimit config <= 100)%Z /\
  ConfigToken.decryptConfig true (Some (ConfigToken.payloadOf config)) = Some config.
Proof.
  unfold ConfigToken.decryptConfig. destruct keyInitialized; [|discriminate].
  destruct decrypted as [parsed|]; [|discriminate]. cbn [mbind option_bind].
  intros Hfinal.
  assert (Hnormal :
    JS.truthy (bitmagnetUrl config) = true /\
    present (tmdbApiKey config) = tmdbApiKey config /\
    present (premiumizeApiKey config) = premiumizeApiKey config /\
    (5 <= bitmagnetTimeout config)%Z /\
    (1 <= bitmagnetSearchLimit config <= 100)%Z).
  { unfold ConfigToken.finalConfig in Hfinal.
    destruct (ConfigToken.p_bitmagnetUrl parsed) as [[| | |url| |]|]; try discriminate.
    destruct (JS.truthy url) eqn:Hurl; [|discriminate]. cbv zeta in Hfinal.
    injection Hfinal as <-.
    cbn [bitmagnetUrl tmdbApiKey premiumizeApiKey bitmagnetTimeout bitmagnetSearchLimit].
    rewrite !present_idem. split; [exact Hurl|]. split; [reflexivity|].
    split; [reflexivity|]. split.
    - destruct (_ <? 5)%Z eqn:E; lia.
    - destruct (_ <? 1)%Z eqn:E1; destruct (100 <? _)%Z eqn:E2; cbn [orb]; lia. }
  destruct Hnormal as (Hurl & Htmdb & Hpremiumize & Htimeout & Hlimit).
  split; [reflexivity|]. split; [exact Hurl|]. split; [exact Htmdb|].
  split; [exact Hpremiumize|]. split; [exact Htimeout|]. split; [exact Hlimit|].
  apply finalConfig_payloadOf; assumption.
Qed.

Lemma decryptConfig_normal_witness :
  (5 <= bitmagnetTimeout (mkConfig "http://b" None (Some "pm") 30 "Seeders" true 30))%Z.
Proof.
  apply (decryptConfig_normal true
           (Some (ConfigToken.mkPayload (Some (JString "http://b")) (Some "") (Some "pm")
                    (Some (JNumber 2)) None (Some JNull) (Some (JNumber 500))))
           (mkConfig "http://b" None (Some "pm") 30 "Seeders" true 30)).
  reflexivity.
Defined.

Lemma clamp_range (n : option Z) (low : Z) (high : option Z) :
  (low <= 30)%Z -> match high with Some h => (30 <= h)%Z | None => True end ->
  (low <= ConfigToken.clamp n low high)%Z /\
  match high with Some h => (ConfigToken.clamp n low high <= h)%Z | None => True end.
Proof.
  intros Hlow Hhigh. unfold ConfigToken.clamp. destruct n as [v|].
  - destruct high as [h|].
    + destruct (v <? low)%Z eqn:E1; destruct (h <? v)%Z eqn:E2; cbn [orb]; lia.
    + rewrite orb_false_r. destruct (v <? low)%Z eqn:E1; split; try lia; exact I.
  - destruct high; split; try lia; exact I.
Qed.

(** X30: a configuration the token handler encrypts has a Bitmagnet URL
    that starts with [http] (the environment variable when it is set, the
    form field otherwise), API keys that are non-empty when present, a
    timeout of at least 5 and a limit between 1 and 100; decrypting its token
    gives back the same configuration. *)
Theorem tokenConfig_normal (bitmagnetUrlFromEnv : option string)
    (form : string -> option string)
    (manifestConfig : option (list ConfigToken.ManifestConfigItem)) (config : Config) :
  ConfigToken.tokenConfig bitmagnetUrlFromEnv form manifestConfig = Some config ->
  JS.startsWith (bitmagnetUrl config) "http" = true /\
  (forall url, present bitmagnetUrlFromEnv = Some url -> bitmagnetUrl config = url) /\
  (present bitmagnetUrlFromEnv = None -> form "bitmagnetUrl" = Some (bitmagnetUrl config)) /\
  (5 <= bitmagnetTimeout config)%Z /\
  (1 <= bitmagnetSearchLimit config <= 100)%Z /\
  ConfigToken.decryptConfig true (Some (ConfigToken.payloadOf config)) = Some config.
Proof.
  unfold ConfigToken.tokenConfig. cbv zeta.
  set (url := orElse bitmagnetUrlFromEnv (orElse (form "bitmagnetUrl") "")).
  destruct (JS.truthy url) eqn:Htruthy; [|discriminate].
  destruct (JS.startsWith url "http") eqn:Hhttp; [|discriminate].
  cbn [negb orb]. intros [= <-].
  cbn [bitmagnetUrl tmdbApiKey premiumizeApiKey bitmagnetTimeout bitmagnetSearchLimit].
  pose proof (clamp_range
                (JS.parseInt (orElse (form "bitmagnetTimeout")
                                (ConfigToken.getConfigDefault manifestConfig
                                   "bitmagnetTimeout" "30")))
                5 None ltac:(lia) I) as [Htimeout _].
  pose proof (clamp_range
                (JS.parseInt (orElse (form "bitmagnetSearchLimit")
                                (ConfigToken.getConfigDefault manifestConfig
                                   "bitmagnetSearchLimit" "30")))
                1 (Some 100%Z) ltac:(lia) ltac:(cbn; lia)) as [Hlimit1 Hlimit2].
  split; [exact Hhttp|]. split; [|split; [|split; [exact Htimeout|split; [lia|]]]].
  - intros u Hu. unfold url, orElse. rewrite Hu. reflexivity.
  - intros Hnone. unfold url, orElse in Htruthy |- *. rewrite Hnone in Htruthy |- *.
    destruct (present (form "bitmagnetUrl")) as [u|] eqn:Hform; [|discriminate Htruthy].
    apply present_Some in Hform as [Hform _]. exact Hform.
  - unfold ConfigToken.decryptConfig. cbn [mbind option_bind].
    apply finalConfig_payloadOf;
      cbn [bitmagnetUrl tmdbApiKey premiumizeApiKey bitmagnetTimeout bitmagnetSearchLimit];
      try apply present_idem; try assumption. lia.
Qed.

Lemma tokenConfig_normal_witness :
  JS.startsWith (bitmagnetUrl (mkConfig "https://bm" None None 30 "Seeders" false 30))
    "http" = true.
Proof.
  apply (tokenConfig_normal None
           (fun name => if String.eqb name "bitmagnetUrl" then Some "https://bm"
                        else if String.eqb name "bitmagnetSearchLimit" then Some "1000"
                        else None)
           None (mkConfig "https://bm" None None 30 "Seeders" false 30)).
  reflexivity.
Defined.
